(** * Bolus injector: a shallow embedding of [lib/Injector.js]

    The development follows the source file top-down: the regular
    expressions and the signature parser, the invocation adapter, the
    dependency graph (a plain JavaScript object, prototype chain included),
    registration, and the recursive resolution engine.  Theorems come after
    all definitions. *)

From Stdlib Require Import ZArith Ascii String List Bool Lia DecimalString.
From stdpp Require Import gmap strings list fin_maps.

Local Open Scope string_scope.
Local Open Scope nat_scope.
Local Open Scope list_scope.

(** ** JavaScript strings

    Strings are sequences of 8-bit code units (the Latin-1 range of the
    UTF-16 code units a JavaScript string is made of). *)

Module JsString.

Definition last_char (s : string) : option ascii :=
  match String.length s with
  | O => None
  | S n => String.get n s
  end.

Definition first_char (s : string) : option ascii := String.get 0 s.

(** [s.substring(a, b)]: both indices are clamped to the length and
    swapped when [a > b]. *)
Definition substring (a b : nat) (s : string) : string :=
  let a' := Nat.min a (String.length s) in
  let b' := Nat.min b (String.length s) in
  String.substring (Nat.min a' b') (Nat.max a' b' - Nat.min a' b') s.

(** [arr.join(sep)] on an array of strings. *)
Fixpoint join (sep : string) (l : list string) : string :=
  match l with
  | [] => EmptyString
  | [x] => x
  | x :: rest => x +:+ sep +:+ join sep rest
  end.

(** [arr.indexOf(x) >= 0]. *)
Definition includes (x : string) (l : list string) : bool :=
  existsb (String.eqb x) l.

End JsString.

(** ** Regular expressions

    A backtracking matcher in continuation-passing style, with the
    priorities of the ECMAScript semantics: alternatives left to right,
    greedy quantifiers longest first, lazy quantifiers shortest first.
    Every quantifier of the source is applied to a character class, so
    [Rep] takes a class. *)

Module Regex.

Definition cclass := ascii -> bool.

Inductive regex : Type :=
| Eps
| Chr (p : cclass)
| Cat (r1 r2 : regex)
| Alt (r1 r2 : regex)
| Opt (r : regex)
| Rep (greedy : bool) (least : nat) (p : cclass)
| Grp (i : nat) (r : regex)
| Bos
| Eos.

(** Captures: group number to matched text; a group that did not take
    part in the match has no entry ([undefined]). *)
Definition caps := list (nat * string).

Fixpoint cap (i : nat) (c : caps) : option string :=
  match c with
  | [] => None
  | (j, s) :: c' => if Nat.eqb i j then Some s else cap i c'
  end.

Definition cont := nat -> string -> caps -> option (nat * caps).

Fixpoint rep_greedy (p : cclass) (least : nat) (pos : nat) (s : string)
         (c : caps) (k : cont) : option (nat * caps) :=
  let stop := match least with O => k pos s c | S _ => None end in
  match s with
  | String a s' =>
      if p a then
        match rep_greedy p (Nat.pred least) (S pos) s' c k with
        | Some r => Some r
        | None => stop
        end
      else stop
  | EmptyString => stop
  end.

Fixpoint rep_lazy (p : cclass) (least : nat) (pos : nat) (s : string)
         (c : caps) (k : cont) : option (nat * caps) :=
  match (match least with O => k pos s c | S _ => None end) with
  | Some r => Some r
  | None =>
      match s with
      | String a s' =>
          if p a then rep_lazy p (Nat.pred least) (S pos) s' c k else None
      | EmptyString => None
      end
  end.

Fixpoint exec (r : regex) (pos : nat) (s : string) (c : caps) (k : cont)
  : option (nat * caps) :=
  match r with
  | Eps => k pos s c
  | Chr p =>
      match s with
      | String a s' => if p a then k (S pos) s' c else None
      | EmptyString => None
      end
  | Cat r1 r2 => exec r1 pos s c (fun pos' s' c' => exec r2 pos' s' c' k)
  | Alt r1 r2 =>
      match exec r1 pos s c k with
      | Some x => Some x
      | None => exec r2 pos s c k
      end
  | Opt r1 =>
      match exec r1 pos s c k with
      | Some x => Some x
      | None => k pos s c
      end
  | Rep true n p => rep_greedy p n pos s c k
  | Rep false n p => rep_lazy p n pos s c k
  | Grp i r1 =>
      exec r1 pos s c
           (fun pos' s' c' =>
              k pos' s' ((i, String.substring 0 (pos' - pos) s) :: c'))
  | Bos => if Nat.eqb pos 0 then k pos s c else None
  | Eos => match s with EmptyString => k pos s c | String _ _ => None end
  end.

(** A match attempt at one position: the end position and the captures. *)
Definition match_at (r : regex) (pos : nat) (s : string)
  : option (nat * caps) :=
  exec r pos s [] (fun pos' _ c' => Some (pos', c')).

Record found := { m_text : string; m_caps : caps }.

(** Leftmost match at or after the current position ([s] is the input
    from position [pos] on). *)
Fixpoint search_from (r : regex) (pos : nat) (s : string) : option found :=
  match match_at r pos s with
  | Some (e, c) =>
      Some {| m_text := String.substring 0 (e - pos) s; m_caps := c |}
  | None =>
      match s with
      | String _ s' => search_from r (S pos) s'
      | EmptyString => None
      end
  end.

(** [str.match(re)] for a regex without the [g] flag. *)
Definition search (r : regex) (s : string) : option found :=
  search_from r 0 s.

(** [re.test(str)]. *)
Definition test (r : regex) (s : string) : bool :=
  match search r s with Some _ => true | None => false end.

(** [str.replace(re, f)] for a regex with the [g] flag.  [skip] counts
    the characters of the last match that are still to be dropped; after
    an empty match the scan copies one character and moves on. *)
Fixpoint replace_from (r : regex) (f : found -> string)
         (pos skip : nat) (s : string) : string :=
  match skip with
  | S k =>
      match s with
      | String _ s' => replace_from r f (S pos) k s'
      | EmptyString => EmptyString
      end
  | O =>
      match match_at r pos s with
      | Some (e, c) =>
          let m := {| m_text := String.substring 0 (e - pos) s;
                      m_caps := c |} in
          f m +:+
          match s with
          | String a s' =>
              match e - pos with
              | O => String a (replace_from r f (S pos) 0 s')
              | S k => replace_from r f (S pos) k s'
              end
          | EmptyString => EmptyString
          end
      | None =>
          match s with
          | String a s' => String a (replace_from r f (S pos) 0 s')
          | EmptyString => EmptyString
          end
      end
  end.

Definition replace_all (r : regex) (f : found -> string) (s : string)
  : string :=
  replace_from r f 0 0 s.

(** [str.match(re)] for a regex with the [g] flag: every match, left to
    right ([null] is the empty list here; the caller's [|| []] makes the
    two the same). *)
Fixpoint match_all_from (r : regex) (pos skip : nat) (s : string)
  : list string :=
  match skip with
  | S k =>
      match s with
      | String _ s' => match_all_from r (S pos) k s'
      | EmptyString => []
      end
  | O =>
      match match_at r pos s with
      | Some (e, _) =>
          String.substring 0 (e - pos) s ::
          match s with
          | String _ s' => match_all_from r (S pos) (Nat.pred (e - pos)) s'
          | EmptyString => []
          end
      | None =>
          match s with
          | String _ s' => match_all_from r (S pos) 0 s'
          | EmptyString => []
          end
      end
  end.

Definition match_all (r : regex) (s : string) : list string :=
  match_all_from r 0 0 s.

(** *** Character classes *)

Definition only (a : ascii) : cclass := Ascii.eqb a.

(** [\s] on 8-bit code units: TAB, LF, VT, FF, CR, space, NBSP. *)
Definition ws : cclass := fun a =>
  match nat_of_ascii a with
  | 9 | 10 | 11 | 12 | 13 | 32 | 160 => true
  | _ => false
  end.

(** [.] excludes the line terminators LF and CR. *)
Definition dot : cclass := fun a =>
  match nat_of_ascii a with
  | 10 | 13 => false
  | _ => true
  end.

(** [[\s\S]]. *)
Definition any : cclass := fun _ => true.

Definition non (p : cclass) : cclass := fun a => negb (p a).

Definition one_of (l : list ascii) : cclass := fun a =>
  existsb (Ascii.eqb a) l.

(** Case folding of the [i] flag on ASCII letters. *)
Definition upper (a : ascii) : ascii :=
  let n := nat_of_ascii a in
  if (97 <=? n) && (n <=? 122) then ascii_of_nat (n - 32) else a.

Definition only_ci (a : ascii) : cclass := fun b =>
  Ascii.eqb (upper a) (upper b).

Fixpoint Lit (s : string) : regex :=
  match s with
  | EmptyString => Eps
  | String a s' => Cat (Chr (only a)) (Lit s')
  end.

Fixpoint LitI (s : string) : regex :=
  match s with
  | EmptyString => Eps
  | String a s' => Cat (Chr (only_ci a)) (LitI s')
  end.

Fixpoint seq (l : list regex) : regex :=
  match l with
  | [] => Eps
  | [r] => r
  | r :: l' => Cat r (seq l')
  end.

End Regex.

Import Regex.

(** ** The regular expressions of the source *)

(** [/\/\*\s*optional\s*\*\/\s*(.+?)(\s*[,)=])/ig] *)
Definition CONVERT_OPTIONAL : regex :=
  seq [ LitI "/*"; Rep true 0 ws; LitI "optional"; Rep true 0 ws;
        LitI "*/"; Rep true 0 ws;
        Grp 1 (Rep false 1 dot);
        Grp 2 (Cat (Rep true 0 ws) (Chr (one_of ["," ; ")" ; "="]%char))) ].

(** [/((\/\/.*$)|(\/\*[\s\S]*?\*\/))/g] (no [m] flag: [$] is the end of
    the input). *)
Definition STRIP_COMMENTS : regex :=
  Grp 1 (Alt (Grp 2 (seq [Lit "//"; Rep true 0 dot; Eos]))
             (Grp 3 (seq [Lit "/*"; Rep false 0 any; Lit "*/"]))).

(** [/(?:\(([\s\S]*?)\)|(?:async )?([^)]*?)=>)/] *)
Definition ARGUMENTS : regex :=
  Alt (seq [Chr (only "("); Grp 1 (Rep false 0 any); Chr (only ")")])
      (seq [Opt (Lit "async "); Grp 2 (Rep false 0 (non (only ")")));
            Lit "=>"]).

(** [/([^\s,]+)/g] *)
Definition ARGUMENT_NAMES : regex :=
  Grp 1 (Rep true 1 (fun a => negb (ws a || only "," a))).

(** [/^\s*class\s+/] *)
Definition IS_CLASS_REGEX : regex :=
  seq [Bos; Rep true 0 ws; Lit "class"; Rep true 1 ws].

(** [/constructor\s*\([\s\S]*?\)/] *)
Definition CONSTRUCTOR_REGEX : regex :=
  seq [Lit "constructor"; Rep true 0 ws; Chr (only "(");
       Rep false 0 any; Chr (only ")")].

(** ** Exceptions and results *)

Inductive exn : Type :=
| JsError (msg : string)     (* [new Error(msg)] *)
| TypeError                  (* raised by the host *)
| RangeError.                (* call stack exhausted *)

Inductive result (A : Type) : Type :=
| Ok (a : A)
| Throw (e : exn).
Arguments Ok {A} a.
Arguments Throw {A} e.

(** ** Signature parser *)

Definition group_text (i : nat) (m : found) : string :=
  match cap i (m_caps m) with Some s => s | None => EmptyString end.

(** The replacement pattern ["$1?$2"]. *)
Definition optional_suffix (m : found) : string :=
  group_text 1 m +:+ "?" +:+ group_text 2 m.

Definition parse_error : exn :=
  JsError "Unable to parse arguments from function string.".

(** The text the argument list is looked for in: the class constructor,
    or the whole declaration; [None] is the early [return []]. *)
Definition declaration_head (fnStr : string) : option string :=
  if test IS_CLASS_REGEX fnStr then
    match search CONSTRUCTOR_REGEX fnStr with
    | None => None
    | Some constructorMatch => Some (m_text constructorMatch)
    end
  else Some fnStr.

Definition strip (fnStr : string) : string :=
  replace_all STRIP_COMMENTS (fun _ => EmptyString)
              (replace_all CONVERT_OPTIONAL optional_suffix fnStr).

Definition _getArgumentsFromString (fnStr : string) : result (list string) :=
  match declaration_head fnStr with
  | None => Ok []
  | Some fnStr =>
      let fnStr := strip fnStr in
      match search ARGUMENTS fnStr with
      | None => Throw parse_error
      | Some m =>
          let argumentList :=
            match cap 1 (m_caps m) with
            | Some a => a
            | None => group_text 2 m
            end in
          Ok (match_all ARGUMENT_NAMES argumentList)
      end
  end.

(** ** Values

    Functions are first-order data: an identity, the declaration text that
    [toString()] prints, and the [$inject] array when one was attached.
    What running a function does is given by the host (see [Engine]
    and [Callbacks]).
    Numbers are the safe integers (see [number]).  [VObj] is an object that has
    none of the own properties the injector reads ([value],
    [dependencyNames], [$inject], [apply]) and prints as
    ["[object Object]"]; [VInjector] is the container itself. *)

Record func := { fid : nat; ftext : string; finject : option (list string) }.

(** The numbers of the model are the safe integers, the integers below
    [2^53] in absolute value: a double holds each of them exactly and
    [toString()] prints all its digits. *)
Definition safe (n : Z) : bool := (Z.abs n <? 9007199254740992)%Z.

Record number := { number_value : Z; number_safe : safe number_value = true }.

(** The number [n], when there is one. *)
Definition to_number (n : Z) : option number :=
  match Sumbool.sumbool_of_bool (safe n) with
  | left H => Some {| number_value := n; number_safe := H |}
  | right _ => None
  end.

Declare Scope number_scope.
Delimit Scope number_scope with number.
Bind Scope number_scope with number.
Number Notation number to_number number_value : number_scope.

Inductive value : Type :=
| VUndefined
| VNull
| VBool (b : bool)
| VNum (n : number)
| VStr (s : string)
| VFunc (f : func)
| VObj (id : nat)
| VInjector.

Definition truthy (v : value) : bool :=
  match v with
  | VUndefined | VNull => false
  | VBool b => b
  | VNum n => negb (Z.eqb (number_value n) 0)
  | VStr s => negb (String.eqb s EmptyString)
  | VFunc _ | VObj _ | VInjector => true
  end.

(** [v.toString()]; [None] is the TypeError of a property access on
    [undefined] or [null]. *)
Definition toString (v : value) : option string :=
  match v with
  | VUndefined | VNull => None
  | VBool true => Some "true"
  | VBool false => Some "false"
  | VNum n => Some (NilZero.string_of_int (Z.to_int (number_value n)))
  | VStr s => Some s
  | VFunc f => Some (ftext f)
  | VObj _ | VInjector => Some "[object Object]"
  end.

(** [Injector._getArguments]: [fn.$inject || parse(fn.toString())]. *)
Definition _getArguments (fn : value) : result (list string) :=
  match fn with
  | VFunc {| finject := Some names |} => Ok names
  | _ =>
      match toString fn with
      | None => Throw TypeError
      | Some text => _getArgumentsFromString text
      end
  end.

(** ** Plain objects and the prototype chain

    [this._graph] and [locals] are plain objects: a property that is not
    an own property is looked up on [Object.prototype]. *)

Definition objectPrototypeNames : list string :=
  [ "constructor"; "__defineGetter__"; "__defineSetter__"; "hasOwnProperty";
    "__lookupGetter__"; "__lookupSetter__"; "isPrototypeOf";
    "propertyIsEnumerable"; "toString"; "valueOf"; "toLocaleString" ].

Definition native (name : string) : func :=
  {| fid := 0;
     ftext := "function " +:+ name +:+ "() { [native code] }";
     finject := None |}.

(** [Object.prototype] itself. *)
Definition ObjectPrototype : value := VObj 0.

(** [Object.prototype[k]] for [k] other than ["__proto__"]: the member
    [constructor] is the function [Object], the others are native
    functions that carry their own name. *)
Definition object_prototype_member (k : string) : value :=
  if existsb (String.eqb k) objectPrototypeNames
  then VFunc (native (if String.eqb k "constructor" then "Object" else k))
  else VUndefined.

(** [locals[k]] for an object literal with own properties [m]. *)
Definition plain_get (m : gmap string value) (k : string) : value :=
  match m !! k with
  | Some v => v
  | None =>
      if String.eqb k "__proto__" then ObjectPrototype
      else object_prototype_member k
  end.

(** ** The dependency graph *)

Inductive node : Type :=
| Provider (factory : value) (dependencyNames : list string)
           (cached : option value)       (* own property [value], once set *)
| Value (v : value).

(** [node.hasOwnProperty("value")] and [node.value]. *)
Definition node_value (n : node) : option value :=
  match n with
  | Provider _ _ c => c
  | Value v => Some v
  end.

(** [node.value = v]. *)
Definition node_set_value (v : value) (n : node) : node :=
  match n with
  | Provider f d _ => Provider f d (Some v)
  | Value _ => Value v
  end.

(** [this._graph]: the own properties, and the node the prototype was
    replaced with when something was stored under ["__proto__"] (an
    assignment to that key runs the inherited setter and creates no own
    property). *)
Record graph := { own : gmap string node; proto : option node }.

(** What [this._graph[k]] evaluates to. *)
Inductive slot : Type :=
| SNode (n : node)
| SArray (l : list string)
| SValue (v : value).

Definition node_field (n : node) (k : string) : option slot :=
  match n with
  | Provider f d c =>
      if String.eqb k "factory" then Some (SValue f)
      else if String.eqb k "dependencyNames" then Some (SArray d)
      else if String.eqb k "value" then SValue <$> c
      else None
  | Value v => if String.eqb k "value" then Some (SValue v) else None
  end.

Definition graph_get (g : graph) (k : string) : slot :=
  if String.eqb k "__proto__" then
    match proto g with
    | Some n => SNode n
    | None => SValue ObjectPrototype
    end
  else
    match own g !! k with
    | Some n => SNode n
    | None =>
        match proto g ≫= (fun n => node_field n k) with
        | Some s => s
        | None => SValue (object_prototype_member k)
        end
    end.

(** [this._graph[k] = n]. *)
Definition graph_set (g : graph) (k : string) (n : node) : graph :=
  if String.eqb k "__proto__" then {| own := own g; proto := Some n |}
  else {| own := <[k := n]> (own g); proto := proto g |}.

(** In-place update of the node object stored under [k]. *)
Definition graph_update (g : graph) (k : string) (f : node -> node) : graph :=
  if String.eqb k "__proto__" then {| own := own g; proto := f <$> proto g |}
  else {| own := alter f k (own g); proto := proto g |}.

Definition slot_truthy (s : slot) : bool :=
  match s with
  | SNode _ | SArray _ => true
  | SValue v => truthy v
  end.

(** [node.hasOwnProperty("value")] on whatever the lookup produced: of the
    values of the model only node objects have that own property. *)
Definition slot_value (s : slot) : option value :=
  match s with
  | SNode n => node_value n
  | SArray _ | SValue _ => None
  end.

(** [node.dependencyNames] and [node.factory]; [None] is [undefined]. *)
Definition slot_provider (s : slot) : option (value * list string) :=
  match s with
  | SNode (Provider f d _) => Some (f, d)
  | _ => None
  end.

(** ** The container

    [invoked] is a ghost log: the names of the nodes whose factory the
    host has run, oldest first. *)

Record injector := { _graph : graph; invoked : list string }.

Definition empty_graph : graph := {| own := ∅; proto := None |}.

(** [registerValue(name, value)]. *)
Definition registerValue (name : string) (v : value) (i : injector)
  : injector :=
  {| _graph := graph_set (_graph i) name (Value v); invoked := invoked i |}.

(** [register(name, fn)]. *)
Definition register (name : string) (fn : value) (i : injector)
  : result injector :=
  match _getArguments fn with
  | Throw e => Throw e
  | Ok args =>
      Ok {| _graph := graph_set (_graph i) name (Provider fn args None);
            invoked := invoked i |}
  end.

(** [new Injector()] (no instance name). *)
Definition new_Injector : injector :=
  registerValue "$injector" VInjector
                {| _graph := empty_graph; invoked := [] |}.

(** [isRegistered(name)]: [!!this._graph[name]]. *)
Definition isRegistered (i : injector) (name : string) : bool :=
  slot_truthy (graph_get (_graph i) name).

(** [getRegisteredNames()] up to order: the own enumerable keys. *)
Definition registered_names (i : injector) : gset string :=
  dom (own (_graph i)).

(** ** Invocation adapter and resolution engine

    The host gives the result of calling a function ([fn.apply(null, args)])
    and of constructing with it ([new fn(...args)]).  This section is the
    engine for callbacks that return a value and leave the container
    alone; [Callbacks], further down, is the engine for callbacks that
    throw or call the container, and [cb__resolve_returning] shows that
    the two agree on the callbacks of this section. *)

Section Engine.

Variable host_apply : func -> list value -> value.
Variable host_new : func -> list value -> value.

(** [Injector._invokeFunction(fn, args)].  The flag tells whether the
    host ran [fn]. *)
Definition _invokeFunction (fn : value) (args : list value)
  : result value * bool :=
  match toString fn with
  | None => (Throw TypeError, false)
  | Some text =>
      if test IS_CLASS_REGEX text then
        match fn with
        | VFunc f => (Ok (host_new f args), true)
        | _ => (Throw TypeError, false)   (* [bind] on a non-function *)
        end
      else if truthy fn then
        match fn with
        | VFunc f => (Ok (host_apply f args), true)
        | _ => (Throw TypeError, false)   (* [fn.apply] is undefined *)
        end
      else (Ok VUndefined, false)
  end.

(** [name[name.length - 1] === "?"]. *)
Definition has_optional_marker (name : string) : bool :=
  match JsString.last_char name with
  | Some c => Ascii.eqb c "?"
  | None => false
  end.

Definition node_name (name : string) : string :=
  if has_optional_marker name
  then JsString.substring 0 (String.length name - 1) name
  else name.

(** [names.map(f)] for an [f] that reads and updates the container and
    may throw: left to right, stopping at the first exception. *)
Fixpoint map_resolve (f : string -> injector -> result value * injector)
         (names : list string) (i : injector)
  : result (list value) * injector :=
  match names with
  | [] => (Ok [], i)
  | n :: rest =>
      match f n i with
      | (Throw e, i1) => (Throw e, i1)
      | (Ok v, i1) =>
          match map_resolve f rest i1 with
          | (Throw e, i2) => (Throw e, i2)
          | (Ok vs, i2) => (Ok (v :: vs), i2)
          end
      end
  end.

Definition not_found (previousNames : list string) (name : string) : exn :=
  JsError ("Dependency not found: " +:+
           JsString.join " -> " previousNames +:+ " -> " +:+ name).

Definition circular (currentNames : list string) : exn :=
  JsError ("Circular dependency found: " +:+
           JsString.join " -> " currentNames).

(** The body of [Injector.prototype._resolve]; [self] stands for the
    recursive [this._resolve]. *)
Definition _resolve_body
           (self : string -> list string -> injector
                   -> result value * injector)
           (name : string) (previousNames : list string) (i : injector)
  : result value * injector :=
  let optional := has_optional_marker name in
  let nodeName := node_name name in
  let node := graph_get (_graph i) nodeName in
  if negb (slot_truthy node) then
    if optional then (Ok VUndefined, i)
    else (Throw (not_found previousNames name), i)
  else
    match slot_value node with
    | Some v => (Ok v, i)
    | None =>
        let currentNames := previousNames ++ [name] in
        if JsString.includes name previousNames
        then (Throw (circular currentNames), i)
        else
          match slot_provider node with
          | None => (Throw TypeError, i)
          | Some (factory, dependencyNames) =>
              match map_resolve (fun d => self d currentNames)
                                dependencyNames i with
              | (Throw e, i') => (Throw e, i')
              | (Ok dependencies, i') =>
                  match _invokeFunction factory dependencies with
                  | (Throw e, _) => (Throw e, i')
                  | (Ok v, ran) =>
                      (Ok v,
                       {| _graph := graph_update (_graph i') nodeName
                                                 (node_set_value v);
                          invoked := if ran
                                     then invoked i' ++ [nodeName]
                                     else invoked i' |})
                  end
              end
          end
    end.

(** [_resolve] with the depth of the recursion bounded by [fuel]; running
    out of fuel is the host's stack overflow. *)
Fixpoint _resolve_fuel (fuel : nat)
  : string -> list string -> injector -> result value * injector :=
  match fuel with
  | O => fun _ _ i => (Throw RangeError, i)
  | S fuel => _resolve_body (_resolve_fuel fuel)
  end.

(** The names a chain can be extended with: every key of the graph, bare
    or with the optional marker. *)
Definition graph_keys (g : graph) : list string :=
  "__proto__" :: elements (dom (own g)).

Definition candidates (g : graph) : list string :=
  flat_map (fun k => [k; k +:+ "?"]) (graph_keys g).

Definition depth_bound (g : graph) (previousNames : list string) : nat :=
  length (List.filter (fun c => negb (JsString.includes c previousNames))
                      (candidates g)).

(** [_resolve]: the recursion never goes deeper than the number of
    candidate names still absent from the chain (see
    [_resolve_total]). *)
Definition _resolve (name : string) (previousNames : list string)
           (i : injector) : result value * injector :=
  _resolve_fuel (S (depth_bound (_graph i) previousNames))
                name previousNames i.

(** The underscore convention of [resolve]. *)
Definition strip_underscores (name : string) : string :=
  match JsString.first_char name, JsString.last_char name with
  | Some a, Some b =>
      if Ascii.eqb a "_" && Ascii.eqb b "_"
      then JsString.substring 1 (String.length name - 1) name
      else name
  | _, _ => name
  end.

(** The three ways of calling [resolve]. *)
Inductive request : Type :=
| ByFunction (fn : func) (locals : option (gmap string value))
             (context : option string)
| ByName (name : string) (context : option string)
| ByNames (names : list string) (context : option string).

Inductive resolved : Type :=
| Single (v : value)
| Array (vs : list value).

(** [context ? [context] : []]. *)
Definition initial_chain (context : option string) : list string :=
  match context with
  | Some c => if String.eqb c EmptyString then [] else [c]
  | None => []
  end.

(** The callback of [names.map] in [resolve]:
    [(locals && locals[name]) || this._resolve(name, previousNames)]. *)
Definition resolve_one (locals : option (gmap string value))
           (previousNames : list string) (name : string) (i : injector)
  : result value * injector :=
  let name := strip_underscores name in
  match locals with
  | Some m =>
      if truthy (plain_get m name) then (Ok (plain_get m name), i)
      else _resolve name previousNames i
  | None => _resolve name previousNames i
  end.

(** [Injector.prototype.resolve]. *)
Definition resolve (r : request) (i : injector)
  : result resolved * injector :=
  match r with
  | ByFunction fn locals context =>
      match _getArguments (VFunc fn) with
      | Throw e => (Throw e, i)
      | Ok names =>
          match map_resolve (resolve_one locals (initial_chain context))
                            names i with
          | (Throw e, i') => (Throw e, i')
          | (Ok dependencies, i') =>
              match fst (_invokeFunction (VFunc fn) dependencies) with
              | Throw e => (Throw e, i')
              | Ok v => (Ok (Single v), i')
              end
          end
      end
  | ByName name context =>
      match resolve_one None (initial_chain context) name i with
      | (Throw e, i') => (Throw e, i')
      | (Ok v, i') => (Ok (Single v), i')
      end
  | ByNames names context =>
      match map_resolve (resolve_one None (initial_chain context))
                        names i with
      | (Throw e, i') => (Throw e, i')
      | (Ok vs, i') => (Ok (Array vs), i')
      end
  end.

(** A sequence of [resolve] calls, each caught by the caller. *)
Fixpoint resolve_all (rs : list request) (i : injector) : injector :=
  match rs with
  | [] => i
  | r :: rest => resolve_all rest (snd (resolve r i))
  end.

End Engine.

(** ** Vocabulary of the statements *)

(** The node object stored under a key: an own property, or the prototype
    the graph was given through the ["__proto__"] key. *)
Definition located (g : graph) (k : string) : option node :=
  if String.eqb k "__proto__" then proto g else own g !! k.

(** The only change resolution makes to the graph: an unresolved provider
    node gets its value. *)
Definition evolves (i i' : injector) : Prop :=
  forall k,
    located (_graph i') k = located (_graph i) k \/
    exists f d v,
      located (_graph i) k = Some (Provider f d None) /\
      located (_graph i') k = Some (Provider f d (Some v)).

(** Nodes being resolved: each is an unresolved provider one of whose
    dependency names is on the chain and leads to a node of [T]. *)
Definition busy (g : graph) (chain B T : list string) : Prop :=
  forall l, l ∈ B ->
    exists f d, located g l = Some (Provider f d None) /\
      exists x, x ∈ d /\ x ∈ chain /\ node_name x ∈ T.

(** The ghost log is duplicate-free and names resolved nodes only. *)
Definition log_ok (i : injector) : Prop :=
  NoDup (invoked i) /\
  forall n, n ∈ invoked i ->
    exists m v, located (_graph i) n = Some m /\ node_value m = Some v.

Definition keeps (B : list string) (i i' : injector) : Prop :=
  forall l, l ∈ B -> located (_graph i') l = located (_graph i) l.

(** Text-level readings of "a parenthesized list" and "an arrow". *)
Fixpoint contains_char (c : ascii) (s : string) : bool :=
  match s with
  | EmptyString => false
  | String a s' => Ascii.eqb c a || contains_char c s'
  end.

(** Some ["("] is followed, anywhere later, by a [")"]. *)
Fixpoint has_parens (s : string) : bool :=
  match s with
  | EmptyString => false
  | String a s' =>
      (Ascii.eqb "(" a && contains_char ")" s') || has_parens s'
  end.

Definition starts_with_arrow (s : string) : bool :=
  match s with
  | String a (String b _) => Ascii.eqb "=" a && Ascii.eqb ">" b
  | _ => false
  end.

(** The text contains ["=>"]. *)
Fixpoint has_arrow (s : string) : bool :=
  match s with
  | EmptyString => false
  | String a s' => starts_with_arrow s || has_arrow s'
  end.

(** What a lazy star over [p] followed by a continuation accepts: the
    continuation succeeds after some run of [p]-characters. *)
Fixpoint lazy_ok (p : cclass) (ok : string -> bool) (s : string) : bool :=
  ok s ||
  match s with
  | String a s' => p a && lazy_ok p ok s'
  | EmptyString => false
  end.

(** What is left of [s] after the literal [l]. *)
Fixpoint strip_prefix (l s : string) : option string :=
  match l with
  | EmptyString => Some s
  | String a l' =>
      match s with
      | String b s' => if Ascii.eqb a b then strip_prefix l' s' else None
      | EmptyString => None
      end
  end.


(** The errors [_resolve] can throw when called with the chain [prev]:
    the names it has added to the chain are pairwise distinct and new. *)
Inductive chain_error (prev : list string) : exn -> Prop :=
| chain_circular (path : list string) (x : string) :
    NoDup path ->
    (forall y, y ∈ path -> y ∉ prev) ->
    x ∈ prev ++ path ->
    chain_error prev (circular (prev ++ path ++ [x]))
| chain_not_found (path : list string) (x : string) :
    NoDup path ->
    (forall y, y ∈ path -> y ∉ prev) ->
    chain_error prev (not_found (prev ++ path) x)
| chain_type_error :
    chain_error prev TypeError.

Section Cases.

Variable host_apply : func -> list value -> value.
Variable host_new : func -> list value -> value.

Abbreviation resolve_fuel := (_resolve_fuel host_apply host_new).
Abbreviation invoke := (_invokeFunction host_apply host_new).

(** One level of [_resolve_fuel], by cases. *)
Inductive step_case (fuel : nat) (name : string) (prev : list string)
          (i : injector) : result value -> injector -> Prop :=
| case_absent :
    slot_truthy (graph_get (_graph i) (node_name name)) = false ->
    step_case fuel name prev i
              (if has_optional_marker name then Ok VUndefined
               else Throw (not_found prev name)) i
| case_cached v :
    slot_truthy (graph_get (_graph i) (node_name name)) = true ->
    slot_value (graph_get (_graph i) (node_name name)) = Some v ->
    step_case fuel name prev i (Ok v) i
| case_cycle :
    slot_truthy (graph_get (_graph i) (node_name name)) = true ->
    slot_value (graph_get (_graph i) (node_name name)) = None ->
    name ∈ prev ->
    step_case fuel name prev i (Throw (circular (prev ++ [name]))) i
| case_foreign :
    slot_truthy (graph_get (_graph i) (node_name name)) = true ->
    slot_value (graph_get (_graph i) (node_name name)) = None ->
    name ∉ prev ->
    slot_provider (graph_get (_graph i) (node_name name)) = None ->
    step_case fuel name prev i (Throw TypeError) i
| case_dependency_throws f d e j :
    located (_graph i) (node_name name) = Some (Provider f d None) ->
    name ∉ prev ->
    map_resolve (fun x => resolve_fuel fuel x (prev ++ [name])) d i
      = (Throw e, j) ->
    step_case fuel name prev i (Throw e) j
| case_factory_throws f d vs e b j :
    located (_graph i) (node_name name) = Some (Provider f d None) ->
    name ∉ prev ->
    map_resolve (fun x => resolve_fuel fuel x (prev ++ [name])) d i
      = (Ok vs, j) ->
    invoke f vs = (Throw e, b) ->
    step_case fuel name prev i (Throw e) j
| case_resolved f d vs v ran j :
    located (_graph i) (node_name name) = Some (Provider f d None) ->
    name ∉ prev ->
    map_resolve (fun x => resolve_fuel fuel x (prev ++ [name])) d i
      = (Ok vs, j) ->
    invoke f vs = (Ok v, ran) ->
    step_case fuel name prev i (Ok v)
              {| _graph := graph_update (_graph j) (node_name name)
                                        (node_set_value v);
                 invoked := if ran then invoked j ++ [node_name name]
                            else invoked j |}.

End Cases.

(** ** A small host and sample functions, for the concrete instances *)

Module Demo.

Definition fn (id : nat) (text : string) : func :=
  {| fid := id; ftext := text; finject := None |}.

(** Function 1 adds two numbers whose sum is a number of the model,
    function 2 returns its argument, every other function returns
    [undefined]. *)
Definition host_apply (f : func) (args : list value) : value :=
  match fid f, args with
  | 1, [VNum a; VNum b] =>
      match to_number (number_value a + number_value b) with
      | Some n => VNum n
      | None => VUndefined
      end
  | 2, [x] => x
  | _, _ => VUndefined
  end.

Definition host_new (f : func) (args : list value) : value := VObj (fid f).

Definition sum : func := fn 1 "(a, b) => a + b".
Definition needs_B : func := fn 2 "function (B) { return B; }".
Definition needs_A : func := fn 2 "function (A) { return A; }".
Definition needs_a : func := fn 2 "function (a) { return a; }".
Definition needs_optional_A : func :=
  fn 2 "function (/* optional */ A) { return A; }".

Definition LF : string := String (ascii_of_nat 10) EmptyString.

(** A class whose constructor has a line comment holding a [")"]. *)
Definition commented_class : string :=
  "class A {" +:+ LF +:+
  "  constructor(a // the (first) argument" +:+ LF +:+
  "  , b) {}" +:+ LF +:+
  "}".

Definition register_or_keep (name : string) (f : func) (i : injector)
  : injector :=
  match register name (VFunc f) i with
  | Ok i' => i'
  | Throw _ => i
  end.

(** [a = 1], [b = 2], [sum = (a, b) => a + b]. *)
Definition numbers : injector :=
  register_or_keep "sum" sum
    (registerValue "b" (VNum 2) (registerValue "a" (VNum 1) new_Injector)).


(** [A = function (/* optional */ A) { ... }]. *)
Definition self_optional : injector :=
  register_or_keep "A" needs_optional_A new_Injector.

End Demo.

(** ** Further vocabulary *)

(** A set of unresolved providers each of which needs a node of the set:
    the nodes on a dependency cycle, and the nodes that need them. *)
Definition trapped (g : graph) (B : list string) : Prop :=
  forall l, l ∈ B ->
    exists f d, located g l = Some (Provider f d None) /\
      exists x, x ∈ d /\ node_name x ∈ B.

(** What a request may do to a trapped set: nothing. *)
Definition spares (B : list string) (i i' : injector) : Prop :=
  (forall l, l ∈ B -> located (_graph i') l = located (_graph i) l) /\
  (forall l, l ∈ B -> l ∈ invoked i' -> l ∈ invoked i).


(** Every character of a string satisfies [p]. *)
Fixpoint string_forall (p : ascii -> bool) (s : string) : bool :=
  match s with
  | EmptyString => true
  | String a s' => p a && string_forall p s'
  end.

(** A character that may occur in a parsed name. *)
Definition name_char : cclass := fun a => negb (ws a || only "," a).

Definition starts_with_char (c : ascii) (s : string) : bool :=
  match s with
  | String a _ => Ascii.eqb c a
  | EmptyString => false
  end.

(** The text before an arrow, a leading ["async "] left out. *)
Definition without_async (a : string) : string :=
  match strip_prefix "async " a with
  | Some r => r
  | None => a
  end.

(** ** The constructor and the instance registry

    Containers live in a heap and are known by their reference, the index
    in the heap.  [instances] is the module-level object of the source:
    its own keys and the references stored under them. *)

Record world := { heap : list injector; instances : gmap string nat }.

(** [Object.keys(instances).includes(instanceName)] and
    [instances[instanceName]]: only a string can equal a key. *)
Definition known_instance (w : world) (instanceName : value) : option nat :=
  match instanceName with
  | VStr s => instances w !! s
  | _ => None
  end.

(** The property key [instances[instanceName] = this] writes to. *)
Definition instance_key (instanceName : value) : string :=
  match toString instanceName with
  | Some s => s
  | None => EmptyString
  end.

(** [new Injector(instanceName)], or [Injector(instanceName)] without
    [new]: the reference of the container the expression evaluates to, and
    the world after it.  An assignment under ["__proto__"] creates no own
    key. *)
Definition Injector (instanceName : value) (w : world) : nat * world :=
  let this := length (heap w) in
  if truthy instanceName then
    match known_instance w instanceName with
    | Some existing => (existing, w)
    | None =>
        (this,
         {| heap := heap w ++ [new_Injector];
            instances :=
              if String.eqb (instance_key instanceName) "__proto__"
              then instances w
              else <[instance_key instanceName := this]> (instances w) |})
    end
  else (this, {| heap := heap w ++ [new_Injector];
                 instances := instances w |}).

(** ** Class text *)

Fixpoint drop_ws (s : string) : string :=
  match s with
  | String a s' => if ws a then drop_ws s' else s
  | EmptyString => EmptyString
  end.

(** The text is white space, then [class], then a white-space
    character. *)
Definition is_class_text (s : string) : bool :=
  match strip_prefix "class" (drop_ws s) with
  | Some (String a _) => ws a
  | _ => false
  end.

(** ** Optional-parameter comments *)

(** The first character of [s] is in the class [p]. *)
Definition head_in (p : cclass) (s : string) : bool :=
  match s with
  | String a _ => p a
  | EmptyString => false
  end.

(** [s] is [l] up to the case of its letters. *)
Fixpoint same_ci (l s : string) : bool :=
  match l, s with
  | EmptyString, EmptyString => true
  | String a l', String b s' => only_ci a b && same_ci l' s'
  | _, _ => false
  end.

(** A character of a parameter name that the conversion keeps in the
    name. *)
Definition param_char : cclass := fun a =>
  name_char a && negb (one_of [")"; "="; "/"]%char a).

(** The characters that end a converted parameter. *)
Definition delimiter : cclass := one_of [","; ")"; "="]%char.

(** A continuation that fails on every text without a slash. *)
Definition slashless (k : cont) : Prop :=
  forall pos t c, contains_char "/" t = false -> k pos t c = None.

(** ** Words *)

(** The word [l] occurs in [s]. *)
Fixpoint has_word (l s : string) : bool :=
  match strip_prefix l s with
  | Some _ => true
  | None =>
      match s with
      | String _ s' => has_word l s'
      | EmptyString => false
      end
  end.

(** ** Callbacks that throw or call the container

    The engine above runs factories that return a value and leave the
    container alone.  A factory, or the function given to [resolve], is
    user code: it can throw, and it can reach the container (the
    container is registered in itself as [$injector]) and register or
    resolve on it while the engine is in the middle of a resolution.
    [Callbacks] is the engine for such callbacks.  A callback takes the
    container as it finds it and gives its result, a value or an
    exception, and the container as it leaves it.

    Two things of the source become visible here.  The recursion is as deep
    as the host's stack allows: [stack] counts the frames left, and the
    call that finds none throws the RangeError.  And [_resolve] holds on
    to the node object it fetched: when the name has been registered anew
    in the meantime, the assignment [node.value = ...] writes to the old
    object, which the graph no longer holds.  [generation] counts, per
    name, the assignments [this._graph[name] = {...}]: the node under a
    name is the object fetched earlier exactly when the count has not
    moved. *)

Module Callbacks.

Record store := { this : injector; generation : gmap string nat }.

Definition generation_of (s : store) (k : string) : nat :=
  default 0 (generation s !! k).

(** The store after [this._graph[k] = {...}] has produced [i]. *)
Definition assigned (k : string) (s : store) (i : injector) : store :=
  {| this := i;
     generation := <[k := S (generation_of s k)]> (generation s) |}.

(** [registerValue(name, value)]. *)
Definition registerValue (name : string) (v : value) (s : store) : store :=
  assigned name s (registerValue name v (this s)).

(** [register(name, fn)]. *)
Definition register (name : string) (fn : value) (s : store)
  : result store :=
  match register name fn (this s) with
  | Throw e => Throw e
  | Ok i => Ok (assigned name s i)
  end.

(** [new Injector()]. *)
Definition new_Injector : store :=
  registerValue "$injector" VInjector
                {| this := {| _graph := empty_graph; invoked := [] |};
                   generation := ∅ |}.

Definition callback : Type :=
  func -> list value -> store -> result value * store.

(** A callback that returns what [h] computes and does not touch the
    container. *)
Definition returning (h : func -> list value -> value) : callback :=
  fun f args s => (Ok (h f args), s).

(** The ghost log after the host ran the factory of node [k]. *)
Definition logged (ran : bool) (k : string) (s : store) : store :=
  {| this := {| _graph := _graph (this s);
                invoked := if ran then invoked (this s) ++ [k]
                           else invoked (this s) |};
     generation := generation s |}.

(** [node.value = v] for the node object under [k]. *)
Definition set_value (k : string) (v : value) (s : store) : store :=
  {| this := {| _graph := graph_update (_graph (this s)) k
                                       (node_set_value v);
                invoked := invoked (this s) |};
     generation := generation s |}.

(** [names.map(f)], left to right, stopping at the first exception. *)
Fixpoint map_resolve (f : string -> store -> result value * store)
         (names : list string) (s : store) : result (list value) * store :=
  match names with
  | [] => (Ok [], s)
  | n :: rest =>
      match f n s with
      | (Throw e, s1) => (Throw e, s1)
      | (Ok v, s1) =>
          match map_resolve f rest s1 with
          | (Throw e, s2) => (Throw e, s2)
          | (Ok vs, s2) => (Ok (v :: vs), s2)
          end
      end
  end.

Section Engine.

Variable host_apply : callback.
Variable host_new : callback.

(** [Injector._invokeFunction(fn, args)].  The flag tells whether the
    host ran [fn]. *)
Definition _invokeFunction (fn : value) (args : list value) (s : store)
  : (result value * bool) * store :=
  match toString fn with
  | None => ((Throw TypeError, false), s)
  | Some text =>
      if test IS_CLASS_REGEX text then
        match fn with
        | VFunc f => let (r, s') := host_new f args s in ((r, true), s')
        | _ => ((Throw TypeError, false), s)
        end
      else if truthy fn then
        match fn with
        | VFunc f => let (r, s') := host_apply f args s in ((r, true), s')
        | _ => ((Throw TypeError, false), s)
        end
      else ((Ok VUndefined, false), s)
  end.

(** The body of [Injector.prototype._resolve]; [self] stands for the
    recursive [this._resolve]. *)
Definition _resolve_body
           (self : string -> list string -> store -> result value * store)
           (name : string) (previousNames : list string) (s : store)
  : result value * store :=
  let optional := has_optional_marker name in
  let nodeName := node_name name in
  let node := graph_get (_graph (this s)) nodeName in
  if negb (slot_truthy node) then
    if optional then (Ok VUndefined, s)
    else (Throw (not_found previousNames name), s)
  else
    match slot_value node with
    | Some v => (Ok v, s)
    | None =>
        let currentNames := previousNames ++ [name] in
        if JsString.includes name previousNames
        then (Throw (circular currentNames), s)
        else
          match slot_provider node with
          | None => (Throw TypeError, s)
          | Some (factory, dependencyNames) =>
              let fetched := generation_of s nodeName in
              match map_resolve (fun d => self d currentNames)
                                dependencyNames s with
              | (Throw e, s') => (Throw e, s')
              | (Ok dependencies, s') =>
                  match _invokeFunction factory dependencies s' with
                  | ((Throw e, ran), s'') => (Throw e, logged ran nodeName s'')
                  | ((Ok v, ran), s'') =>
                      (Ok v,
                       if Nat.eqb (generation_of s'' nodeName) fetched
                       then set_value nodeName v (logged ran nodeName s'')
                       else logged ran nodeName s'')
                  end
              end
          end
    end.

(** [_resolve] with [stack] frames left. *)
Fixpoint _resolve (stack : nat)
  : string -> list string -> store -> result value * store :=
  match stack with
  | O => fun _ _ s => (Throw RangeError, s)
  | S stack => _resolve_body (_resolve stack)
  end.

(** The callback of [names.map] in [resolve]. *)
Definition resolve_one (stack : nat) (locals : option (gmap string value))
           (previousNames : list string) (name : string) (s : store)
  : result value * store :=
  let name := strip_underscores name in
  match locals with
  | Some m =>
      if truthy (plain_get m name) then (Ok (plain_get m name), s)
      else _resolve stack name previousNames s
  | None => _resolve stack name previousNames s
  end.

(** [Injector.prototype.resolve]. *)
Definition resolve (stack : nat) (r : request) (s : store)
  : result resolved * store :=
  match r with
  | ByFunction fn locals context =>
      match _getArguments (VFunc fn) with
      | Throw e => (Throw e, s)
      | Ok names =>
          match map_resolve (resolve_one stack locals
                                         (initial_chain context))
                            names s with
          | (Throw e, s') => (Throw e, s')
          | (Ok dependencies, s') =>
              match _invokeFunction (VFunc fn) dependencies s' with
              | ((Throw e, _), s'') => (Throw e, s'')
              | ((Ok v, _), s'') => (Ok (Single v), s'')
              end
          end
      end
  | ByName name context =>
      match resolve_one stack None (initial_chain context) name s with
      | (Throw e, s') => (Throw e, s')
      | (Ok v, s') => (Ok (Single v), s')
      end
  | ByNames names context =>
      match map_resolve (resolve_one stack None (initial_chain context))
                        names s with
      | (Throw e, s') => (Throw e, s')
      | (Ok vs, s') => (Ok (Array vs), s')
      end
  end.

(** A sequence of [resolve] calls, each caught by the caller. *)
Fixpoint resolve_all (stack : nat) (rs : list request) (s : store)
  : store :=
  match rs with
  | [] => s
  | r :: rest => resolve_all stack rest (snd (resolve stack r s))
  end.

End Engine.

(** A callback that leaves the container as it finds it; it may
    throw. *)
Definition leaves_container (h : callback) : Prop :=
  forall f args s, snd (h f args s) = s.

(** The callback that throws, whatever the function: what [job]
    does. *)
Definition throwing : callback :=
  fun _ _ s => (Throw (JsError "boom"), s).

(** What resolution does to a container when callbacks leave it alone:
    no name is registered, the own keys stay, unresolved providers get
    values, and the log gains nodes that were unresolved. *)
Definition grows (s s' : store) : Prop :=
  generation s' = generation s /\
  dom (own (_graph (this s'))) = dom (own (_graph (this s))) /\
  evolves (this s) (this s') /\
  exists L,
    invoked (this s') = invoked (this s) ++ L /\
    forall l, l ∈ L ->
      exists f d, located (_graph (this s)) l = Some (Provider f d None).

(** *** Sample callbacks *)


Definition register_or_keep (name : string) (f : func) (s : store)
  : store :=
  match register name (VFunc f) s with
  | Ok s' => s'
  | Throw _ => s
  end.

Definition job : func :=
  Demo.fn 3 "function () { throw new Error('boom'); }".


(** [job = function () { throw new Error('boom'); }]. *)
Definition one_job : store := register_or_keep "job" job new_Injector.


(** Function 5 registers the value 7 under the name it is registered
    under, and returns 1. *)
Definition replaces_itself : func :=
  Demo.fn 5 "function () { $injector.registerValue('self', 7); return 1; }".

Definition replacing : callback :=
  fun f args s =>
    match fid f with
    | 5 => (Ok (VNum 1), registerValue "self" (VNum 7) s)
    | _ => returning Demo.host_apply f args s
    end.

(** [self = replaces_itself]. *)
Definition self_replacing : store :=
  register_or_keep "self" replaces_itself new_Injector.

(** [a = 1], [b = 2], [sum = (a, b) => a + b]. *)
Definition numbers : store :=
  {| this := Demo.numbers; generation := ∅ |}.

End Callbacks.
(** ** Numbers *)


(** ** Facts about the argument-list regex *)
Lemma rep_lazy_0_none p ok (k : cont) c :
  (forall pos s c', ok s = false -> k pos s c' = None) ->
  forall s pos, lazy_ok p ok s = false -> rep_lazy p 0 pos s c k = None.
Proof.
  intros Hk. induction s as [|a s IH]; intros pos H; simpl in *.
  - rewrite orb_false_r in H. rewrite (Hk _ _ _ H). reflexivity.
  - apply orb_false_iff in H as [H1 H2]. rewrite (Hk _ _ _ H1).
    destruct (p a); [|reflexivity]. simpl in H2. apply IH. exact H2.
Qed.

Lemma rep_lazy_0_some p ok (k : cont) c :
  (forall pos s, ok s = true -> k pos s c <> None) ->
  forall s pos, lazy_ok p ok s = true -> rep_lazy p 0 pos s c k <> None.
Proof.
  intros Hk. induction s as [|a s IH]; intros pos H; simpl in *.
  - rewrite orb_false_r in H. pose proof (Hk pos _ H).
    destruct (k pos EmptyString c); congruence.
  - destruct (k pos (String a s) c) eqn:K; [discriminate|].
    apply orb_true_iff in H as [H|H].
    + exfalso. eapply Hk; eauto.
    + apply andb_true_iff in H as [Pa H]. rewrite Pa. apply IH. exact H.
Qed.

Lemma lazy_any_contains c s :
  lazy_ok any (fun u => match u with
                        | String a _ => Ascii.eqb c a
                        | EmptyString => false
                        end) s = contains_char c s.
Proof.
  induction s as [|a s IH]; simpl; [reflexivity|]. rewrite IH.
  reflexivity.
Qed.

Lemma lazy_arrow_has_arrow p s :
  lazy_ok p starts_with_arrow s = true -> has_arrow s = true.
Proof.
  induction s as [|a s IH]; [discriminate|].
  cbn [lazy_ok has_arrow]. intros H.
  apply orb_true_iff in H as [H|H]; [rewrite H; reflexivity|].
  apply andb_true_iff in H as [_ H]. rewrite (IH H). apply orb_true_r.
Qed.

Lemma has_arrow_tail a s : has_arrow (String a s) = false -> has_arrow s = false.
Proof. cbn [has_arrow]. intros H. apply orb_false_iff in H. tauto. Qed.

Lemma has_parens_tail a s :
  has_parens (String a s) = false -> has_parens s = false.
Proof. cbn [has_parens]. intros H. apply orb_false_iff in H. tauto. Qed.

Lemma exec_Lit l : forall pos s c k,
  exec (Lit l) pos s c k =
  match strip_prefix l s with
  | Some rest => k (pos + String.length l) rest c
  | None => None
  end.
Proof.
  induction l as [|a l IH]; intros pos s c k; simpl.
  - rewrite Nat.add_0_r. reflexivity.
  - destruct s as [|b s]; [reflexivity|]. unfold only.
    destruct (Ascii.eqb a b); [|reflexivity]. rewrite IH.
    destruct (strip_prefix l s); [|reflexivity]. f_equal. lia.
Qed.

Lemma strip_prefix_arrow l s rest :
  strip_prefix l s = Some rest -> has_arrow s = false -> has_arrow rest = false.
Proof.
  revert s. induction l as [|a l IH]; intros s H A; simpl in H.
  - injection H as <-. exact A.
  - destruct s as [|b s]; [discriminate|].
    destruct (Ascii.eqb a b); [|discriminate].
    eapply IH; eauto. eapply has_arrow_tail; eauto.
Qed.

Lemma strip_prefix_arrow_none u :
  starts_with_arrow u = false -> strip_prefix "=>" u = None.
Proof.
  destruct u as [|a [|b u]]; cbn [strip_prefix starts_with_arrow];
    try reflexivity.
  - destruct (Ascii.eqb "=" a); reflexivity.
  - destruct (Ascii.eqb "=" a); [|reflexivity].
    rewrite andb_true_l. intros ->. reflexivity.
Qed.

(** The second alternative of [ARGUMENTS] after the optional prefix. *)
Lemma arrow_tail_none pos s c k :
  has_arrow s = false ->
  exec (Cat (Grp 2 (Rep false 0 (non (only ")")))) (Lit "=>")) pos s c k
  = None.
Proof.
  intros A. cbn [exec].
  apply (rep_lazy_0_none _ starts_with_arrow).
  - intros pos' u c' Hu. rewrite exec_Lit.
    rewrite (strip_prefix_arrow_none _ Hu). reflexivity.
  - destruct (lazy_ok (non (only ")")) starts_with_arrow s) eqn:E; auto.
    apply lazy_arrow_has_arrow in E. congruence.
Qed.

Lemma match_at_ARGUMENTS_none pos s :
  has_parens s = false -> has_arrow s = false ->
  match_at ARGUMENTS pos s = None.
Proof.
  intros P A. unfold match_at, ARGUMENTS. cbn [seq]. cbn [exec].
  replace (match s with
           | String a s' => if only "(" a then _ else None
           | EmptyString => None
           end) with (@None (nat * caps)).
  2:{ destruct s as [|a s']; [reflexivity|]. unfold only.
      destruct (Ascii.eqb "(" a) eqn:E; [|reflexivity].
      cbn [has_parens] in P. rewrite E in P. simpl in P.
      apply orb_false_iff in P as [P _].
      symmetry. apply (rep_lazy_0_none _ (fun u => match u with
                        | String a _ => Ascii.eqb ")" a
                        | EmptyString => false
                        end)).
      - intros pos' u c' Hu. destruct u as [|b u]; [reflexivity|].
        unfold only. rewrite Hu. reflexivity.
      - rewrite lazy_any_contains. exact P. }
  rewrite exec_Lit.
  destruct (strip_prefix "async " s) as [rest|] eqn:SP.
  - pose proof (strip_prefix_arrow _ _ _ SP A) as A'.
    pose proof (arrow_tail_none (pos + String.length "async ") rest []
                  (fun pos' _ c' => Some (pos', c')) A') as E.
    cbn [exec] in E. rewrite E.
    pose proof (arrow_tail_none pos s []
                  (fun pos' _ c' => Some (pos', c')) A) as E'.
    cbn [exec] in E'. exact E'.
  - pose proof (arrow_tail_none pos s []
                  (fun pos' _ c' => Some (pos', c')) A) as E'.
    cbn [exec] in E'. exact E'.
Qed.

Lemma search_ARGUMENTS_none : forall s pos,
  has_parens s = false -> has_arrow s = false ->
  search_from ARGUMENTS pos s = None.
Proof.
  induction s as [|a s IH]; intros pos P A; cbn [search_from];
    rewrite match_at_ARGUMENTS_none by assumption; [reflexivity|].
  apply IH; [eapply has_parens_tail|eapply has_arrow_tail]; eauto.
Qed.

Lemma match_at_ARGUMENTS_parens pos a s :
  Ascii.eqb "(" a = true -> contains_char ")" s = true ->
  match_at ARGUMENTS pos (String a s) <> None.
Proof.
  intros E C. unfold match_at, ARGUMENTS. cbn [seq]. cbn [exec].
  unfold only at 1. rewrite E.
  match goal with
  | |- match ?x with _ => _ end <> None =>
      assert (x <> None) as N; [|destruct x; [discriminate|congruence]]
  end.
  apply (rep_lazy_0_some _ (fun u => match u with
                        | String a _ => Ascii.eqb ")" a
                        | EmptyString => false
                        end)).
  - intros pos' u Hu. destruct u as [|b u]; [discriminate|].
    unfold only. rewrite Hu. discriminate.
  - rewrite lazy_any_contains. exact C.
Qed.

Lemma match_at_ARGUMENTS_arrow pos s :
  starts_with_arrow s = true -> match_at ARGUMENTS pos s <> None.
Proof.
  destruct s as [|a [|b s]]; try discriminate.
  cbn [starts_with_arrow].
  intros H. apply andb_true_iff in H as [Ha Hb].
  apply Ascii.eqb_eq in Ha, Hb. subst a b.
  unfold match_at. vm_compute. discriminate.
Qed.

Lemma search_from_found r pos s :
  match_at r pos s <> None -> search_from r pos s <> None.
Proof.
  intros H. destruct s; cbn [search_from];
    destruct (match_at r pos _) as [[e c]|]; congruence.
Qed.

Lemma search_from_later r pos a s :
  search_from r (S pos) s <> None -> search_from r pos (String a s) <> None.
Proof.
  intros H. cbn [search_from].
  destruct (match_at r pos (String a s)) as [[e c]|]; [discriminate|exact H].
Qed.

Lemma search_ARGUMENTS_some : forall s pos,
  has_parens s = true \/ has_arrow s = true ->
  search_from ARGUMENTS pos s <> None.
Proof.
  induction s as [|a s IH]; intros pos H.
  - simpl in H. destruct H; discriminate.
  - cbn [has_parens has_arrow] in H.
    assert ((Ascii.eqb "(" a && contains_char ")" s = true \/
             starts_with_arrow (String a s) = true) \/
            (has_parens s = true \/ has_arrow s = true)) as [[C|C]|C].
    { destruct H as [H|H]; apply orb_true_iff in H; tauto. }
    + apply andb_true_iff in C as [E C]. apply search_from_found.
      apply match_at_ARGUMENTS_parens; auto.
    + apply search_from_found. apply match_at_ARGUMENTS_arrow; auto.
    + apply search_from_later. apply IH. exact C.
Qed.

(** [ARGUMENTS] finds nothing exactly in a text that has neither a
    parenthesized list nor an arrow. *)
Lemma search_ARGUMENTS_spec s :
  search ARGUMENTS s = None <->
  has_parens s = false /\ has_arrow s = false.
Proof.
  unfold search. split.
  - intros H. destruct (has_parens s) eqn:P.
    + exfalso. eapply search_ARGUMENTS_some; eauto.
    + destruct (has_arrow s) eqn:A; [|auto].
      exfalso. eapply search_ARGUMENTS_some; eauto.
  - intros [P A]. apply search_ARGUMENTS_none; auto.
Qed.

(** ** Facts about the graph and the resolver *)


Lemma node_field_not_node n k m : node_field n k <> Some (SNode m).
Proof.
  destruct n as [f d c|v]; simpl;
    repeat (destruct (String.eqb k _)); try destruct c; simpl; congruence.
Qed.

Lemma graph_get_node g k n : graph_get g k = SNode n <-> located g k = Some n.
Proof.
  unfold graph_get, located. destruct (String.eqb k "__proto__").
  - destruct (proto g); split; intros H; inversion H; auto.
  - destruct (own g !! k) eqn:E.
    + split; intros H; inversion H; auto.
    + split; [|discriminate]. destruct (proto g) as [m|]; simpl.
      * destruct (node_field m k) eqn:F; [|discriminate].
        intros ->. exfalso. eapply node_field_not_node; eauto.
      * discriminate.
Qed.

Lemma slot_provider_node s f d :
  slot_provider s = Some (f, d) -> exists c, s = SNode (Provider f d c).
Proof.
  destruct s as [[f' d' c|v]| |]; simpl; try discriminate.
  intros H; inversion H; subst; eauto.
Qed.

Lemma located_update g k h k' :
  located (graph_update g k h) k' =
  if decide (k' = k) then h <$> located g k' else located g k'.
Proof.
  unfold located, graph_update.
  destruct (decide (k' = k)) as [->|Hne];
    destruct (String.eqb_spec k "__proto__") as [->|Hk];
    try destruct (String.eqb_spec k' "__proto__") as [->|Hk']; simpl;
    try rewrite String.eqb_refl; try congruence; auto.
  all: try (destruct (String.eqb_spec k "__proto__"); [congruence|]).
  all: try (destruct (String.eqb_spec k' "__proto__"); [congruence|]).
  all: simpl; auto using lookup_alter_eq, lookup_alter_ne.
  all: try (apply lookup_alter_ne; congruence).
  all: try apply lookup_alter_eq.
Qed.

Lemma located_set g k n k' :
  located (graph_set g k n) k' =
  if decide (k' = k) then Some n else located g k'.
Proof.
  unfold located, graph_set.
  destruct (decide (k' = k)) as [->|Hne];
    destruct (String.eqb_spec k "__proto__") as [->|Hk];
    try destruct (String.eqb_spec k' "__proto__") as [->|Hk']; simpl;
    try rewrite String.eqb_refl; try congruence; auto.
  all: try (destruct (String.eqb_spec k "__proto__"); [congruence|]).
  all: try (destruct (String.eqb_spec k' "__proto__"); [congruence|]).
  all: simpl; auto using lookup_insert_eq, lookup_insert_ne.
  all: try (apply lookup_insert_ne; congruence).
  all: try apply lookup_insert_eq.
Qed.

Lemma includes_spec x l : JsString.includes x l = true <-> x ∈ l.
Proof.
  unfold JsString.includes. rewrite existsb_exists, list_elem_of_In. split.
  - intros (y & Hy & E). apply String.eqb_eq in E. subst. auto.
  - intros H. exists x. split; auto. apply String.eqb_refl.
Qed.

Lemma get_last_split n : forall s c,
  String.length s = S n -> String.get n s = Some c ->
  s = String.substring 0 n s +:+ String c EmptyString.
Proof.
  induction n as [|n IH]; intros [|a s] c Hl Hg; try discriminate.
  - destruct s; [|discriminate]. simpl in Hg. injection Hg as <-.
    reflexivity.
  - simpl in Hl. injection Hl as Hl. simpl in Hg.
    change (String a s = String a (String.substring 0 n s +:+ String c EmptyString)).
    f_equal. apply IH; auto.
Qed.

Lemma last_char_split s c :
  JsString.last_char s = Some c ->
  s = String.substring 0 (String.length s - 1) s +:+ String c EmptyString.
Proof.
  unfold JsString.last_char. destruct (String.length s) as [|n] eqn:L;
    [discriminate|].
  intros H. simpl. rewrite Nat.sub_0_r. apply get_last_split; auto.
Qed.

Lemma node_name_cases name :
  name = node_name name \/ name = node_name name +:+ "?".
Proof.
  unfold node_name, has_optional_marker.
  destruct (JsString.last_char name) as [c|] eqn:L; [|left; reflexivity].
  destruct (Ascii.eqb_spec c "?") as [->|]; [|left; reflexivity].
  right. unfold JsString.substring.
  rewrite Nat.min_0_l, (Nat.min_l (String.length name - 1)) by lia.
  rewrite Nat.min_0_l, Nat.max_0_l, Nat.sub_0_r.
  apply last_char_split. exact L.
Qed.

Lemma filter_length_le {A} (P Q : A -> bool) l :
  (forall y, Q y = true -> P y = true) ->
  length (List.filter Q l) <= length (List.filter P l).
Proof.
  intros PQ. induction l as [|a l IH]; simpl; [lia|].
  destruct (Q a) eqn:Qa; [rewrite (PQ _ Qa); simpl; lia|].
  destruct (P a); simpl; lia.
Qed.

Lemma filter_length_lt {A} (P Q : A -> bool) l x :
  (forall y, Q y = true -> P y = true) ->
  In x l -> P x = true -> Q x = false ->
  length (List.filter Q l) < length (List.filter P l).
Proof.
  intros PQ. induction l as [|a l IH]; simpl; [tauto|].
  intros [->|Hin] Px Qx.
  - rewrite Px, Qx. simpl.
    pose proof (filter_length_le P Q l PQ). lia.
  - specialize (IH Hin Px Qx).
    destruct (Q a) eqn:Qa; [rewrite (PQ _ Qa); simpl; lia|].
    destruct (P a); simpl; lia.
Qed.

Lemma located_key g k n : located g k = Some n -> k ∈ graph_keys g.
Proof.
  unfold located, graph_keys.
  destruct (String.eqb_spec k "__proto__") as [->|Hk]; [left|].
  intros L. right. apply elem_of_elements, elem_of_dom. eauto.
Qed.

Lemma depth_bound_lt g name prev n :
  located g (node_name name) = Some n ->
  name ∉ prev ->
  depth_bound g (prev ++ [name]) < depth_bound g prev.
Proof.
  intros L Hn. unfold depth_bound.
  apply (filter_length_lt _ _ _ name).
  - intros y. rewrite !negb_true_iff. intros H.
    destruct (JsString.includes y prev) eqn:E; [|reflexivity].
    apply includes_spec in E.
    assert (JsString.includes y (prev ++ [name]) = true) as C.
    { apply includes_spec, elem_of_app. auto. }
    congruence.
  - unfold candidates. apply in_flat_map. exists (node_name name).
    split; [apply list_elem_of_In; eapply located_key; eauto|].
    destruct (node_name_cases name) as [E|E]; rewrite <- E; simpl; auto.
  - apply negb_true_iff. destruct (JsString.includes name prev) eqn:E; auto.
    apply includes_spec in E. contradiction.
  - apply negb_false_iff, includes_spec, elem_of_app. right. left.
Qed.

Section EngineFacts.

Variable host_apply : func -> list value -> value.
Variable host_new : func -> list value -> value.

Abbreviation resolve_fuel := (_resolve_fuel host_apply host_new).
Abbreviation invoke := (_invokeFunction host_apply host_new).

Lemma evolves_refl i : evolves i i.
Proof. intros k. left. reflexivity. Qed.

Lemma evolves_trans i j k : evolves i j -> evolves j k -> evolves i k.
Proof.
  intros H1 H2 x. destruct (H1 x) as [E1|(f & d & v & A & B)];
    destruct (H2 x) as [E2|(f' & d' & v' & A' & B')].
  - left. congruence.
  - right. exists f', d', v'. split; congruence.
  - right. exists f, d, v. split; congruence.
  - congruence.
Qed.

Lemma resolve_fuel_cases fuel name prev i r i' :
  resolve_fuel (S fuel) name prev i = (r, i') ->
  step_case host_apply host_new fuel name prev i r i'.
Proof.
  cbn [_resolve_fuel]. unfold _resolve_body.
  destruct (slot_truthy (graph_get (_graph i) (node_name name))) eqn:T;
    cbn [negb].
  2:{ intros H. pose proof (case_absent host_apply host_new fuel name prev i T) as C.
      destruct (has_optional_marker name);
        injection H as <- <-; exact C. }
  destruct (slot_value (graph_get (_graph i) (node_name name))) eqn:V.
  { intros H; injection H as <- <-. eapply case_cached; eauto. }
  destruct (JsString.includes name prev) eqn:I.
  { intros H; injection H as <- <-. apply case_cycle; auto.
    apply includes_spec; auto. }
  assert (name ∉ prev) as NI.
  { intros C. apply includes_spec in C. congruence. }
  destruct (slot_provider (graph_get (_graph i) (node_name name)))
    as [[f d]|] eqn:P.
  2:{ intros H; injection H as <- <-. apply case_foreign; auto. }
  assert (located (_graph i) (node_name name) = Some (Provider f d None))
    as L.
  { destruct (slot_provider_node _ _ _ P) as [c Hc].
    rewrite Hc in V. simpl in V. subst c. apply graph_get_node. exact Hc. }
  destruct (map_resolve _ d i) as [[vs|e] j] eqn:M.
  2:{ intros H; injection H as <- <-.
      eapply case_dependency_throws; eauto. }
  destruct (invoke f vs) as [[v|e] ran] eqn:K.
  - intros H; injection H as <- <-. eapply case_resolved; eauto.
  - intros H; injection H as <- <-. eapply case_factory_throws; eauto.
Qed.


Lemma map_resolve_inv (f : string -> injector -> result value * injector)
      (P : injector -> Prop) (Q : string -> Prop) :
  (forall d j r j', Q d -> P j -> f d j = (r, j') -> P j') ->
  forall ds j r j',
    Forall Q ds -> P j -> map_resolve f ds j = (r, j') ->
    P j' /\
    (forall vs, r = Ok vs ->
       forall d, d ∈ ds -> exists jd v jd', P jd /\ f d jd = (Ok v, jd')).
Proof.
  intros Hstep. induction ds as [|d ds IH]; intros j r j' HQ HP H.
  - simpl in H. injection H as <- <-. split; auto.
    intros vs _ d Hd. inversion Hd.
  - simpl in H. inversion HQ as [|? ? Qd Qds]; subst.
    destruct (f d j) as [[v|e] j1] eqn:F.
    + pose proof (Hstep _ _ _ _ Qd HP F) as P1.
      destruct (map_resolve f ds j1) as [[vs|e] j2] eqn:M.
      * injection H as <- <-.
        destruct (IH _ _ _ Qds P1 M) as [P2 Hall]. split; auto.
        intros vs' _ d' Hd'. apply elem_of_cons in Hd' as [->|Hd'].
        -- eauto.
        -- eapply Hall; eauto.
      * injection H as <- <-.
        destruct (IH _ _ _ Qds P1 M) as [P2 _]. split; auto.
        intros vs' Hvs. discriminate.
    + injection H as <- <-. split; [eapply Hstep; eauto|].
      intros vs' Hvs. discriminate.
Qed.

(** A request for an unresolved node under a name already on the chain
    cannot succeed. *)
Lemma resolve_fuel_stuck fuel x chain j f d :
  located (_graph j) (node_name x) = Some (Provider f d None) ->
  x ∈ chain ->
  exists e, resolve_fuel fuel x chain j = (Throw e, j).
Proof.
  intros L Hx. destruct fuel as [|fuel]; [eexists; reflexivity|].
  cbn [_resolve_fuel]. unfold _resolve_body.
  apply graph_get_node in L. rewrite L. simpl.
  apply includes_spec in Hx. rewrite Hx. eexists; reflexivity.
Qed.

Lemma resolve_fuel_inv fuel : forall name prev i r i' B,
  resolve_fuel fuel name prev i = (r, i') ->
  busy (_graph i) (prev ++ [name]) B (node_name name :: B) ->
  (log_ok i -> log_ok i') /\ evolves i i' /\ keeps B i i'.
Proof.
  induction fuel as [|fuel IH]; intros name prev i r i' B H Hbusy.
  { simpl in H. injection H as <- <-.
    split; [auto|split; [apply evolves_refl|intros l _; reflexivity]]. }
  apply resolve_fuel_cases in H.
  assert (forall f d,
          located (_graph i) (node_name name) = Some (Provider f d None) ->
          forall ds r' j',
            Forall (fun x => x ∈ d) ds ->
            map_resolve (fun x => resolve_fuel fuel x (prev ++ [name])) ds i
              = (r', j') ->
            ((log_ok i -> log_ok j') /\ evolves i j' /\
             keeps (node_name name :: B) i j') /\
            (forall vs, r' = Ok vs -> forall x, x ∈ ds ->
               exists jd v jd',
                 ((log_ok i -> log_ok jd) /\ evolves i jd /\
                  keeps (node_name name :: B) i jd) /\
                 resolve_fuel fuel x (prev ++ [name]) jd = (Ok v, jd')))
    as Hmap.
  { intros f d L ds r' j' HQ M.
    eapply (map_resolve_inv _
              (fun j => (log_ok i -> log_ok j) /\ evolves i j /\
                        keeps (node_name name :: B) i j)
              (fun x => x ∈ d)); eauto.
    2:{ split; [auto|split; [apply evolves_refl|intros l _; reflexivity]]. }
    intros x j r0 j0 Hx (Lj & Ej & Kj) R.
    destruct (IH x (prev ++ [name]) j r0 j0 (node_name name :: B) R)
      as (L0 & E0 & K0).
    - intros l Hl. apply elem_of_cons in Hl as [->|Hl].
      + exists f, d. split; [rewrite Kj; [exact L|left]|].
        exists x. split; [auto|].
        split; [apply elem_of_app; right; left|left].
      + destruct (Hbusy l Hl) as (f' & d' & L' & y & Hy & Hc & Hn).
        exists f', d'. split; [rewrite Kj; [exact L'|right; auto]|].
        exists y. split; [auto|]. split; [apply elem_of_app; left; auto|].
        right. exact Hn.
    - split; [auto|]. split; [eapply evolves_trans; eauto|].
      intros l Hl. rewrite K0, Kj; auto. }
  assert (forall ds, Forall (fun x : string => x ∈ ds) ds) as Hself.
  { intros ds. apply Forall_forall. auto. }
  inversion H; subst; clear H;
    try (split; [auto|split; [apply evolves_refl|intros l _; reflexivity]]).
  - (* a dependency throws *)
    destruct (Hmap _ _ H0 _ _ _ (Hself d) H2) as [(Lj & Ej & Kj) _].
    split; [auto|split; [auto|]]. intros l Hl. apply Kj. right. auto.
  - (* the factory throws *)
    destruct (Hmap _ _ H0 _ _ _ (Hself d) H2) as [(Lj & Ej & Kj) _].
    split; [auto|split; [auto|]]. intros l Hl. apply Kj. right. auto.
  - (* resolved *)
    destruct (Hmap _ _ H0 _ _ _ (Hself d) H2) as [(Lj & Ej & Kj) Hall].
    assert (located (_graph j) (node_name name) = Some (Provider f d None))
      as Lj0.
    { rewrite Kj; [auto|left]. }
    assert (node_name name ∉ B) as HnB.
    { intros HB.
      destruct (Hbusy (node_name name) HB)
        as (f' & d' & L' & y & Hy & Hc & Hn).
      rewrite H0 in L'. injection L' as <- <-.
      destruct (Hall vs eq_refl y Hy) as (jd & v' & jd' & (_ & _ & Kd) & R).
      assert (exists f1 d1,
                 located (_graph jd) (node_name y)
                 = Some (Provider f1 d1 None))
        as (f1 & d1 & L1).
      { rewrite Kd; [|exact Hn].
        apply elem_of_cons in Hn as [->|Hn]; [eauto|].
        destruct (Hbusy _ Hn) as (f1 & d1 & L1 & _). eauto. }
      destruct (resolve_fuel_stuck fuel y (prev ++ [name]) jd f1 d1 L1 Hc)
        as [e He].
      rewrite He in R. discriminate. }
    split; [|split].
    + intros Hlog. destruct (Lj Hlog) as [ND Hval].
      assert (node_name name ∉ invoked j) as Hni.
      { intros Hin. destruct (Hval _ Hin) as (m & v' & Lm & Vm).
        rewrite Lj0 in Lm. injection Lm as <-. discriminate. }
      split.
      * simpl. destruct ran; [|auto].
        apply NoDup_app. split; [auto|]. split; [|apply NoDup_singleton].
        intros x Hx Hx'. apply list_elem_of_singleton in Hx'. subst. auto.
      * simpl. intros n Hn.
        assert (n = node_name name \/ n ∈ invoked j) as [->|Hn'].
        { destruct ran; [|auto]. apply elem_of_app in Hn as [Hn|Hn]; auto.
          apply list_elem_of_singleton in Hn. auto. }
        -- rewrite located_update. rewrite decide_True by reflexivity.
           rewrite Lj0. simpl. eauto.
        -- rewrite located_update.
           rewrite decide_False by (intros ->; auto). auto.
    + intros k. simpl. rewrite located_update. case_decide.
      * subst k. right. exists f, d, v. rewrite Lj0. simpl. auto.
      * apply Ej.
    + intros l Hl. simpl. rewrite located_update.
      rewrite decide_False by (intros ->; auto). apply Kj. right. auto.
Qed.

Lemma busy_nil g chain T : busy g chain [] T.
Proof. intros l Hl. inversion Hl. Qed.

Lemma resolve_fuel_log_ok fuel name prev i r i' :
  resolve_fuel fuel name prev i = (r, i') -> log_ok i -> log_ok i'.
Proof.
  intros H. eapply resolve_fuel_inv in H; [|apply busy_nil]. tauto.
Qed.

Lemma resolve_fuel_evolves fuel name prev i r i' :
  resolve_fuel fuel name prev i = (r, i') -> evolves i i'.
Proof.
  intros H. eapply resolve_fuel_inv in H; [|apply busy_nil]. tauto.
Qed.

Lemma map_resolve_evolves fuel chain ds i r j :
  map_resolve (fun x => resolve_fuel fuel x chain) ds i = (r, j) ->
  evolves i j.
Proof.
  intros M.
  eapply (map_resolve_inv _ (fun j => evolves i j) (fun _ => True)) in M.
  - tauto.
  - intros d j0 r0 j1 _ E R. eapply evolves_trans; eauto.
    eapply resolve_fuel_evolves; eauto.
  - apply Forall_forall. auto.
  - apply evolves_refl.
Qed.

(** *** Resolving again *)

Lemma resolve_fuel_again fuel name prev i v i' :
  resolve_fuel (S fuel) name prev i = (Ok v, i') ->
  forall fuel' prev', resolve_fuel (S fuel') name prev' i' = (Ok v, i').
Proof.
  intros H fuel' prev'. apply resolve_fuel_cases in H.
  inversion H; subst; clear H; cbn [_resolve_fuel]; unfold _resolve_body.
  - match goal with X : slot_truthy _ = false |- _ => rewrite X end.
    simpl.
    match goal with X : _ = Ok v |- _ => revert X end.
    destruct (has_optional_marker name); intros X;
      [injection X as <-; reflexivity|discriminate].
  - match goal with
    | X : slot_truthy _ = true, Y : slot_value _ = Some _ |- _ =>
        rewrite X, Y
    end. reflexivity.
  - match goal with
    | X : map_resolve _ _ _ = _ |- _ =>
        apply map_resolve_evolves in X; rename X into Ev
    end.
    assert (exists n, located (_graph j) (node_name name) = Some n)
      as [n Ln].
    { destruct (Ev (node_name name)) as [E|(f0 & d0 & v0 & _ & E)];
        rewrite E; eauto. }
    assert (graph_get
              (graph_update (_graph j) (node_name name) (node_set_value v))
              (node_name name) = SNode (node_set_value v n)) as G.
    { apply graph_get_node. rewrite located_update.
      rewrite decide_True by reflexivity. rewrite Ln. reflexivity. }
    cbn [_graph]. rewrite G. destruct n; reflexivity.
Qed.

(** *** Fuel *)

Lemma invoke_throws f vs e b : invoke f vs = (Throw e, b) -> e = TypeError.
Proof.
  unfold _invokeFunction. destruct (toString f);
    [|intros H; injection H as <- _; reflexivity].
  destruct (test IS_CLASS_REGEX s).
  - destruct f; intros H; try discriminate;
      injection H as <- _; reflexivity.
  - destruct (truthy f); [|discriminate].
    destruct f; intros H; try discriminate;
      injection H as <- _; reflexivity.
Qed.

Lemma graph_update_dom g k h : dom (own (graph_update g k h)) = dom (own g).
Proof.
  unfold graph_update. destruct (String.eqb k "__proto__"); simpl;
    [reflexivity|apply dom_alter_L].
Qed.

Lemma depth_bound_dom g g' p :
  dom (own g') = dom (own g) -> depth_bound g' p = depth_bound g p.
Proof.
  intros E. unfold depth_bound, candidates, graph_keys. rewrite E.
  reflexivity.
Qed.

Lemma map_resolve_thrown (f : string -> injector -> result value * injector)
      (P : injector -> Prop) :
  (forall d j r j', P j -> f d j = (r, j') -> P j') ->
  forall ds j e j',
    P j -> map_resolve f ds j = (Throw e, j') ->
    exists d jd, d ∈ ds /\ P jd /\ f d jd = (Throw e, j').
Proof.
  intros Hstep. induction ds as [|d ds IH]; intros j e j' HP H.
  - discriminate.
  - simpl in H. destruct (f d j) as [[v|e0] j1] eqn:F.
    + destruct (map_resolve f ds j1) as [[vs|e1] j2] eqn:M;
        [discriminate|].
      injection H as <- <-.
      destruct (IH _ _ _ (Hstep _ _ _ _ HP F) M) as (d' & jd & A & B & C).
      exists d', jd. split; [right; auto|auto].
    + injection H as <- <-. exists d, j. split; [left|auto].
Qed.

Lemma resolve_fuel_dom fuel : forall name prev i r i',
  resolve_fuel fuel name prev i = (r, i') ->
  dom (own (_graph i')) = dom (own (_graph i)).
Proof.
  induction fuel as [|fuel IH]; intros name prev i r i' H.
  { simpl in H. injection H as <- <-. reflexivity. }
  apply resolve_fuel_cases in H.
  assert (forall ds rd j,
             map_resolve (fun x => resolve_fuel fuel x (prev ++ [name])) ds i
             = (rd, j) ->
             dom (own (_graph j)) = dom (own (_graph i))) as Hmap.
  { intros ds rd j M.
    eapply (map_resolve_inv _
              (fun j => dom (own (_graph j)) = dom (own (_graph i)))
              (fun _ => True)) in M; [tauto| | |reflexivity].
    - intros d j0 r0 j1 _ E R. rewrite <- E. eapply IH; eauto.
    - apply Forall_forall. auto. }
  inversion H; subst; clear H; eauto.
  simpl. rewrite graph_update_dom. eauto.
Qed.

Lemma resolve_fuel_enough fuel : forall name prev i r i',
  depth_bound (_graph i) prev < fuel ->
  resolve_fuel fuel name prev i = (r, i') ->
  r <> Throw RangeError.
Proof.
  induction fuel as [|fuel IH]; intros name prev i r i' Hlt H; [lia|].
  apply resolve_fuel_cases in H.
  inversion H; subst; clear H; try discriminate.
  - destruct (has_optional_marker name); discriminate.
  - match goal with
    | X : map_resolve _ _ _ = _ |- _ =>
        apply (map_resolve_thrown _
                 (fun j => dom (own (_graph j)) = dom (own (_graph i))))
          in X; [destruct X as (x & jd & _ & E & R)| |reflexivity]
    end.
    + eapply IH; [|exact R].
      rewrite (depth_bound_dom _ _ _ E).
      match goal with
      | L : located _ _ = Some _, N : name ∉ prev |- _ =>
          pose proof (depth_bound_lt _ _ _ _ L N)
      end. lia.
    + intros x j0 r0 j1 E R. rewrite <- E. eapply resolve_fuel_dom; eauto.
  - match goal with
    | X : invoke _ _ = (Throw _, _) |- _ => apply invoke_throws in X
    end. subst. discriminate.
Qed.

Lemma map_resolve_mono
      (f f' : string -> injector -> result value * injector) :
  (forall x j r j',
      f x j = (r, j') -> r <> Throw RangeError -> f' x j = (r, j')) ->
  forall ds i rd j,
    map_resolve f ds i = (rd, j) -> rd <> Throw RangeError ->
    map_resolve f' ds i = (rd, j).
Proof.
  intros Hf. induction ds as [|d ds IH]; intros i rd j H Hr; [exact H|].
  simpl in *. destruct (f d i) as [[v|e] i1] eqn:F.
  - rewrite (Hf _ _ _ _ F) by discriminate.
    destruct (map_resolve f ds i1) as [[vs|e] i2] eqn:M.
    + rewrite (IH _ _ _ M) by discriminate. exact H.
    + injection H as <- <-. rewrite (IH _ _ _ M) by exact Hr. reflexivity.
  - injection H as <- <-. rewrite (Hf _ _ _ _ F) by congruence.
    reflexivity.
Qed.

Lemma resolve_fuel_mono fuel : forall name prev i r i',
  resolve_fuel fuel name prev i = (r, i') ->
  r <> Throw RangeError ->
  resolve_fuel (S fuel) name prev i = (r, i').
Proof.
  induction fuel as [|fuel IH]; intros name prev i r i' H Hr.
  { simpl in H. injection H as <- <-. congruence. }
  change (resolve_fuel (S (S fuel)))
    with (_resolve_body host_apply host_new (resolve_fuel (S fuel))).
  change (resolve_fuel (S fuel))
    with (_resolve_body host_apply host_new (resolve_fuel fuel)) in H.
  unfold _resolve_body in *.
  destruct (negb (slot_truthy (graph_get (_graph i) (node_name name))));
    [exact H|].
  destruct (slot_value (graph_get (_graph i) (node_name name)));
    [exact H|].
  destruct (JsString.includes name prev); [exact H|].
  destruct (slot_provider (graph_get (_graph i) (node_name name)))
    as [[f d]|]; [|exact H].
  destruct (map_resolve (fun x => resolve_fuel fuel x (prev ++ [name])) d i)
    as [rd j] eqn:M.
  erewrite (map_resolve_mono _ _ _ _ _ _ _ M).
  - exact H.
  - destruct rd; [discriminate|]. injection H as <- <-. congruence.
  Unshelve. intros x j0 r0 j1 R N. apply IH; auto.
Qed.

Lemma resolve_fuel_more fuel fuel' name prev i r i' :
  resolve_fuel fuel name prev i = (r, i') ->
  r <> Throw RangeError ->
  fuel <= fuel' ->
  resolve_fuel fuel' name prev i = (r, i').
Proof.
  intros H Hr Hle. induction Hle; [exact H|].
  apply resolve_fuel_mono; auto.
Qed.

(** *** The unbounded resolver *)

Abbreviation resolve_ := (_resolve host_apply host_new).

Lemma _resolve_total name prev i :
  fst (resolve_ name prev i) <> Throw RangeError.
Proof.
  unfold _resolve.
  destruct (resolve_fuel _ name prev i) as [r i'] eqn:R. simpl.
  eapply resolve_fuel_enough; [|exact R]. lia.
Qed.

Lemma _resolve_fuel_eq fuel name prev i :
  depth_bound (_graph i) prev < fuel ->
  resolve_fuel fuel name prev i = resolve_ name prev i.
Proof.
  intros Hlt. unfold _resolve.
  destruct (resolve_fuel (S (depth_bound (_graph i) prev)) name prev i)
    as [r i'] eqn:R.
  eapply resolve_fuel_more; [exact R| |lia].
  eapply resolve_fuel_enough; [|exact R]. lia.
Qed.

Lemma map_resolve_ext
      (f f' : string -> injector -> result value * injector)
      (P : injector -> Prop) :
  (forall d j r j', P j -> f d j = (r, j') -> P j') ->
  (forall d j, P j -> f d j = f' d j) ->
  forall ds i, P i -> map_resolve f ds i = map_resolve f' ds i.
Proof.
  intros Hstep Hext. induction ds as [|d ds IH]; intros i HP; [reflexivity|].
  simpl. rewrite <- (Hext d i HP).
  destruct (f d i) as [[v|e] i1] eqn:F; [|reflexivity].
  rewrite (IH i1); [reflexivity|]. eapply Hstep; eauto.
Qed.

(** [_resolve] is a fixed point of the body of the source function. *)
Lemma _resolve_unfold name prev i :
  resolve_ name prev i = _resolve_body host_apply host_new resolve_ name prev i.
Proof.
  unfold _resolve at 1. cbn [_resolve_fuel]. unfold _resolve_body.
  destruct (negb (slot_truthy (graph_get (_graph i) (node_name name))));
    [reflexivity|].
  destruct (slot_value (graph_get (_graph i) (node_name name))) eqn:V;
    [reflexivity|].
  destruct (JsString.includes name prev) eqn:I; [reflexivity|].
  destruct (slot_provider (graph_get (_graph i) (node_name name)))
    as [[f d]|] eqn:SP; [|reflexivity].
  assert (located (_graph i) (node_name name) = Some (Provider f d None))
    as L.
  { destruct (slot_provider_node _ _ _ SP) as [c Hc].
    rewrite Hc in V. simpl in V. subst c. apply graph_get_node. exact Hc. }
  assert (name ∉ prev) as NI.
  { intros C. apply includes_spec in C. congruence. }
  rewrite (map_resolve_ext _ (fun x => resolve_ x (prev ++ [name]))
             (fun j => dom (own (_graph j)) = dom (own (_graph i))));
    [reflexivity| | |reflexivity].
  - intros x j r j' E R. rewrite <- E. eapply resolve_fuel_dom; eauto.
  - intros x j E. apply _resolve_fuel_eq.
    rewrite (depth_bound_dom _ _ _ E).
    eapply depth_bound_lt; eauto.
Qed.

(** *** The ghost log across [resolve] calls *)

Lemma _resolve_log_ok name prev i :
  log_ok i -> log_ok (snd (resolve_ name prev i)).
Proof.
  unfold _resolve.
  destruct (resolve_fuel _ name prev i) as [r i'] eqn:R. simpl.
  eapply resolve_fuel_log_ok; eauto.
Qed.

Lemma resolve_one_log_ok locals prev name i :
  log_ok i ->
  log_ok (snd (resolve_one host_apply host_new locals prev name i)).
Proof.
  intros H. unfold resolve_one.
  destruct locals as [m|]; [|apply _resolve_log_ok; auto].
  destruct (truthy (plain_get m (strip_underscores name)));
    [exact H|apply _resolve_log_ok; auto].
Qed.

Lemma map_resolve_log_ok locals prev names i :
  log_ok i ->
  log_ok (snd (map_resolve (resolve_one host_apply host_new locals prev)
                           names i)).
Proof.
  intros H.
  destruct (map_resolve _ names i) as [r j] eqn:M. simpl.
  eapply (map_resolve_inv _ log_ok (fun _ => True)) in M; [tauto| | |auto].
  - intros d j0 r0 j1 _ L R.
    pose proof (resolve_one_log_ok locals prev d j0 L) as L'.
    rewrite R in L'. exact L'.
  - apply Forall_forall. auto.
Qed.

Lemma resolve_log_ok r i :
  log_ok i -> log_ok (snd (resolve host_apply host_new r i)).
Proof.
  intros H. destruct r as [fn locals ctx|name ctx|names ctx];
    unfold resolve.
  - destruct (_getArguments (VFunc fn)) as [names|e]; [|exact H].
    pose proof (map_resolve_log_ok locals (initial_chain ctx) names i H)
      as L.
    destruct (map_resolve _ names i) as [[vs|e] j]; simpl in *; [|exact L].
    destruct (fst (invoke (VFunc fn) vs)); exact L.
  - pose proof (resolve_one_log_ok None (initial_chain ctx) name i H) as L.
    destruct (resolve_one _ _ None _ name i) as [[v|e] j]; exact L.
  - pose proof (map_resolve_log_ok None (initial_chain ctx) names i H) as L.
    destruct (map_resolve _ names i) as [[vs|e] j]; exact L.
Qed.

Lemma resolve_all_log_ok rs : forall i,
  log_ok i -> log_ok (resolve_all host_apply host_new rs i).
Proof.
  induction rs as [|r rs IH]; intros i H; simpl; [exact H|].
  apply IH, resolve_log_ok, H.
Qed.

End EngineFacts.

(** *** One level of the unbounded resolver *)

Lemma _resolve_provider host_apply host_new name prev i f d :
  located (_graph i) (node_name name) = Some (Provider f d None) ->
  _resolve host_apply host_new name prev i =
  if JsString.includes name prev
  then (Throw (circular (prev ++ [name])), i)
  else
    match map_resolve
            (fun x => _resolve host_apply host_new x (prev ++ [name])) d i with
    | (Throw e, i') => (Throw e, i')
    | (Ok vs, i') =>
        match _invokeFunction host_apply host_new f vs with
        | (Throw e, _) => (Throw e, i')
        | (Ok v, ran) =>
            (Ok v,
             {| _graph := graph_update (_graph i') (node_name name)
                                       (node_set_value v);
                invoked := if ran then invoked i' ++ [node_name name]
                           else invoked i' |})
        end
    end.
Proof.
  intros L. rewrite _resolve_unfold. unfold _resolve_body.
  apply graph_get_node in L. rewrite L. reflexivity.
Qed.

Lemma _resolve_absent host_apply host_new name prev i :
  slot_truthy (graph_get (_graph i) (node_name name)) = false ->
  _resolve host_apply host_new name prev i =
  if has_optional_marker name then (Ok VUndefined, i)
  else (Throw (not_found prev name), i).
Proof.
  intros L. rewrite _resolve_unfold. unfold _resolve_body.
  rewrite L. reflexivity.
Qed.

Lemma _resolve_cached host_apply host_new name prev i n v :
  located (_graph i) (node_name name) = Some n ->
  node_value n = Some v ->
  _resolve host_apply host_new name prev i = (Ok v, i).
Proof.
  intros L V. rewrite _resolve_unfold. unfold _resolve_body.
  apply graph_get_node in L. rewrite L. simpl. rewrite V. reflexivity.
Qed.

Lemma register_ok name fn i args :
  _getArguments fn = Ok args ->
  register name fn i =
  Ok {| _graph := graph_set (_graph i) name (Provider fn args None);
        invoked := invoked i |}.
Proof. intros H. unfold register. rewrite H. reflexivity. Qed.

Lemma graph_set_twice g k n m :
  graph_set (graph_set g k n) k m = graph_set g k m.
Proof.
  unfold graph_set. destruct (String.eqb k "__proto__"); simpl;
    [reflexivity|]. rewrite insert_insert_eq. reflexivity.
Qed.

(** Away from the names [Object.prototype] answers for, a graph whose
    prototype was never replaced holds exactly its own nodes. *)
Lemma graph_get_plain g k :
  proto g = None ->
  String.eqb k "__proto__" = false ->
  existsb (String.eqb k) objectPrototypeNames = false ->
  graph_get g k = match own g !! k with
                  | Some n => SNode n
                  | None => SValue VUndefined
                  end.
Proof.
  intros P K O. unfold graph_get. rewrite K, P.
  destruct (own g !! k); [reflexivity|]. simpl.
  unfold object_prototype_member. rewrite O. reflexivity.
Qed.

Lemma isRegistered_plain i k :
  proto (_graph i) = None ->
  String.eqb k "__proto__" = false ->
  existsb (String.eqb k) objectPrototypeNames = false ->
  isRegistered i k = true <-> k ∈ registered_names i.
Proof.
  intros P K O. unfold isRegistered, registered_names.
  rewrite (graph_get_plain _ _ P K O), elem_of_dom.
  destruct (own (_graph i) !! k); simpl; split; intros H;
    try discriminate; eauto.
  destruct H; discriminate.
Qed.


(** *** The chains carried by errors *)

Lemma chain_error_lift prev name e :
  name ∉ prev -> chain_error (prev ++ [name]) e -> chain_error prev e.
Proof.
  intros Hn H. inversion H as [path x ND Hp Hx|path x ND Hp|]; subst.
  - replace ((prev ++ [name]) ++ path ++ [x])
      with (prev ++ (name :: path) ++ [x])
      by (rewrite <- !app_assoc; reflexivity).
    apply chain_circular.
    + apply NoDup_cons. split; [|exact ND].
      intros C. apply (Hp _ C). apply elem_of_app. right. left.
    + intros y Hy. apply elem_of_cons in Hy as [->|Hy]; [exact Hn|].
      intros C. apply (Hp _ Hy). apply elem_of_app. left. exact C.
    + rewrite <- app_assoc in Hx. exact Hx.
  - replace ((prev ++ [name]) ++ path) with (prev ++ name :: path)
      by (rewrite <- app_assoc; reflexivity).
    apply chain_not_found.
    + apply NoDup_cons. split; [|exact ND].
      intros C. apply (Hp _ C). apply elem_of_app. right. left.
    + intros y Hy. apply elem_of_cons in Hy as [->|Hy]; [exact Hn|].
      intros C. apply (Hp _ Hy). apply elem_of_app. left. exact C.
  - apply chain_type_error.
Qed.

Lemma resolve_fuel_chain_error host_apply host_new fuel :
  forall name prev i e i',
    _resolve_fuel host_apply host_new fuel name prev i = (Throw e, i') ->
    e = RangeError \/ chain_error prev e.
Proof.
  induction fuel as [|fuel IH]; intros name prev i e i' H.
  { simpl in H. injection H as <- _. left. reflexivity. }
  apply resolve_fuel_cases in H.
  inversion H; subst; clear H.
  - right. destruct (has_optional_marker name); [discriminate|].
    match goal with X : Throw _ = Throw _ |- _ => injection X as <- end.
    rewrite <- (app_nil_r prev) at 2.
    apply chain_not_found; [apply NoDup_nil_2|].
    intros y Hy. inversion Hy.
  - right. change (prev ++ [name]) with (prev ++ [] ++ [name]).
    apply chain_circular; [apply NoDup_nil_2| |].
    + intros y Hy. inversion Hy.
    + rewrite app_nil_r. assumption.
  - right. apply chain_type_error.
  - match goal with
    | X : map_resolve _ _ _ = _ |- _ =>
        apply (map_resolve_thrown _ (fun _ => True)) in X;
          [destruct X as (x & jd & _ & _ & R)|auto|auto]
    end.
    destruct (IH _ _ _ _ _ R) as [->|C]; [left; reflexivity|].
    right. eapply chain_error_lift; eauto.
  - match goal with
    | X : _invokeFunction _ _ _ _ = (Throw _, _) |- _ =>
        apply invoke_throws in X
    end.
    subst. right. apply chain_type_error.
Qed.

Lemma _resolve_chain_error host_apply host_new name prev i e i' :
  _resolve host_apply host_new name prev i = (Throw e, i') ->
  chain_error prev e.
Proof.
  intros H. pose proof (_resolve_total host_apply host_new name prev i) as T.
  rewrite H in T. simpl in T.
  unfold _resolve in H. apply resolve_fuel_chain_error in H as [->|C];
    [congruence|exact C].
Qed.

(** ** Worked examples *)

Example parse_function_declaration :
  _getArgumentsFromString "function foo(/* optional */ a, b /* why */) {}"
  = Ok ["a?"; "b"].
Proof. vm_compute. reflexivity. Qed.

Example parse_arrow_forms :
  _getArgumentsFromString "(a, b) => a + b" = Ok ["a"; "b"] /\
  _getArgumentsFromString "a => a" = Ok ["a"] /\
  _getArgumentsFromString "async (a) => a" = Ok ["a"].
Proof. repeat split; vm_compute; reflexivity. Qed.

Example parse_class_constructor :
  _getArgumentsFromString "class A { constructor(x, /* OPTIONAL */ y) {} }"
  = Ok ["x"; "y?"].
Proof. vm_compute. reflexivity. Qed.

Example resolve_sum :
  fst (resolve Demo.host_apply Demo.host_new (ByName "sum" None) Demo.numbers)
  = Ok (Single (VNum 3)).
Proof. vm_compute. reflexivity. Qed.

Example resolve_batch_keeps_order :
  fst (resolve Demo.host_apply Demo.host_new (ByNames ["a"; "b"] None)
               Demo.numbers)
  = Ok (Array [VNum 1; VNum 2]).
Proof. vm_compute. reflexivity. Qed.

Example resolve_underscored :
  resolve Demo.host_apply Demo.host_new (ByName "_a_" None) Demo.numbers
  = resolve Demo.host_apply Demo.host_new (ByName "a" None) Demo.numbers.
Proof. vm_compute. reflexivity. Qed.

Example resolve_missing :
  fst (resolve Demo.host_apply Demo.host_new (ByName "missing" None)
               Demo.numbers)
  = Throw (JsError "Dependency not found:  -> missing") /\
  fst (resolve Demo.host_apply Demo.host_new (ByName "missing?" None)
               Demo.numbers)
  = Ok (Single VUndefined).
Proof. split; vm_compute; reflexivity. Qed.

(** A factory whose result is [undefined] runs once over three requests. *)
Example undefined_result_is_memoized :
  invoked
    (resolve_all Demo.host_apply Demo.host_new
       [ByName "u" None; ByName "u" None; ByNames ["u"; "u?"] None]
       (Demo.register_or_keep "u" (Demo.fn 7 "function () {}") new_Injector))
  = ["u"].
Proof. vm_compute. reflexivity. Qed.

(** A factory that registers a value under its own name: the request
    returns what the factory returns, the assignment [node.value = 1] goes
    to the node object the graph no longer holds, and the next request
    finds the registered value. *)
Example replaced_node_is_not_written :
  fst (Callbacks.resolve Callbacks.replacing
                         (Callbacks.returning Demo.host_new) 8
                         (ByName "self" None) Callbacks.self_replacing)
  = Ok (Single (VNum 1)) /\
  located (_graph (Callbacks.this
                     (snd (Callbacks.resolve
                             Callbacks.replacing
                             (Callbacks.returning Demo.host_new) 8
                             (ByName "self" None)
                             Callbacks.self_replacing))))
          "self"
  = Some (Value (VNum 7)) /\
  fst (Callbacks.resolve
         Callbacks.replacing (Callbacks.returning Demo.host_new) 8
         (ByName "self" None)
         (snd (Callbacks.resolve
                 Callbacks.replacing (Callbacks.returning Demo.host_new) 8
                 (ByName "self" None) Callbacks.self_replacing)))
  = Ok (Single (VNum 7)).
Proof. repeat split; vm_compute; reflexivity. Qed.

(** A factory that throws is run by every request. *)
Example throwing_factory_is_retried :
  invoked (Callbacks.this
             (Callbacks.resolve_all
                Callbacks.throwing Callbacks.throwing 8
                [ByName "job" None; ByName "job?" None; ByName "_job_" None]
                Callbacks.one_job))
  = ["job"; "job"; "job"].
Proof. vm_compute. reflexivity. Qed.

(** ** The engine with callbacks *)

Section CallbackFacts.

Import Callbacks.

Lemma grows_refl s : grows s s.
Proof.
  split; [reflexivity|]. split; [reflexivity|].
  split; [intros k; left; reflexivity|].
  exists []. split; [symmetry; apply app_nil_r|].
  intros l Hl. inversion Hl.
Qed.

Lemma evolves_unresolved i j l f d :
  evolves i j ->
  located (_graph j) l = Some (Provider f d None) ->
  located (_graph i) l = Some (Provider f d None).
Proof.
  intros E L. destruct (E l) as [Q|(f' & d' & v & _ & Q)]; congruence.
Qed.

Lemma grows_trans s1 s2 s3 : grows s1 s2 -> grows s2 s3 -> grows s1 s3.
Proof.
  intros (G1 & D1 & E1 & L1 & A1 & U1) (G2 & D2 & E2 & L2 & A2 & U2).
  split; [congruence|]. split; [congruence|].
  split; [eapply evolves_trans; eauto|].
  exists (L1 ++ L2). split; [rewrite A2, A1, app_assoc; reflexivity|].
  intros l Hl. apply elem_of_app in Hl as [Hl|Hl]; [auto|].
  destruct (U2 l Hl) as (f & d & Q). exists f, d.
  eapply evolves_unresolved; eauto.
Qed.


Variable host_apply : callback.
Variable host_new : callback.
Hypothesis apply_leaves : leaves_container host_apply.
Hypothesis new_leaves : leaves_container host_new.

Lemma cb_invoke_leaves fn args s :
  snd (_invokeFunction host_apply host_new fn args s) = s.
Proof.
  unfold _invokeFunction. destruct (toString fn); [|reflexivity].
  destruct (test IS_CLASS_REGEX _).
  - destruct fn; try reflexivity.
    pose proof (new_leaves f args s) as H.
    destruct (host_new f args s). exact H.
  - destruct (truthy fn); [|reflexivity].
    destruct fn; try reflexivity.
    pose proof (apply_leaves f args s) as H.
    destruct (host_apply f args s). exact H.
Qed.

Lemma cb_map_resolve_grows (f : string -> store -> result value * store) :
  (forall d s r s', f d s = (r, s') -> grows s s') ->
  forall ds s r s', map_resolve f ds s = (r, s') -> grows s s'.
Proof.
  intros Hf. induction ds as [|d ds IH]; intros s r s' H.
  - injection H as <- <-. apply grows_refl.
  - cbn [map_resolve] in H. destruct (f d s) as [[v|e] s1] eqn:F.
    + destruct (map_resolve f ds s1) as [[vs|e] s2] eqn:M;
        injection H as <- <-;
        (eapply grows_trans; [eapply Hf; eauto|eapply IH; eauto]).
    + injection H as <- <-. eapply Hf; eauto.
Qed.

(** What the last step of [_resolve] does to a store that has grown. *)
Lemma grows_step s s1 k f d (ran : bool) :
  located (_graph (this s)) k = Some (Provider f d None) ->
  grows s s1 ->
  grows s (logged ran k s1) /\
  forall v,
    grows s (set_value k v (logged ran k s1)) /\
    located (_graph (this (set_value k v (logged ran k s1)))) k
    = Some (Provider f d (Some v)).
Proof.
  intros Lk (G1 & D1 & E1 & L1 & A1 & U1).
  assert (exists L,
             (if ran then invoked (this s1) ++ [k] else invoked (this s1))
             = invoked (this s) ++ L /\
             forall l, l ∈ L ->
               exists f d,
                 located (_graph (this s)) l = Some (Provider f d None))
    as Log.
  { destruct ran.
    - exists (L1 ++ [k]). split; [rewrite A1, app_assoc; reflexivity|].
      intros l Hl. apply elem_of_app in Hl as [Hl|Hl]; [auto|].
      apply list_elem_of_singleton in Hl as ->. eauto.
    - exists L1. split; assumption. }
  split.
  - split; [exact G1|]. split; [exact D1|]. split; [exact E1|exact Log].
  - intros v.
    assert (exists c, located (_graph (this s1)) k = Some (Provider f d c))
      as [c Lk1].
    { destruct (E1 k) as [Q|(f' & d' & v' & Q1 & Q2)].
      - exists None. congruence.
      - exists (Some v'). congruence. }
    split.
    + split; [exact G1|]. split.
      { cbn [set_value logged this _graph]. rewrite graph_update_dom.
        exact D1. }
      split; [|exact Log].
      intros k'. cbn [set_value logged this _graph].
      rewrite located_update. destruct (decide (k' = k)) as [->|Hne].
      * right. exists f, d, v. split; [exact Lk|].
        rewrite Lk1. reflexivity.
      * apply E1.
    + cbn [set_value logged this _graph]. rewrite located_update.
      rewrite decide_True by reflexivity. rewrite Lk1. reflexivity.
Qed.

Lemma cb__resolve_grows stack : forall name prev s r s',
  _resolve host_apply host_new stack name prev s = (r, s') -> grows s s'.
Proof.
  induction stack as [|stack IH]; intros name prev s r s' H.
  { injection H as <- <-. apply grows_refl. }
  cbn [_resolve] in H. unfold _resolve_body in H.
  destruct (negb (slot_truthy _)).
  { destruct (has_optional_marker name); injection H as <- <-;
      apply grows_refl. }
  destruct (slot_value _) eqn:V.
  { injection H as <- <-. apply grows_refl. }
  destruct (JsString.includes name prev).
  { injection H as <- <-. apply grows_refl. }
  destruct (slot_provider _) as [[f d]|] eqn:P.
  2:{ injection H as <- <-. apply grows_refl. }
  assert (located (_graph (this s)) (node_name name)
          = Some (Provider f d None)) as Lk.
  { apply slot_provider_node in P as [c P]. rewrite P in V.
    cbn [slot_value node_value] in V. subst c.
    apply graph_get_node. exact P. }
  destruct (map_resolve _ d s) as [[vs|e] s1] eqn:M.
  2:{ injection H as <- <-.
      eapply (cb_map_resolve_grows _ (fun d0 s0 r0 s0' => IH d0 _ s0 r0 s0'));
        eauto. }
  assert (grows s s1) as G1.
  { eapply (cb_map_resolve_grows _ (fun d0 s0 r0 s0' => IH d0 _ s0 r0 s0'));
      eauto. }
  pose proof (cb_invoke_leaves f vs s1) as F.
  destruct (_invokeFunction host_apply host_new f vs s1) as [[[v|e] ran] s2].
  - cbn [snd] in F. subst s2.
    assert (generation_of s1 (node_name name)
            = generation_of s (node_name name)) as Gen.
    { unfold generation_of. destruct G1 as [-> _]. reflexivity. }
    rewrite Gen, Nat.eqb_refl in H. injection H as <- <-.
    apply (grows_step s s1 _ f d ran Lk G1).
  - cbn [snd] in F. subst s2. injection H as <- <-.
    apply (grows_step s s1 _ f d ran Lk G1).
Qed.




Lemma cb_resolve_one_grows stack locals prev name s r s' :
  resolve_one host_apply host_new stack locals prev name s = (r, s') ->
  grows s s'.
Proof.
  unfold resolve_one. destruct locals as [m|].
  - destruct (truthy _).
    + intros H. injection H as <- <-. apply grows_refl.
    + apply cb__resolve_grows.
  - apply cb__resolve_grows.
Qed.

Lemma cb_resolve_grows stack r s :
  grows s (snd (resolve host_apply host_new stack r s)).
Proof.
  destruct r as [fn locals ctx|name ctx|names ctx]; cbn [resolve].
  - destruct (_getArguments (VFunc fn)) as [names|e];
      [|apply grows_refl].
    destruct (map_resolve _ names s) as [[vs|e] s1] eqn:M.
    + pose proof (cb_invoke_leaves (VFunc fn) vs s1) as F.
      destruct (_invokeFunction host_apply host_new (VFunc fn) vs s1)
        as [[[v|e] ran] s2]; cbn [snd] in *; subst s2;
        (eapply cb_map_resolve_grows; [|exact M]);
        intros d0 s0 r0 s0'; apply cb_resolve_one_grows.
    + cbn [snd]. eapply cb_map_resolve_grows; [|exact M].
      intros d0 s0 r0 s0'. apply cb_resolve_one_grows.
  - destruct (resolve_one _ _ _ _ _ _ s) as [[v|e] s1] eqn:R;
      cbn [snd]; eapply cb_resolve_one_grows; eauto.
  - destruct (map_resolve _ names s) as [[vs|e] s1] eqn:M; cbn [snd];
      (eapply cb_map_resolve_grows; [|exact M]);
      intros d0 s0 r0 s0'; apply cb_resolve_one_grows.
Qed.




End CallbackFacts.

(** *** Callbacks that return and leave the container alone *)

Section Agreement.

Variable ha : func -> list value -> value.
Variable hn : func -> list value -> value.

Lemma cb_invoke_returning fn args s :
  Callbacks._invokeFunction (Callbacks.returning ha)
                            (Callbacks.returning hn) fn args s
  = (_invokeFunction ha hn fn args, s).
Proof.
  unfold Callbacks._invokeFunction, _invokeFunction, Callbacks.returning.
  destruct (toString fn); [|reflexivity].
  destruct (test IS_CLASS_REGEX _); [destruct fn; reflexivity|].
  destruct (truthy fn); [destruct fn; reflexivity|reflexivity].
Qed.

Lemma invoke_throws_idle fn args e ran :
  _invokeFunction ha hn fn args = (Throw e, ran) -> ran = false.
Proof.
  unfold _invokeFunction. destruct (toString fn); [|congruence].
  destruct (test IS_CLASS_REGEX _); [destruct fn; congruence|].
  destruct (truthy fn); [destruct fn; congruence|congruence].
Qed.

Lemma cb_map_resolve_agrees gen
      (F : string -> Callbacks.store -> result value * Callbacks.store)
      (f : string -> injector -> result value * injector) :
  (forall d i,
      F d {| Callbacks.this := i; Callbacks.generation := gen |}
      = (fst (f d i),
         {| Callbacks.this := snd (f d i);
            Callbacks.generation := gen |})) ->
  forall ds i,
    Callbacks.map_resolve
      F ds {| Callbacks.this := i; Callbacks.generation := gen |}
    = (fst (map_resolve f ds i),
       {| Callbacks.this := snd (map_resolve f ds i);
          Callbacks.generation := gen |}).
Proof.
  intros H. induction ds as [|d ds IH]; intros i; [reflexivity|].
  cbn [Callbacks.map_resolve map_resolve]. rewrite H.
  destruct (f d i) as [[v|e] i1]; cbn [fst snd]; [|reflexivity].
  rewrite IH. destruct (map_resolve f ds i1) as [[vs|e] i2]; reflexivity.
Qed.

Lemma cb__resolve_agrees stack : forall name prev i gen,
  Callbacks._resolve
    (Callbacks.returning ha) (Callbacks.returning hn) stack name prev
    {| Callbacks.this := i; Callbacks.generation := gen |}
  = (fst (_resolve_fuel ha hn stack name prev i),
     {| Callbacks.this := snd (_resolve_fuel ha hn stack name prev i);
        Callbacks.generation := gen |}).
Proof.
  induction stack as [|stack IH]; intros name prev i gen; [reflexivity|].
  cbn [Callbacks._resolve _resolve_fuel].
  unfold Callbacks._resolve_body, _resolve_body. cbn [Callbacks.this].
  destruct (negb (slot_truthy _)).
  { destruct (has_optional_marker name); reflexivity. }
  destruct (slot_value _); [reflexivity|].
  destruct (JsString.includes name prev); [reflexivity|].
  destruct (slot_provider _) as [[f d]|]; [|reflexivity].
  rewrite (cb_map_resolve_agrees
             gen _ (fun x => _resolve_fuel ha hn stack x (prev ++ [name])))
    by (intros; apply IH).
  destruct (map_resolve _ d i) as [[vs|e] i1]; cbn [fst snd];
    [|reflexivity].
  rewrite cb_invoke_returning.
  destruct (_invokeFunction ha hn f vs) as [[v|e] ran] eqn:I.
  - unfold Callbacks.generation_of. cbn [Callbacks.generation].
    rewrite Nat.eqb_refl. reflexivity.
  - cbn [fst snd]. rewrite (invoke_throws_idle _ _ _ _ I).
    unfold Callbacks.logged. cbn [Callbacks.this Callbacks.generation].
    destruct i1; reflexivity.
Qed.

(** With enough stack the engine with callbacks is the engine above. *)
Lemma cb__resolve_returning stack name prev s :
  depth_bound (_graph (Callbacks.this s)) prev < stack ->
  Callbacks._resolve (Callbacks.returning ha) (Callbacks.returning hn)
                     stack name prev s
  = (fst (_resolve ha hn name prev (Callbacks.this s)),
     {| Callbacks.this := snd (_resolve ha hn name prev (Callbacks.this s));
        Callbacks.generation := Callbacks.generation s |}).
Proof.
  intros H. destruct s as [i gen]. cbn [Callbacks.this] in *.
  rewrite cb__resolve_agrees, _resolve_fuel_eq by exact H.
  reflexivity.
Qed.

End Agreement.

(** ** Properties of the specification *)

Lemma _resolve_again host_apply host_new name prev i v i' :
  _resolve host_apply host_new name prev i = (Ok v, i') ->
  forall prev', _resolve host_apply host_new name prev' i' = (Ok v, i').
Proof.
  unfold _resolve. intros H prev'.
  eapply resolve_fuel_again. exact H.
Qed.




(** C2.  With [A] registered needing [B] and [B] needing [A] (neither
    resolved yet), [resolve("A")] throws the circular-dependency error
    whose chain is [A -> B -> A], and leaves the container as it was. *)
Theorem C2_cycle_reported_with_full_chain :
  forall (host_apply host_new : func -> list value -> value)
         (fA fB : value) (i iA iB : injector),
    _getArguments fA = Ok ["B"] ->
    _getArguments fB = Ok ["A"] ->
    register "A" fA i = Ok iA ->
    register "B" fB iA = Ok iB ->
    resolve host_apply host_new (ByName "A" None) iB
    = (Throw (circular ["A"; "B"; "A"]), iB) /\
    circular ["A"; "B"; "A"]
    = JsError "Circular dependency found: A -> B -> A".
Proof.
  intros host_apply host_new fA fB i iA iB HA HB RA RB.
  split; [|reflexivity].
  rewrite (register_ok _ _ _ _ HA) in RA. injection RA as <-.
  rewrite (register_ok _ _ _ _ HB) in RB. injection RB as <-.
  set (iB := {| _graph := graph_set _ "B" _; invoked := _ |}).
  assert (located (_graph iB) "A" = Some (Provider fA ["B"] None)) as LA.
  { unfold iB. cbn [_graph]. rewrite !located_set. reflexivity. }
  assert (located (_graph iB) "B" = Some (Provider fB ["A"] None)) as LB.
  { unfold iB. cbn [_graph]. rewrite !located_set. reflexivity. }
  unfold resolve, resolve_one.
  change (strip_underscores "A") with "A".
  change (initial_chain None) with (@nil string).
  rewrite (_resolve_provider _ _ "A" [] iB _ _ LA).
  change (JsString.includes "A" []) with false. cbn [map_resolve app].
  rewrite (_resolve_provider _ _ "B" ["A"] iB _ _ LB).
  change (JsString.includes "B" ["A"]) with false. cbn [map_resolve app].
  rewrite (_resolve_provider _ _ "A" ["A"; "B"] iB _ _ LA).
  reflexivity.
Qed.

Lemma C2_witness :
  resolve Demo.host_apply Demo.host_new (ByName "A" None)
          (Demo.register_or_keep "B" Demo.needs_A
             (Demo.register_or_keep "A" Demo.needs_B new_Injector))
  = (Throw (circular ["A"; "B"; "A"]),
     Demo.register_or_keep "B" Demo.needs_A
       (Demo.register_or_keep "A" Demo.needs_B new_Injector)).
Proof.
  apply (C2_cycle_reported_with_full_chain
           Demo.host_apply Demo.host_new
           (VFunc Demo.needs_B) (VFunc Demo.needs_A) new_Injector
           (Demo.register_or_keep "A" Demo.needs_B new_Injector)
           (Demo.register_or_keep "B" Demo.needs_A
              (Demo.register_or_keep "A" Demo.needs_B new_Injector)));
    vm_compute; reflexivity.
Defined.

(** C3, at the failing input.  No node is stored under [toString] in a
    new container, yet the lookup [this._graph["toString"]] finds the
    function inherited from [Object.prototype]: both the optional request
    [toString?] and the required request [toString] end in the host's
    TypeError ([node.dependencyNames] is [undefined]), not in an absent
    result and not in the dependency-not-found error. *)
Theorem C3_inherited_name_raises_type_error :
  forall (host_apply host_new : func -> list value -> value),
    located (_graph new_Injector) "toString" = None /\
    resolve host_apply host_new (ByName "toString?" None) new_Injector
    = (Throw TypeError, new_Injector) /\
    resolve host_apply host_new (ByName "toString" None) new_Injector
    = (Throw TypeError, new_Injector).
Proof. intros. repeat split; vm_compute; reflexivity. Qed.

(** The two outcomes for a name whose lookup in the graph is falsy: an
    absent result when it is optional, else the error carrying the
    chain. *)
Lemma missing_name_outcome host_apply host_new name prev i :
  slot_truthy (graph_get (_graph i) (node_name name)) = false ->
  (has_optional_marker name = true ->
   _resolve host_apply host_new name prev i = (Ok VUndefined, i)) /\
  (has_optional_marker name = false ->
   _resolve host_apply host_new name prev i
   = (Throw (JsError ("Dependency not found: " +:+
                      JsString.join " -> " prev +:+ " -> " +:+ name)), i)).
Proof.
  intros H. rewrite (_resolve_absent _ _ _ _ _ H).
  split; intros ->; reflexivity.
Qed.




(** C5.  A falsy local is ignored: for a function whose only parameter is
    [a], [resolve(fn, {a: 5})] calls [fn] with 5 and does not touch the
    container, while [resolve(fn, {a: 0})] resolves [a] through the graph
    and calls [fn] with what the graph gives.  In general the callback of
    [resolve] falls through to [_resolve] whenever the local value is
    falsy. *)
Theorem C5_falsy_local_falls_through_to_graph :
  forall (host_apply host_new : func -> list value -> value)
         (fn : func) (ctx : option string) (i : injector),
    _getArguments (VFunc fn) = Ok ["a"] ->
    resolve host_apply host_new
            (ByFunction fn (Some {[ "a" := VNum 5 ]}) ctx) i
    = (match fst (_invokeFunction host_apply host_new (VFunc fn) [VNum 5])
       with
       | Ok v => Ok (Single v)
       | Throw e => Throw e
       end, i) /\
    resolve host_apply host_new
            (ByFunction fn (Some {[ "a" := VNum 0 ]}) ctx) i
    = (match _resolve host_apply host_new "a" (initial_chain ctx) i with
       | (Throw e, i') => (Throw e, i')
       | (Ok v, i') =>
           (match fst (_invokeFunction host_apply host_new (VFunc fn) [v])
            with
            | Ok r => Ok (Single r)
            | Throw e => Throw e
            end, i')
       end) /\
    (forall (m : gmap string value) (prev : list string) (name : string),
        truthy (plain_get m (strip_underscores name)) = false ->
        resolve_one host_apply host_new (Some m) prev name i
        = _resolve host_apply host_new (strip_underscores name) prev i).
Proof.
  intros host_apply host_new fn ctx i HA. split; [|split].
  - unfold resolve. rewrite HA. cbn [map_resolve]. unfold resolve_one.
    change (strip_underscores "a") with "a".
    change (plain_get {[ "a" := VNum 5 ]} "a") with (VNum 5).
    change (truthy (VNum 5)) with true. cbv iota.
    destruct (fst (_invokeFunction _ _ (VFunc fn) [VNum 5])); reflexivity.
  - unfold resolve. rewrite HA. cbn [map_resolve]. unfold resolve_one.
    change (strip_underscores "a") with "a".
    change (plain_get {[ "a" := VNum 0 ]} "a") with (VNum 0).
    change (truthy (VNum 0)) with false. cbv iota.
    destruct (_resolve host_apply host_new "a" (initial_chain ctx) i)
      as [[v|e] j]; [|reflexivity].
    destruct (fst (_invokeFunction _ _ (VFunc fn) [v])); reflexivity.
  - intros m prev name H. unfold resolve_one. rewrite H. reflexivity.
Qed.

Lemma C5_witness :
  fst (resolve Demo.host_apply Demo.host_new
               (ByFunction Demo.needs_a (Some {[ "a" := VNum 5 ]}) None)
               Demo.numbers)
  = Ok (Single (VNum 5)) /\
  fst (resolve Demo.host_apply Demo.host_new
               (ByFunction Demo.needs_a (Some {[ "a" := VNum 0 ]}) None)
               Demo.numbers)
  = Ok (Single (VNum 1)).
Proof.
  assert (_getArguments (VFunc Demo.needs_a) = Ok ["a"]) as HA
      by (vm_compute; reflexivity).
  destruct (C5_falsy_local_falls_through_to_graph
              Demo.host_apply Demo.host_new Demo.needs_a None Demo.numbers HA)
    as (E5 & E0 & _).
  rewrite E5, E0. split; vm_compute; reflexivity.
Defined.

(** C6, counterexample.  [A] depends on ["A?"].  When ["A?"] is requested
    with the chain [["A"]], its stripped name [A] is on the chain and its
    node is unresolved, yet no error is raised at that point: node [A] is
    entered a second time and the error comes one level deeper, with a
    chain in which node [A] occurs as [A] and as [A?]. *)
Lemma C6_counterexample :
  node_name "A?" = "A" /\
  JsString.includes "A" ["A"] = true /\
  fst (_resolve Demo.host_apply Demo.host_new "A?" ["A"] Demo.self_optional)
  = Throw (circular ["A"; "A?"; "A?"]) /\
  fst (resolve Demo.host_apply Demo.host_new (ByName "A" None)
               Demo.self_optional)
  = Throw (JsError "Circular dependency found: A -> A? -> A?") /\
  circular ["A"; "A?"; "A?"] <> circular ["A"; "A?"].
Proof.
  repeat split; try (vm_compute; reflexivity). discriminate.
Qed.

(** C6, amended.  The cycle check compares the name as written, optional
    marker included: a request for an unresolved node under a written name
    that is already on the chain fails at that point with the
    circular-dependency error carrying the chain and the repeated name; and
    in every error [_resolve] throws, the names it has added to the chain
    are pairwise distinct and were not on the chain before, so no written
    name occurs twice in a chain ahead of the reported repeat. *)
Theorem C6_cycle_check_compares_written_names :
  forall (host_apply host_new : func -> list value -> value)
         (name : string) (prev : list string) (i : injector),
    (forall f d,
        located (_graph i) (node_name name) = Some (Provider f d None) ->
        name ∈ prev ->
        _resolve host_apply host_new name prev i
        = (Throw (circular (prev ++ [name])), i)) /\
    (forall e i',
        _resolve host_apply host_new name prev i = (Throw e, i') ->
        chain_error prev e).
Proof.
  intros host_apply host_new name prev i. split.
  - intros f d L Hin. rewrite (_resolve_provider _ _ _ _ _ _ _ L).
    apply includes_spec in Hin. rewrite Hin. reflexivity.
  - intros e i' H. eapply _resolve_chain_error; eauto.
Qed.

Lemma C6_witness :
  _resolve Demo.host_apply Demo.host_new "A?" ["A"; "A?"] Demo.self_optional
  = (Throw (circular ["A"; "A?"; "A?"]), Demo.self_optional) /\
  chain_error [] (circular ["A"; "A?"; "A?"]).
Proof.
  split.
  - apply (proj1 (C6_cycle_check_compares_written_names
                    Demo.host_apply Demo.host_new "A?" ["A"; "A?"]
                    Demo.self_optional)
                 (VFunc Demo.needs_optional_A) ["A?"]).
    + vm_compute. reflexivity.
    + right. left.
  - apply (proj2 (C6_cycle_check_compares_written_names
                    Demo.host_apply Demo.host_new "A" [] Demo.self_optional)
                 _ Demo.self_optional).
    vm_compute. reflexivity.
Defined.




(** C8, at a name with the optional marker and at a name in underscores.
    After two registrations under [x?] the node under [x?] is the second
    provider, yet [resolve("x?")] looks up [x], finds nothing and answers
    [undefined]; after two registrations under [_x_], [resolve("_x_")]
    looks up [x] and throws.  Neither request runs the second provider. *)
Lemma C8_counterexample :
  (exists i1 i2,
      register "x?" (VFunc Demo.needs_a) new_Injector = Ok i1 /\
      register "x?" (VFunc Demo.sum) i1 = Ok i2 /\
      located (_graph i2) "x?" = Some (Provider (VFunc Demo.sum) ["a"; "b"] None) /\
      resolve Demo.host_apply Demo.host_new (ByName "x?" None) i2
      = (Ok (Single VUndefined), i2)) /\
  (exists i1 i2,
      register "_x_" (VFunc Demo.needs_a) new_Injector = Ok i1 /\
      register "_x_" (VFunc Demo.sum) i1 = Ok i2 /\
      located (_graph i2) "_x_"
      = Some (Provider (VFunc Demo.sum) ["a"; "b"] None) /\
      resolve Demo.host_apply Demo.host_new (ByName "_x_" None) i2
      = (Throw (JsError "Dependency not found:  -> x"), i2)).
Proof.
  split; eexists; eexists; (split; [vm_compute; reflexivity|]);
    (split; [vm_compute; reflexivity|]); split; vm_compute; reflexivity.
Qed.

(** C8, amended.  Registration under a used name overwrites: when [register(n, f)]
    succeeded and the parser accepts [g], [register(n, g)] succeeds too
    and leaves the container it would have left had [f] never been
    registered; the node under [n] is the unresolved provider [g]; the set
    of registered names does not grow; and [resolve(n)], for a name that
    [resolve] looks up as written, runs the dependencies and the factory
    of [g]. *)
Theorem C8_reregistration_overwrites :
  forall (host_apply host_new : func -> list value -> value)
         (n : string) (f g : value) (i i1 : injector) (args : list string),
    register n f i = Ok i1 ->
    _getArguments g = Ok args ->
    exists i2,
      register n g i1 = Ok i2 /\
      register n g i = Ok i2 /\
      located (_graph i2) n = Some (Provider g args None) /\
      registered_names i2 = registered_names i1 /\
      (strip_underscores n = n ->
       node_name n = n ->
       forall ctx,
         JsString.includes n (initial_chain ctx) = false ->
         resolve host_apply host_new (ByName n ctx) i2 =
         match map_resolve
                 (fun x => _resolve host_apply host_new x
                                    (initial_chain ctx ++ [n]))
                 args i2 with
         | (Throw e, j) => (Throw e, j)
         | (Ok vs, j) =>
             match _invokeFunction host_apply host_new g vs with
             | (Throw e, _) => (Throw e, j)
             | (Ok v, ran) =>
                 (Ok (Single v),
                  {| _graph := graph_update (_graph j) n (node_set_value v);
                     invoked := if ran then invoked j ++ [n]
                                else invoked j |})
             end
         end).
Proof.
  intros host_apply host_new n f g i i1 args Hf Hg.
  unfold register in Hf.
  destruct (_getArguments f) as [fargs|e]; [|discriminate].
  injection Hf as <-.
  eexists. split; [apply register_ok; exact Hg|].
  cbn [_graph invoked]. rewrite graph_set_twice.
  split; [apply register_ok; exact Hg|].
  assert (located (graph_set (_graph i) n (Provider g args None)) n
          = Some (Provider g args None)) as L.
  { rewrite located_set. rewrite decide_True by reflexivity. reflexivity. }
  split; [exact L|]. split.
  - unfold registered_names, graph_set. cbn [_graph].
    destruct (String.eqb n "__proto__"); cbn [own]; [reflexivity|].
    rewrite !dom_insert_L. set_solver.
  - intros Hs Hn ctx Hp. unfold resolve, resolve_one. rewrite Hs.
    rewrite (_resolve_provider _ _ n (initial_chain ctx) _ g args);
      [|cbn [_graph]; rewrite Hn; exact L].
    rewrite Hp, Hn.
    destruct (map_resolve _ args _) as [[vs|e] j]; [|reflexivity].
    destruct (_invokeFunction host_apply host_new g vs) as [[v|e] ran];
      reflexivity.
Qed.

Lemma C8_witness :
  exists i2,
    register "sum" (VFunc Demo.needs_a) Demo.numbers = Ok i2 /\
    fst (resolve Demo.host_apply Demo.host_new (ByName "sum" None) i2)
    = Ok (Single (VNum 1)).
Proof.
  destruct (C8_reregistration_overwrites
              Demo.host_apply Demo.host_new
              "sum" (VFunc Demo.sum) (VFunc Demo.needs_a)
              (registerValue "b" (VNum 2)
                 (registerValue "a" (VNum 1) new_Injector))
              Demo.numbers ["a"])
    as (i2 & R1 & R2 & _).
  - vm_compute. reflexivity.
  - vm_compute. reflexivity.
  - exists i2. split; [exact R1|].
    vm_compute in R1. injection R1 as <-. vm_compute. reflexivity.
Defined.

(** C9, at the failing input.  Nothing is registered under [constructor]
    in a new container, and [isRegistered("constructor")] is true: the
    lookup finds the member inherited from [Object.prototype]. *)
Theorem C9_inherited_name_reported_registered :
  isRegistered new_Injector "constructor" = true /\
  ("constructor" ∉ registered_names new_Injector) /\
  located (_graph new_Injector) "constructor" = None.
Proof.
  split; [reflexivity|]. split; [|reflexivity].
  unfold registered_names. rewrite elem_of_dom. vm_compute.
  intros [x H]. discriminate.
Qed.

(** C10, counterexample.  The text is a class, it has a constructor and a
    parenthesized parameter list, and parsing it raises the parse error:
    the constructor match stops at the [")"] inside the line comment, and
    stripping the comment then removes that [")"]. *)
Lemma C10_counterexample :
  test IS_CLASS_REGEX Demo.commented_class = true /\
  has_parens Demo.commented_class = true /\
  _getArgumentsFromString Demo.commented_class = Throw parse_error.
Proof. repeat split; vm_compute; reflexivity. Qed.

(** C10, amended.  A class text in which the constructor pattern finds
    nothing parses to the empty list.  The parse error is the only error,
    and it is raised exactly when the text searched for the parameter list
    (the constructor match for a class, else the whole declaration), once
    optional markers are converted and comments stripped, holds neither a
    ["("] followed somewhere by a [")"] nor an arrow ["=>"]; class text is
    not exempt. *)
Theorem C10_parse_failure_characterised :
  forall (fnStr : string),
    (test IS_CLASS_REGEX fnStr = true ->
     search CONSTRUCTOR_REGEX fnStr = None ->
     _getArgumentsFromString fnStr = Ok []) /\
    (forall e,
        _getArgumentsFromString fnStr = Throw e <->
        e = parse_error /\
        exists head,
          declaration_head fnStr = Some head /\
          has_parens (strip head) = false /\
          has_arrow (strip head) = false).
Proof.
  intros fnStr. split.
  - intros C N. unfold _getArgumentsFromString, declaration_head.
    rewrite C, N. reflexivity.
  - intros e. unfold _getArgumentsFromString.
    destruct (declaration_head fnStr) as [head|].
    + destruct (search ARGUMENTS (strip head)) as [m|] eqn:S.
      * split; [discriminate|].
        intros (_ & head' & E & P & A). injection E as <-.
        assert (search ARGUMENTS (strip head) = None) as N
            by (apply search_ARGUMENTS_spec; auto).
        congruence.
      * apply search_ARGUMENTS_spec in S as [P A]. split.
        -- intros H. injection H as <-. split; [reflexivity|]. eauto.
        -- intros (-> & _). reflexivity.
    + split; [discriminate|]. intros (_ & head' & E & _). discriminate.
Qed.

Lemma C10_witness :
  _getArgumentsFromString "class A { }" = Ok [] /\
  _getArgumentsFromString "x" = Throw parse_error.
Proof.
  split.
  - apply (proj1 (C10_parse_failure_characterised "class A { }"));
      vm_compute; reflexivity.
  - apply (proj2 (C10_parse_failure_characterised "x") parse_error).
    split; [reflexivity|]. exists "x". repeat split; vm_compute; reflexivity.
Defined.

(** ** Further properties of the resolver *)

Section MoreEngineFacts.

Variable host_apply : func -> list value -> value.
Variable host_new : func -> list value -> value.

Abbreviation resolve_fuel := (_resolve_fuel host_apply host_new).
Abbreviation invoke := (_invokeFunction host_apply host_new).
Abbreviation resolve_ := (_resolve host_apply host_new).

Lemma _resolve_evolves name prev i :
  evolves i (snd (resolve_ name prev i)).
Proof.
  unfold _resolve.
  destruct (resolve_fuel _ name prev i) as [r i'] eqn:R. simpl.
  eapply resolve_fuel_evolves; eauto.
Qed.

Lemma _resolve_dom name prev i :
  dom (own (_graph (snd (resolve_ name prev i)))) = dom (own (_graph i)).
Proof.
  unfold _resolve.
  destruct (resolve_fuel _ name prev i) as [r i'] eqn:R. simpl.
  eapply resolve_fuel_dom; eauto.
Qed.

Lemma resolve_one_evolves locals prev name i :
  evolves i (snd (resolve_one host_apply host_new locals prev name i)) /\
  dom (own (_graph (snd (resolve_one host_apply host_new locals prev
                                     name i))))
  = dom (own (_graph i)).
Proof.
  unfold resolve_one. destruct locals as [m|].
  - destruct (truthy (plain_get m (strip_underscores name))); simpl.
    + split; [apply evolves_refl|reflexivity].
    + split; [apply _resolve_evolves|apply _resolve_dom].
  - split; [apply _resolve_evolves|apply _resolve_dom].
Qed.

Lemma map_resolve_one_evolves locals prev names i :
  evolves i (snd (map_resolve (resolve_one host_apply host_new locals prev)
                              names i)) /\
  dom (own (_graph (snd (map_resolve
                           (resolve_one host_apply host_new locals prev)
                           names i))))
  = dom (own (_graph i)).
Proof.
  destruct (map_resolve _ names i) as [r j] eqn:M. simpl.
  eapply (map_resolve_inv _
            (fun j => evolves i j /\
                      dom (own (_graph j)) = dom (own (_graph i)))
            (fun _ => True)) in M; [tauto| | |].
  - intros d j0 r0 j1 _ [E D] R.
    pose proof (resolve_one_evolves locals prev d j0) as [E' D'].
    rewrite R in E', D'. simpl in E', D'. split.
    + eapply evolves_trans; eauto.
    + congruence.
  - apply Forall_forall. auto.
  - split; [apply evolves_refl|reflexivity].
Qed.

Lemma resolve_evolves r i :
  evolves i (snd (resolve host_apply host_new r i)) /\
  dom (own (_graph (snd (resolve host_apply host_new r i))))
  = dom (own (_graph i)).
Proof.
  destruct r as [fn locals ctx|name ctx|names ctx]; unfold resolve.
  - destruct (_getArguments (VFunc fn)) as [names|e];
      [|split; [apply evolves_refl|reflexivity]].
    pose proof (map_resolve_one_evolves locals (initial_chain ctx) names i)
      as L.
    destruct (map_resolve _ names i) as [[vs|e] j]; simpl in *; [|exact L].
    destruct (fst (invoke (VFunc fn) vs)); exact L.
  - pose proof (resolve_one_evolves None (initial_chain ctx) name i) as L.
    destruct (resolve_one _ _ None _ name i) as [[v|e] j]; exact L.
  - pose proof (map_resolve_one_evolves None (initial_chain ctx) names i)
      as L.
    destruct (map_resolve _ names i) as [[vs|e] j]; exact L.
Qed.

(** *** A failed request *)




(** *** A successful request for an unresolved provider *)




(** *** The depth of the recursion *)

Lemma depth_bound_le g prev : depth_bound g prev <= 2 * S (size (own g)).
Proof.
  unfold depth_bound.
  etransitivity; [apply List.filter_length_le|].
  unfold candidates, graph_keys.
  assert (forall l : list string,
             length (flat_map (fun k => [k; k +:+ "?"]) l) = 2 * length l)
    as F.
  { induction l as [|a l IHl]; simpl; [reflexivity|]. rewrite IHl. lia. }
  rewrite F. cbn [length].
  replace (length (elements (dom (own g)))) with (size (own g)); [lia|].
  rewrite <- size_dom. reflexivity.
Qed.

(** *** Dependency cycles *)

Lemma spares_refl B i : spares B i i.
Proof. split; auto. Qed.

Lemma spares_trans B i j k : spares B i j -> spares B j k -> spares B i k.
Proof.
  intros [A1 A2] [B1 B2]. split.
  - intros l Hl. rewrite B1, A1; auto.
  - intros l Hl H. auto.
Qed.

Lemma trapped_spared B i j :
  trapped (_graph i) B -> spares B i j -> trapped (_graph j) B.
Proof.
  intros T [K _] l Hl. destruct (T l Hl) as (f & d & L & x & Hx & Hn).
  exists f, d. split; [rewrite K; auto|eauto].
Qed.

Lemma resolve_fuel_trapped fuel : forall name prev i r i' B,
  trapped (_graph i) B ->
  resolve_fuel fuel name prev i = (r, i') ->
  spares B i i' /\ (node_name name ∈ B -> exists e, r = Throw e).
Proof.
  induction fuel as [|fuel IH]; intros name prev i r i' B T H.
  { simpl in H. injection H as <- <-. split; [apply spares_refl|eauto]. }
  apply resolve_fuel_cases in H.
  assert (forall ds rd j,
             map_resolve (fun x => resolve_fuel fuel x (prev ++ [name])) ds i
             = (rd, j) ->
             spares B i j /\
             (forall vs, rd = Ok vs -> forall x, x ∈ ds ->
                node_name x ∉ B)) as Hmap.
  { intros ds rd j M.
    eapply (map_resolve_inv _ (fun j => spares B i j) (fun _ => True))
      in M; [| | |apply spares_refl].
    - destruct M as [S Hall]. split; [exact S|].
      intros vs E x Hx Hn.
      destruct (Hall vs E x Hx) as (jd & v & jd' & Sd & R).
      destruct (IH _ _ _ _ _ B (trapped_spared _ _ _ T Sd) R)
        as [_ Hthrow].
      destruct (Hthrow Hn) as [e He]. discriminate.
    - intros x j0 r0 j1 _ S0 R.
      destruct (IH _ _ _ _ _ B (trapped_spared _ _ _ T S0) R) as [S1 _].
      eapply spares_trans; eauto.
    - apply Forall_forall. auto. }
  assert (forall n, node_name name ∈ B ->
                    located (_graph i) (node_name name) = Some n ->
                    exists f d, n = Provider f d None /\
                                exists x, x ∈ d /\ node_name x ∈ B) as Hin.
  { intros n Hn Ln. destruct (T _ Hn) as (f & d & L & Hx).
    rewrite L in Ln. injection Ln as <-. eauto. }
  inversion H; subst; clear H;
    try (split; [apply spares_refl|solve [eauto]]).
  - (* absent *)
    split; [apply spares_refl|]. intros Hn.
    destruct (T _ Hn) as (f & d & L & _). apply graph_get_node in L.
    match goal with X : slot_truthy _ = false |- _ => rewrite L in X end.
    discriminate.
  - (* cached *)
    split; [apply spares_refl|].
    intros Hn. destruct (T _ Hn) as (f & d & L & _).
    apply graph_get_node in L.
    match goal with X : slot_value _ = Some _ |- _ => rewrite L in X end.
    discriminate.
  - (* a dependency throws *)
    match goal with
    | M : map_resolve _ _ _ = _ |- _ => destruct (Hmap _ _ _ M) as [S _]
    end.
    split; [exact S|eauto].
  - (* the factory throws *)
    match goal with
    | M : map_resolve _ _ _ = _ |- _ => destruct (Hmap _ _ _ M) as [S _]
    end.
    split; [exact S|eauto].
  - (* resolved *)
    match goal with
    | M : map_resolve _ _ _ = _ |- _ => destruct (Hmap _ _ _ M) as [S Hall]
    end.
    assert (node_name name ∉ B) as HnB.
    { intros Hn.
      match goal with
      | L : located _ _ = Some _ |- _ =>
          destruct (Hin _ Hn L) as (f' & d' & E & x & Hx & Hxn)
      end.
      injection E as <- <-. eapply Hall; eauto. }
    split; [|contradiction].
    destruct S as [K1 K2]. split.
    + intros l Hl. simpl. rewrite located_update.
      rewrite decide_False by (intros ->; auto). auto.
    + intros l Hl. simpl. intros Hi. apply K2; [exact Hl|].
      destruct ran; [|exact Hi].
      apply elem_of_app in Hi as [Hi|Hi]; [exact Hi|].
      apply list_elem_of_singleton in Hi. subst l. contradiction.
Qed.

Lemma _resolve_trapped name prev i B :
  trapped (_graph i) B ->
  spares B i (snd (resolve_ name prev i)) /\
  (node_name name ∈ B -> exists e, fst (resolve_ name prev i) = Throw e).
Proof.
  intros T. unfold _resolve.
  destruct (resolve_fuel _ name prev i) as [r i'] eqn:R. simpl.
  eapply resolve_fuel_trapped; eauto.
Qed.

Lemma resolve_one_trapped locals prev name i B :
  trapped (_graph i) B ->
  spares B i (snd (resolve_one host_apply host_new locals prev name i)).
Proof.
  intros T. unfold resolve_one.
  destruct locals as [m|]; [|apply _resolve_trapped; auto].
  destruct (truthy (plain_get m (strip_underscores name)));
    [apply spares_refl|apply _resolve_trapped; auto].
Qed.

Lemma map_resolve_one_trapped locals prev names i B :
  trapped (_graph i) B ->
  spares B i (snd (map_resolve (resolve_one host_apply host_new locals prev)
                               names i)).
Proof.
  intros T.
  destruct (map_resolve _ names i) as [r j] eqn:M. simpl.
  eapply (map_resolve_inv _ (fun j => spares B i j) (fun _ => True)) in M;
    [tauto| | |apply spares_refl].
  - intros d j0 r0 j1 _ S0 R.
    pose proof (resolve_one_trapped locals prev d j0 B
                  (trapped_spared _ _ _ T S0)) as S1.
    rewrite R in S1. eapply spares_trans; eauto.
  - apply Forall_forall. auto.
Qed.

Lemma resolve_trapped r i B :
  trapped (_graph i) B ->
  spares B i (snd (resolve host_apply host_new r i)).
Proof.
  intros T. destruct r as [fn locals ctx|name ctx|names ctx];
    unfold resolve.
  - destruct (_getArguments (VFunc fn)) as [names|e];
      [|apply spares_refl].
    pose proof (map_resolve_one_trapped locals (initial_chain ctx) names
                  i B T) as L.
    destruct (map_resolve _ names i) as [[vs|e] j]; simpl in *; [|exact L].
    destruct (fst (invoke (VFunc fn) vs)); exact L.
  - pose proof (resolve_one_trapped None (initial_chain ctx) name i B T)
      as L.
    destruct (resolve_one _ _ None _ name i) as [[v|e] j]; exact L.
  - pose proof (map_resolve_one_trapped None (initial_chain ctx) names
                  i B T) as L.
    destruct (map_resolve _ names i) as [[vs|e] j]; exact L.
Qed.

Lemma resolve_all_trapped rs : forall i B,
  trapped (_graph i) B ->
  spares B i (resolve_all host_apply host_new rs i).
Proof.
  induction rs as [|r rs IH]; intros i B T; simpl; [apply spares_refl|].
  pose proof (resolve_trapped r i B T) as S.
  eapply spares_trans; [exact S|].
  apply IH. eapply trapped_spared; eauto.
Qed.

End MoreEngineFacts.

(** *** Cycles, with callbacks *)

Section CallbackCycles.

Import Callbacks.

Variable host_apply : callback.
Variable host_new : callback.
Hypothesis apply_leaves : leaves_container host_apply.
Hypothesis new_leaves : leaves_container host_new.

Lemma cb_map_resolve_trapped B
      (f : string -> store -> result value * store) :
  (forall d s r s',
      trapped (_graph (this s)) B -> f d s = (r, s') ->
      spares B (this s) (this s') /\
      (node_name d ∈ B -> exists e, r = Throw e)) ->
  forall ds s r s',
    trapped (_graph (this s)) B ->
    map_resolve f ds s = (r, s') ->
    spares B (this s) (this s') /\
    (forall vs, r = Ok vs -> forall x, x ∈ ds -> node_name x ∉ B).
Proof.
  intros Hf. induction ds as [|d ds IH]; intros s r s' T H.
  - injection H as <- <-. split; [apply spares_refl|].
    intros vs _ x Hx. inversion Hx.
  - cbn [map_resolve] in H. destruct (f d s) as [[v|e] s1] eqn:F.
    + destruct (Hf _ _ _ _ T F) as [S1 Th].
      pose proof (trapped_spared _ _ _ T S1) as T1.
      destruct (map_resolve f ds s1) as [[vs|e] s2] eqn:M;
        injection H as <- <-;
        destruct (IH _ _ _ T1 M) as [S2 Hall];
        (split; [eapply spares_trans; eauto|]).
      * intros vs0 _ x Hx Hn. apply elem_of_cons in Hx as [->|Hx].
        -- destruct (Th Hn) as [e He]. discriminate.
        -- eapply Hall; eauto.
      * intros vs0 E. discriminate.
    + injection H as <- <-. destruct (Hf _ _ _ _ T F) as [S1 _].
      split; [exact S1|]. intros vs0 E. discriminate.
Qed.

Lemma spares_logged B s k (ran : bool) :
  k ∉ B -> spares B (this s) (this (logged ran k s)).
Proof.
  intros Hk. split; [reflexivity|].
  intros l Hl. cbn [logged this invoked]. destruct ran; [|auto].
  intros Hi. apply elem_of_app in Hi as [Hi|Hi]; [exact Hi|].
  apply list_elem_of_singleton in Hi. subst l. contradiction.
Qed.

Lemma spares_set_value B s k v :
  k ∉ B -> spares B (this s) (this (set_value k v s)).
Proof.
  intros Hk. split; [|auto].
  intros l Hl. cbn [set_value this _graph]. rewrite located_update.
  rewrite decide_False by (intros ->; auto). reflexivity.
Qed.

Lemma cb__resolve_trapped stack : forall name prev s r s' B,
  trapped (_graph (this s)) B ->
  _resolve host_apply host_new stack name prev s = (r, s') ->
  spares B (this s) (this s') /\
  (node_name name ∈ B -> exists e, r = Throw e).
Proof.
  induction stack as [|stack IH]; intros name prev s r s' B T H.
  { injection H as <- <-. split; [apply spares_refl|eauto]. }
  cbn [_resolve] in H. unfold _resolve_body in H.
  destruct (negb (slot_truthy _)) eqn:Tr.
  { assert ((r, s') = (if has_optional_marker name
                       then Ok VUndefined
                       else Throw (not_found prev name), s)) as E.
    { destruct (has_optional_marker name); congruence. }
    injection E as -> ->. split; [apply spares_refl|].
    intros Hn. destruct (T _ Hn) as (f & d & L & _).
    apply graph_get_node in L. rewrite L in Tr. discriminate. }
  destruct (slot_value _) as [v0|] eqn:V.
  { injection H as <- <-. split; [apply spares_refl|].
    intros Hn. destruct (T _ Hn) as (f & d & L & _).
    apply graph_get_node in L. rewrite L in V. discriminate. }
  destruct (JsString.includes name prev).
  { injection H as <- <-. split; [apply spares_refl|eauto]. }
  destruct (slot_provider _) as [[f d]|] eqn:P.
  2:{ injection H as <- <-. split; [apply spares_refl|eauto]. }
  assert (located (_graph (this s)) (node_name name)
          = Some (Provider f d None)) as Lk.
  { apply slot_provider_node in P as [c P]. rewrite P in V.
    cbn [slot_value node_value] in V. subst c.
    apply graph_get_node. exact P. }
  destruct (map_resolve _ d s) as [[vs|e] s1] eqn:M.
  2:{ injection H as <- <-.
      destruct (cb_map_resolve_trapped
                  B _ (fun d0 s0 r0 s0' T0 R0 => IH d0 _ s0 r0 s0' B T0 R0)
                  _ _ _ _ T M) as [S _].
      split; [exact S|eauto]. }
  destruct (cb_map_resolve_trapped
              B _ (fun d0 s0 r0 s0' T0 R0 => IH d0 _ s0 r0 s0' B T0 R0)
              _ _ _ _ T M) as [S Hall].
  assert (node_name name ∉ B) as HnB.
  { intros Hn. destruct (T _ Hn) as (f' & d' & L & x & Hx & Hxn).
    rewrite Lk in L. injection L as <- <-.
    eapply Hall; eauto. }
  pose proof (cb_invoke_leaves host_apply host_new apply_leaves new_leaves
                               f vs s1) as F.
  destruct (_invokeFunction host_apply host_new f vs s1)
    as [[[v|e] ran] s2]; cbn [snd] in F; subst s2.
  - split; [|contradiction].
    assert (s' = logged ran (node_name name) s1 \/
            s' = set_value (node_name name) v
                           (logged ran (node_name name) s1)) as [->| ->].
    { destruct (Nat.eqb _ _); injection H as <- <-; auto. }
    + eapply spares_trans; [exact S|apply spares_logged; exact HnB].
    + eapply spares_trans; [exact S|].
      eapply spares_trans; [apply spares_logged; exact HnB|].
      apply spares_set_value. exact HnB.
  - injection H as <- <-. split; [|eauto].
    eapply spares_trans; [exact S|apply spares_logged; exact HnB].
Qed.

Lemma cb_resolve_one_trapped stack locals prev name s B :
  trapped (_graph (this s)) B ->
  spares B (this s)
         (this (snd (resolve_one host_apply host_new stack locals prev
                                 name s))).
Proof.
  intros T. unfold resolve_one. destruct locals as [m|].
  - destruct (truthy _); [apply spares_refl|].
    destruct (_resolve _ _ _ _ _ s) as [r s'] eqn:R.
    eapply cb__resolve_trapped; eauto.
  - destruct (_resolve _ _ _ _ _ s) as [r s'] eqn:R.
    eapply cb__resolve_trapped; eauto.
Qed.

Lemma cb_map_one_trapped stack locals prev B : forall names s,
  trapped (_graph (this s)) B ->
  spares B (this s)
         (this (snd (map_resolve
                       (resolve_one host_apply host_new stack locals prev)
                       names s))).
Proof.
  induction names as [|n names IH]; intros s T; [apply spares_refl|].
  cbn [map_resolve].
  pose proof (cb_resolve_one_trapped stack locals prev n s B T) as S1.
  destruct (resolve_one _ _ _ _ _ n s) as [[v|e] s1]; cbn [snd] in *;
    [|exact S1].
  pose proof (IH s1 (trapped_spared _ _ _ T S1)) as S2.
  destruct (map_resolve _ names s1) as [[vs|e] s2]; cbn [snd] in *;
    eapply spares_trans; eauto.
Qed.

Lemma cb_resolve_trapped stack r s B :
  trapped (_graph (this s)) B ->
  spares B (this s) (this (snd (resolve host_apply host_new stack r s))).
Proof.
  intros T. destruct r as [fn locals ctx|name ctx|names ctx];
    cbn [resolve].
  - destruct (_getArguments (VFunc fn)) as [names|e];
      [|apply spares_refl].
    pose proof (cb_map_one_trapped stack locals (initial_chain ctx) B
                                   names s T) as S.
    destruct (map_resolve _ names s) as [[vs|e] s1]; cbn [snd] in *;
      [|exact S].
    pose proof (cb_invoke_leaves host_apply host_new apply_leaves
                                 new_leaves (VFunc fn) vs s1) as F.
    destruct (_invokeFunction host_apply host_new (VFunc fn) vs s1)
      as [[[v|e] ran] s2]; cbn [snd] in *; subst s2; exact S.
  - pose proof (cb_resolve_one_trapped stack None (initial_chain ctx)
                                       name s B T) as S.
    destruct (resolve_one _ _ _ _ _ name s) as [[v|e] s1]; exact S.
  - pose proof (cb_map_one_trapped stack None (initial_chain ctx) B
                                   names s T) as S.
    destruct (map_resolve _ names s) as [[vs|e] s1]; exact S.
Qed.

Lemma cb_resolve_all_trapped stack rs B : forall s,
  trapped (_graph (this s)) B ->
  spares B (this s) (this (resolve_all host_apply host_new stack rs s)).
Proof.
  induction rs as [|r rs IH]; intros s T; cbn [resolve_all].
  - apply spares_refl.
  - pose proof (cb_resolve_trapped stack r s B T) as S.
    eapply spares_trans; [exact S|].
    apply IH. eapply trapped_spared; eauto.
Qed.

End CallbackCycles.

(** X1.  With callbacks that leave the container as they find it (they
    may throw), whatever is requested and whether the call returns or
    throws, [resolve] changes the graph in one way only, by giving a value
    to a provider that had none: a node that has a value keeps the node
    and the value, a provider keeps its factory and its dependency names,
    no node appears or disappears, the registered names are the same and
    no name is registered anew. *)
Theorem resolve_only_memoizes :
  forall (host_apply host_new : Callbacks.callback),
    Callbacks.leaves_container host_apply ->
    Callbacks.leaves_container host_new ->
    forall (stack : nat) (r : request) (s : Callbacks.store),
      let s' := snd (Callbacks.resolve host_apply host_new stack r s) in
      (forall k n v,
          located (_graph (Callbacks.this s)) k = Some n ->
          node_value n = Some v ->
          located (_graph (Callbacks.this s')) k = Some n) /\
      (forall k f d c,
          located (_graph (Callbacks.this s)) k = Some (Provider f d c) ->
          exists c',
            located (_graph (Callbacks.this s')) k
            = Some (Provider f d c')) /\
      (forall k,
          located (_graph (Callbacks.this s)) k = None ->
          located (_graph (Callbacks.this s')) k = None) /\
      registered_names (Callbacks.this s')
      = registered_names (Callbacks.this s) /\
      Callbacks.generation s' = Callbacks.generation s.
Proof.
  intros host_apply host_new HA HN stack r s s'.
  destruct (cb_resolve_grows host_apply host_new HA HN stack r s)
    as (G & D & E & _).
  fold s' in G, D, E. repeat split.
  - intros k n v L V. destruct (E k) as [->|(f & d & v' & A & _)]; [exact L|].
    rewrite L in A. injection A as ->. discriminate.
  - intros k f d c L. destruct (E k) as [->|(f' & d' & v' & A & B)]; [eauto|].
    rewrite L in A. injection A as <- <- ->. eauto.
  - intros k L. destruct (E k) as [->|(f' & d' & v' & A & B)]; [exact L|].
    congruence.
  - exact D.
  - exact G.
Qed.

Lemma resolve_only_memoizes_witness :
  located (_graph (Callbacks.this
                     (snd (Callbacks.resolve
                             (Callbacks.returning Demo.host_apply)
                             (Callbacks.returning Demo.host_new) 8
                             (ByName "sum" None) Callbacks.numbers))))
          "a"
  = Some (Value (VNum 1)).
Proof.
  apply (proj1 (resolve_only_memoizes
                  (Callbacks.returning Demo.host_apply)
                  (Callbacks.returning Demo.host_new)
                  (fun _ _ _ => eq_refl) (fun _ _ _ => eq_refl)
                  8 (ByName "sum" None) Callbacks.numbers)
               "a" (Value (VNum 1)) (VNum 1)); reflexivity.
Defined.

(** X2.  With callbacks that return a value and leave the container as
    they find it, the recursion of [_resolve] is bounded whatever the
    graph holds, cycles included: a stack deeper than the number of
    candidate names off the chain is enough, the call then gives the
    result and the container of the engine above and never ends in the
    stack overflow; and that number is at most twice the number of own
    keys of the graph plus two. *)
Theorem resolution_depth_is_bounded :
  forall (host_apply host_new : func -> list value -> value)
         (stack : nat) (name : string) (prev : list string)
         (s : Callbacks.store),
    depth_bound (_graph (Callbacks.this s)) prev < stack ->
    Callbacks._resolve (Callbacks.returning host_apply)
                       (Callbacks.returning host_new) stack name prev s
    = (fst (_resolve host_apply host_new name prev (Callbacks.this s)),
       {| Callbacks.this :=
            snd (_resolve host_apply host_new name prev (Callbacks.this s));
          Callbacks.generation := Callbacks.generation s |}) /\
    fst (Callbacks._resolve (Callbacks.returning host_apply)
                            (Callbacks.returning host_new) stack name prev s)
    <> Throw RangeError /\
    depth_bound (_graph (Callbacks.this s)) prev
    <= 2 * S (size (own (_graph (Callbacks.this s)))).
Proof.
  intros host_apply host_new stack name prev s H.
  rewrite (cb__resolve_returning host_apply host_new stack name prev s H).
  split; [reflexivity|]. split.
  - cbn [fst]. apply _resolve_total.
  - apply depth_bound_le.
Qed.

Lemma resolution_depth_is_bounded_witness :
  fst (Callbacks._resolve
         (Callbacks.returning Demo.host_apply)
         (Callbacks.returning Demo.host_new) 100 "A" []
         {| Callbacks.this :=
              Demo.register_or_keep
                "B" Demo.needs_A
                (Demo.register_or_keep "A" Demo.needs_B new_Injector);
            Callbacks.generation := ∅ |})
  <> Throw RangeError.
Proof.
  apply (resolution_depth_is_bounded
           Demo.host_apply Demo.host_new 100 "A" []
           {| Callbacks.this :=
                Demo.register_or_keep
                  "B" Demo.needs_A
                  (Demo.register_or_keep "A" Demo.needs_B new_Injector);
              Callbacks.generation := ∅ |}).
  vm_compute. lia.
Defined.





(** X5.  With callbacks that leave the container as they find it (they
    may throw), nodes on a dependency cycle are never resolved.  Let [B]
    be a set of unresolved providers each of which has a dependency name,
    optional or not, that leads to a node of [B].  Then every request for
    a node of [B] throws, and over any sequence of [resolve] calls the
    nodes of [B] stay as they are and none of their factories is run. *)
Theorem cyclic_nodes_are_never_resolved :
  forall (host_apply host_new : Callbacks.callback),
    Callbacks.leaves_container host_apply ->
    Callbacks.leaves_container host_new ->
    forall (B : list string) (s : Callbacks.store),
      trapped (_graph (Callbacks.this s)) B ->
      (forall stack name prev,
          node_name name ∈ B ->
          exists e,
            fst (Callbacks._resolve host_apply host_new stack name prev s)
            = Throw e) /\
      (forall stack rs l,
          l ∈ B ->
          located (_graph (Callbacks.this
                             (Callbacks.resolve_all host_apply host_new
                                                    stack rs s))) l
          = located (_graph (Callbacks.this s)) l /\
          (l ∈ invoked (Callbacks.this
                          (Callbacks.resolve_all host_apply host_new
                                                 stack rs s)) ->
           l ∈ invoked (Callbacks.this s))).
Proof.
  intros host_apply host_new HA HN B s T. split.
  - intros stack name prev Hn.
    destruct (Callbacks._resolve host_apply host_new stack name prev s)
      as [r s'] eqn:R.
    apply (proj2 (cb__resolve_trapped host_apply host_new HA HN
                                      stack name prev s r s' B T R) Hn).
  - intros stack rs l Hl.
    destruct (cb_resolve_all_trapped host_apply host_new HA HN
                                     stack rs B s T) as [K1 K2].
    split; [apply K1; exact Hl|apply K2; exact Hl].
Qed.

Lemma cyclic_nodes_are_never_resolved_witness :
  exists e,
    fst (Callbacks._resolve
           (Callbacks.returning Demo.host_apply)
           (Callbacks.returning Demo.host_new) 8 "B?" []
           {| Callbacks.this :=
                Demo.register_or_keep
                  "B" Demo.needs_A
                  (Demo.register_or_keep "A" Demo.needs_B new_Injector);
              Callbacks.generation := ∅ |})
    = Throw e.
Proof.
  apply (proj1 (cyclic_nodes_are_never_resolved
                  (Callbacks.returning Demo.host_apply)
                  (Callbacks.returning Demo.host_new)
                  (fun _ _ _ => eq_refl) (fun _ _ _ => eq_refl)
                  ["A"; "B"]
                  {| Callbacks.this :=
                       Demo.register_or_keep
                         "B" Demo.needs_A
                         (Demo.register_or_keep "A" Demo.needs_B
                                                new_Injector);
                     Callbacks.generation := ∅ |}
                  ltac:(intros l Hl;
                        apply elem_of_cons in Hl as [->|Hl];
                        [exists (VFunc Demo.needs_B), ["B"];
                         split; [vm_compute; reflexivity|];
                         exists "B"; split; [left|right; left]
                        |apply list_elem_of_singleton in Hl; subst l;
                         exists (VFunc Demo.needs_A), ["A"];
                         split; [vm_compute; reflexivity|];
                         exists "A"; split; [left|left]]))
               8 "B?" []).
  right. left.
Defined.

(** ** Facts about string concatenation *)

Lemma length_append s t :
  String.length (s +:+ t) = String.length s + String.length t.
Proof. induction s as [|a s IH]; simpl; [reflexivity|]. rewrite IH. lia. Qed.

Lemma get_append_end s c t :
  String.get (String.length s) (s +:+ String c t) = Some c.
Proof. induction s as [|a s IH]; simpl; [reflexivity|exact IH]. Qed.

Lemma substring_append_start s t :
  String.substring 0 (String.length s) (s +:+ t) = s.
Proof.
  induction s as [|a s IH]; simpl.
  - destruct t; reflexivity.
  - rewrite IH. reflexivity.
Qed.

Lemma append_nil_l (s : string) : EmptyString +:+ s = s.
Proof. reflexivity. Qed.

Lemma append_cons (a : ascii) (s t : string) :
  String a s +:+ t = String a (s +:+ t).
Proof. reflexivity. Qed.

Lemma append_assoc (p q r : string) : (p +:+ q) +:+ r = p +:+ (q +:+ r).
Proof.
  induction p as [|a p IH]; [reflexivity|].
  change ((String a p +:+ q) +:+ r) with (String a ((p +:+ q) +:+ r)).
  rewrite IH. reflexivity.
Qed.

(** ** Registration and the entry points *)

Lemma graph_get_set_same g k n : graph_get (graph_set g k n) k = SNode n.
Proof.
  apply graph_get_node. rewrite located_set.
  rewrite decide_True by reflexivity. reflexivity.
Qed.

Lemma graph_get_set_other g k n k' :
  k <> "__proto__" -> k' <> k ->
  graph_get (graph_set g k n) k' = graph_get g k'.
Proof.
  intros Hk Hne. unfold graph_get, graph_set.
  apply String.eqb_neq in Hk. rewrite Hk. cbn [own proto].
  rewrite lookup_insert_ne by congruence. reflexivity.
Qed.

Lemma graph_set_names g k n :
  dom (own (graph_set g k n)) =
  if String.eqb k "__proto__" then dom (own g) else {[k]} ∪ dom (own g).
Proof.
  unfold graph_set. destruct (String.eqb k "__proto__"); cbn [own];
    [reflexivity|apply dom_insert_L].
Qed.

(** X6.  [registerValue(n, v)] followed by [resolve(n)], for a name that
    [resolve] looks up as written, gives [v] itself and leaves the
    container as it is: nothing is parsed or invoked, also when [v] is a
    function, and whatever was stored under [n] before. *)
Theorem registered_value_resolves_verbatim :
  forall (host_apply host_new : func -> list value -> value)
         (n : string) (v : value) (i : injector) (ctx : option string),
    strip_underscores n = n ->
    node_name n = n ->
    resolve host_apply host_new (ByName n ctx) (registerValue n v i)
    = (Ok (Single v), registerValue n v i).
Proof.
  intros host_apply host_new n v i ctx Hs Hn.
  unfold resolve, resolve_one. rewrite Hs.
  rewrite (_resolve_cached _ _ n _ _ (Value v) v); [reflexivity| |reflexivity].
  rewrite Hn. unfold registerValue. cbn [_graph]. rewrite located_set.
  rewrite decide_True by reflexivity. reflexivity.
Qed.

Lemma registered_value_resolves_verbatim_witness :
  resolve Demo.host_apply Demo.host_new (ByName "doubler" None)
          (registerValue "doubler" (VFunc Demo.needs_a) new_Injector)
  = (Ok (Single (VFunc Demo.needs_a)),
     registerValue "doubler" (VFunc Demo.needs_a) new_Injector).
Proof.
  apply (registered_value_resolves_verbatim
           Demo.host_apply Demo.host_new "doubler" (VFunc Demo.needs_a)
           new_Injector None); reflexivity.
Defined.

(** X7.  After [registerValue(n, v)], and after a [register(n, fn)] that
    did not throw, [isRegistered(n)] is true.  For [n] other than
    ["__proto__"] the registered names are the old ones and [n], and the
    answer of [isRegistered] for every other name is unchanged.  Under
    ["__proto__"] the node replaces the prototype of the graph instead: no
    registered name is added. *)
Theorem registration_is_visible :
  forall (n : string) (i : injector),
    (forall i', (exists v, i' = registerValue n v i) \/
                (exists fn, register n fn i = Ok i') ->
       isRegistered i' n = true /\
       (n <> "__proto__" ->
        registered_names i' = {[n]} ∪ registered_names i /\
        forall n', n' <> n -> isRegistered i' n' = isRegistered i n') /\
       (n = "__proto__" -> registered_names i' = registered_names i)).
Proof.
  intros n i i' H.
  assert (exists node, _graph i' = graph_set (_graph i) n node) as [node G].
  { destruct H as [[v ->]|[fn R]]; [eexists; reflexivity|].
    unfold register in R. destruct (_getArguments fn); [|discriminate].
    injection R as <-. eexists; reflexivity. }
  unfold isRegistered, registered_names. rewrite G. split; [|split].
  - rewrite graph_get_set_same. reflexivity.
  - intros Hn. rewrite graph_set_names.
    apply String.eqb_neq in Hn as Hn'. rewrite Hn'. split; [reflexivity|].
    intros n' Hne. rewrite graph_get_set_other by assumption. reflexivity.
  - intros ->. rewrite graph_set_names. reflexivity.
Qed.

Lemma registration_is_visible_witness :
  isRegistered (registerValue "x" VUndefined new_Injector) "x" = true /\
  isRegistered (Demo.register_or_keep "y" Demo.sum new_Injector) "y" = true.
Proof.
  split.
  - apply (registration_is_visible "x" new_Injector).
    left. exists VUndefined. reflexivity.
  - apply (registration_is_visible "y" new_Injector).
    right. exists (VFunc Demo.sum). vm_compute. reflexivity.
Defined.

(** *** The underscore convention *)

Lemma strip_underscores_wrapped n :
  strip_underscores ("_" +:+ n +:+ "_") = n.
Proof.
  change ("_" +:+ n +:+ "_") with (String "_"%char (n +:+ "_")).
  unfold strip_underscores, JsString.first_char, JsString.last_char.
  cbn [String.get String.length].
  rewrite length_append. cbn [String.length].
  replace (String.length n + 1) with (S (String.length n)) by lia.
  cbn [String.get Nat.eqb].
  rewrite get_append_end.
  rewrite Ascii.eqb_refl. cbn [andb].
  unfold JsString.substring. cbn [String.length].
  rewrite length_append. cbn [String.length].
  replace (S (S (String.length n)) - 1) with (S (String.length n)) by lia.
  replace (S (String.length n + 1)) with (S (S (String.length n))) by lia.
  rewrite !Nat.min_l by lia. rewrite Nat.max_r by lia.
  replace (S (String.length n) - 1) with (String.length n) by lia.
  cbn [String.substring]. apply substring_append_start.
Qed.

(** X8.  [resolve] strips one pair of surrounding underscores and no more:
    a request for [_n_] is a request for [n] as it stands, whatever [n]
    is, so it equals [resolve(n)] exactly when [n] is not itself wrapped in
    underscores. *)
Theorem underscores_are_stripped_once :
  forall (host_apply host_new : func -> list value -> value)
         (n : string) (ctx : option string) (i : injector),
    resolve host_apply host_new (ByName ("_" +:+ n +:+ "_") ctx) i
    = (match _resolve host_apply host_new n (initial_chain ctx) i with
       | (Throw e, i') => (Throw e, i')
       | (Ok v, i') => (Ok (Single v), i')
       end) /\
    (strip_underscores n = n ->
     resolve host_apply host_new (ByName ("_" +:+ n +:+ "_") ctx) i
     = resolve host_apply host_new (ByName n ctx) i).
Proof.
  intros host_apply host_new n ctx i.
  unfold resolve, resolve_one. rewrite strip_underscores_wrapped.
  split; [reflexivity|]. intros ->. reflexivity.
Qed.

Lemma underscores_are_stripped_once_witness :
  resolve Demo.host_apply Demo.host_new (ByName ("_" +:+ "sum" +:+ "_") None)
          Demo.numbers
  = resolve Demo.host_apply Demo.host_new (ByName "sum" None) Demo.numbers.
Proof.
  apply (proj2 (underscores_are_stripped_once
                  Demo.host_apply Demo.host_new "sum" None Demo.numbers)).
  reflexivity.
Defined.

(** X9.  The context label is the first entry of the chain, on a par with
    the names.  A required name whose lookup is falsy fails with the
    message made of the label (empty when there is none), an arrow and the
    name; and a request for an unresolved provider under a context equal to
    its name fails as a circular dependency, whatever its dependencies. *)
Theorem context_label_heads_the_chain :
  forall (host_apply host_new : func -> list value -> value)
         (n : string) (ctx : option string) (i : injector),
    strip_underscores n = n ->
    (slot_truthy (graph_get (_graph i) (node_name n)) = false ->
     has_optional_marker n = false ->
     resolve host_apply host_new (ByName n ctx) i
     = (Throw (JsError ("Dependency not found: " +:+
                        match ctx with Some c => c | None => EmptyString end
                        +:+ " -> " +:+ n)), i)) /\
    (forall f d,
        located (_graph i) (node_name n) = Some (Provider f d None) ->
        n <> EmptyString ->
        resolve host_apply host_new (ByName n (Some n)) i
        = (Throw (JsError ("Circular dependency found: " +:+ n +:+ " -> "
                           +:+ n)), i)).
Proof.
  intros host_apply host_new n ctx i Hs. split.
  - intros Hf Hm. unfold resolve, resolve_one. rewrite Hs.
    rewrite (_resolve_absent _ _ _ _ _ Hf), Hm. unfold not_found.
    destruct ctx as [c|]; [|reflexivity]. cbn [initial_chain].
    destruct (String.eqb_spec c EmptyString) as [->|]; reflexivity.
  - intros f d L Hne. unfold resolve, resolve_one. rewrite Hs.
    cbn [initial_chain]. apply String.eqb_neq in Hne. rewrite Hne.
    rewrite (_resolve_provider _ _ _ _ _ _ _ L).
    unfold JsString.includes. cbn [existsb]. rewrite String.eqb_refl.
    reflexivity.
Qed.

Lemma context_label_heads_the_chain_witness :
  resolve Demo.host_apply Demo.host_new (ByName "missing" (Some "app.js"))
          Demo.numbers
  = (Throw (JsError "Dependency not found: app.js -> missing"), Demo.numbers)
  /\
  resolve Demo.host_apply Demo.host_new (ByName "sum" (Some "sum"))
          Demo.numbers
  = (Throw (JsError "Circular dependency found: sum -> sum"), Demo.numbers).
Proof.
  split.
  - apply (proj1 (context_label_heads_the_chain
                    Demo.host_apply Demo.host_new "missing" (Some "app.js")
                    Demo.numbers eq_refl)); reflexivity.
  - apply (proj2 (context_label_heads_the_chain
                    Demo.host_apply Demo.host_new "sum" (Some "sum")
                    Demo.numbers eq_refl)
                 (VFunc Demo.sum) ["a"; "b"]).
    + vm_compute. reflexivity.
    + discriminate.
Defined.

(** *** Batches *)



Section Batch.

Variable host_apply : func -> list value -> value.
Variable host_new : func -> list value -> value.




End Batch.



(** ** Further properties of the signature parser *)

Lemma rep_greedy_span p (k : cont) :
  (forall pos s c r, k pos s c = Some r -> fst r = pos) ->
  forall s least pos c r,
    rep_greedy p least pos s c k = Some r ->
    exists n,
      fst r = pos + n /\ least <= n /\ n <= String.length s /\
      string_forall p (String.substring 0 n s) = true.
Proof.
  intros Hk. induction s as [|a s IH]; intros least pos c r H.
  - simpl in H. destruct least; [|discriminate].
    exists 0. rewrite (Hk _ _ _ _ H). repeat split; auto; lia.
  - cbn [rep_greedy] in H.
    assert (match least with O => k pos (String a s) c | S _ => None end
            = Some r ->
            exists n, fst r = pos + n /\ least <= n /\
                      n <= String.length (String a s) /\
                      string_forall p (String.substring 0 n (String a s))
                      = true) as Hstop.
    { destruct least; [|discriminate]. intros E.
      exists 0. rewrite (Hk _ _ _ _ E). repeat split; auto; simpl; lia. }
    destruct (p a) eqn:Pa; [|auto].
    destruct (rep_greedy p (Nat.pred least) (S pos) s c k) as [r'|] eqn:R;
      [|auto].
    injection H as <-. destruct (IH _ _ _ _ R) as (n & E & L1 & L2 & F).
    exists (S n). repeat split; simpl; try lia.
    rewrite Pa, F. reflexivity.
Qed.

Lemma match_at_ARGUMENT_NAMES pos s e c :
  match_at ARGUMENT_NAMES pos s = Some (e, c) ->
  String.substring 0 (e - pos) s <> EmptyString /\
  string_forall name_char (String.substring 0 (e - pos) s) = true.
Proof.
  unfold match_at, ARGUMENT_NAMES. cbn [exec]. intros H.
  apply rep_greedy_span in H.
  - destruct H as (n & E & L1 & L2 & F). simpl in E. subst e.
    replace (pos + n - pos) with n by lia. split; [|exact F].
    destruct n; [lia|]. destruct s; [simpl in L2; lia|]. discriminate.
  - intros pos' s' c' r E. injection E as <-. reflexivity.
Qed.

Lemma match_all_names_clean : forall s pos skip,
  Forall (fun n => n <> EmptyString /\ string_forall name_char n = true)
         (match_all_from ARGUMENT_NAMES pos skip s).
Proof.
  induction s as [|a s IH]; intros pos skip.
  - destruct skip; simpl; constructor.
  - destruct skip as [|k]; cbn [match_all_from]; [|apply IH].
    destruct (match_at ARGUMENT_NAMES pos (String a s)) as [[e c]|] eqn:M;
      [|apply IH].
    constructor; [eapply match_at_ARGUMENT_NAMES; eauto|apply IH].
Qed.

(** X11.  Every dependency name the parser returns is non-empty and holds
    no white space and no comma, whatever the declaration text. *)
Theorem parsed_names_are_clean :
  forall (fnStr : string) (names : list string),
    _getArgumentsFromString fnStr = Ok names ->
    Forall (fun n => n <> EmptyString /\ string_forall name_char n = true)
           names.
Proof.
  intros fnStr names. unfold _getArgumentsFromString.
  destruct (declaration_head fnStr) as [head|].
  - destruct (search ARGUMENTS (strip head)) as [m|]; [|discriminate].
    intros H. injection H as <-. apply match_all_names_clean.
  - intros H. injection H as <-. constructor.
Qed.

Lemma parsed_names_are_clean_witness :
  Forall (fun n => n <> EmptyString /\ string_forall name_char n = true)
         ["a?"; "b"].
Proof.
  apply (parsed_names_are_clean
           "function foo(/* optional */ a, b /* why */) {}").
  vm_compute. reflexivity.
Defined.

(** *** Text without comments *)

Lemma only_ci_slash a : only_ci "/" a = Ascii.eqb "/" a.
Proof. destruct a as [[] [] [] [] [] [] [] []]; reflexivity. Qed.

Lemma match_at_CONVERT_OPTIONAL_none pos s :
  starts_with_char "/" s = false -> match_at CONVERT_OPTIONAL pos s = None.
Proof.
  intros H. unfold match_at, CONVERT_OPTIONAL. cbn [seq LitI exec].
  destruct s as [|a s]; [reflexivity|]. rewrite only_ci_slash.
  cbn [starts_with_char] in H. rewrite H. reflexivity.
Qed.

Lemma match_at_STRIP_COMMENTS_none pos s :
  starts_with_char "/" s = false -> match_at STRIP_COMMENTS pos s = None.
Proof.
  intros H. unfold match_at, STRIP_COMMENTS. cbn [seq Lit exec].
  destruct s as [|a s]; [reflexivity|]. unfold only.
  cbn [starts_with_char] in H. rewrite H. reflexivity.
Qed.

Lemma replace_from_unmatched r f :
  (forall pos s, starts_with_char "/" s = false -> match_at r pos s = None) ->
  forall s pos,
    contains_char "/" s = false -> replace_from r f pos 0 s = s.
Proof.
  intros Hr. induction s as [|a s IH]; intros pos H.
  - cbn [replace_from]. rewrite Hr by reflexivity. reflexivity.
  - cbn [contains_char] in H. apply orb_false_iff in H as [Ha Hs].
    cbn [replace_from]. rewrite Hr by exact Ha. rewrite IH by exact Hs.
    reflexivity.
Qed.

Lemma strip_without_slash s : contains_char "/" s = false -> strip s = s.
Proof.
  intros H. unfold strip, replace_all.
  rewrite (replace_from_unmatched CONVERT_OPTIONAL)
    by (auto using match_at_CONVERT_OPTIONAL_none).
  apply replace_from_unmatched; auto using match_at_STRIP_COMMENTS_none.
Qed.

(** *** The first parenthesized list *)

Lemma lazy_before_paren rest : forall u,
  has_arrow u = false ->
  lazy_ok (non (only ")")) starts_with_arrow (u +:+ String ")" rest) = false.
Proof.
  induction u as [|a u IH]; intros H.
  - rewrite append_nil_l. cbn [lazy_ok]. unfold non, only.
    destruct rest as [|b rest]; reflexivity.
  - cbn [has_arrow] in H. apply orb_false_iff in H as [H1 H2].
    change (String a u +:+ String ")" rest)
      with (String a (u +:+ String ")" rest)).
    cbn [lazy_ok]. rewrite (IH H2), andb_false_r, orb_false_r.
    destruct u as [|b u].
    + rewrite append_nil_l. cbn [starts_with_arrow].
      destruct (Ascii.eqb "=" a); reflexivity.
    + exact H1.
Qed.

Lemma arrow_tail_lazy_none pos s c k :
  lazy_ok (non (only ")")) starts_with_arrow s = false ->
  exec (Cat (Grp 2 (Rep false 0 (non (only ")")))) (Lit "=>")) pos s c k
  = None.
Proof.
  intros A. cbn [exec].
  apply (rep_lazy_0_none _ starts_with_arrow); [|exact A].
  intros pos' u c' Hu. rewrite exec_Lit.
  rewrite (strip_prefix_arrow_none _ Hu). reflexivity.
Qed.

Lemma strip_prefix_before_paren rest : forall l u r,
  contains_char ")" l = false ->
  strip_prefix l (u +:+ String ")" rest) = Some r ->
  has_arrow u = false ->
  exists u', r = u' +:+ String ")" rest /\ has_arrow u' = false.
Proof.
  induction l as [|a l IH]; intros u r Hl H A.
  - simpl in H. injection H as <-. eauto.
  - cbn [contains_char] in Hl. apply orb_false_iff in Hl as [Ha Hl].
    destruct u as [|b u].
    + rewrite append_nil_l in H. cbn [strip_prefix] in H.
      rewrite Ascii.eqb_sym in Ha. rewrite Ha in H. discriminate.
    + change (String b u +:+ String ")" rest)
        with (String b (u +:+ String ")" rest)) in H.
      cbn [strip_prefix] in H.
      destruct (Ascii.eqb a b); [|discriminate].
      eapply IH; eauto. eapply has_arrow_tail; eauto.
Qed.

Lemma match_at_ARGUMENTS_before pos u rest :
  starts_with_char "(" (u +:+ String ")" rest) = false ->
  has_arrow u = false ->
  match_at ARGUMENTS pos (u +:+ String ")" rest) = None.
Proof.
  intros P A. unfold match_at, ARGUMENTS. cbn [seq]. cbn [exec].
  replace (match u +:+ String ")" rest with
           | String a s' => if only "(" a then _ else None
           | EmptyString => None
           end) with (@None (nat * caps)).
  2:{ destruct (u +:+ String ")" rest) as [|a s']; [reflexivity|].
      unfold only. cbn [starts_with_char] in P. rewrite P. reflexivity. }
  rewrite exec_Lit.
  pose proof (arrow_tail_lazy_none pos (u +:+ String ")" rest) []
                (fun pos' _ c' => Some (pos', c'))
                (lazy_before_paren rest u A)) as E'.
  cbn [exec] in E'.
  destruct (strip_prefix "async " (u +:+ String ")" rest)) as [r|] eqn:SP;
    [|exact E'].
  destruct (strip_prefix_before_paren rest "async " u r eq_refl SP A)
    as (u' & -> & A').
  pose proof (arrow_tail_lazy_none (pos + String.length "async ")
                (u' +:+ String ")" rest) []
                (fun pos' _ c' => Some (pos', c'))
                (lazy_before_paren rest u' A')) as E.
  cbn [exec] in E. rewrite E. exact E'.
Qed.

Lemma rep_lazy_to_paren rest (k : cont) : forall a pos c r,
  contains_char ")" a = false ->
  (forall pos' x s' c', Ascii.eqb ")" x = false ->
                        k pos' (String x s') c' = None) ->
  k (pos + String.length a) (String ")" rest) c = Some r ->
  rep_lazy any 0 pos (a +:+ String ")" rest) c k = Some r.
Proof.
  induction a as [|x a IH]; intros pos c r H Hk Hend.
  - rewrite append_nil_l. cbn [rep_lazy].
    cbn [String.length] in Hend. rewrite Nat.add_0_r in Hend.
    rewrite Hend. reflexivity.
  - cbn [contains_char] in H. apply orb_false_iff in H as [Hx Ha].
    rewrite append_cons. cbn [rep_lazy]. rewrite (Hk _ _ _ _ Hx).
    unfold any at 1. cbn [Nat.pred]. apply IH; auto.
    cbn [String.length] in Hend.
    replace (S pos + String.length a) with (pos + S (String.length a))
      by lia.
    exact Hend.
Qed.

Lemma match_at_ARGUMENTS_paren pos a rest :
  contains_char ")" a = false ->
  match_at ARGUMENTS pos (String "(" (a +:+ String ")" rest))
  = Some (S (S (pos + String.length a)), [(1, a)]).
Proof.
  intros H. unfold match_at, ARGUMENTS. cbn [seq]. cbn [exec].
  unfold only at 1. rewrite Ascii.eqb_refl.
  erewrite (rep_lazy_to_paren rest _ a (S pos) [] _ H); [reflexivity| |].
  - intros pos' x s' c' Hx. unfold only. rewrite Hx. reflexivity.
  - unfold only. rewrite Ascii.eqb_refl.
    replace (S pos + String.length a - S pos) with (String.length a) by lia.
    rewrite substring_append_start. reflexivity.
Qed.

Lemma search_ARGUMENTS_paren a rest : forall pre pos,
  contains_char "(" pre = false ->
  contains_char ")" a = false ->
  has_arrow (pre +:+ String "(" a) = false ->
  exists text,
    search_from ARGUMENTS pos (pre +:+ String "(" (a +:+ String ")" rest))
    = Some {| m_text := text; m_caps := [(1, a)] |}.
Proof.
  induction pre as [|x pre IH]; intros pos Hp Ha Harrow.
  - rewrite append_nil_l.
    destruct (a +:+ String ")" rest) eqn:E; cbn [search_from];
      rewrite <- ?E, (match_at_ARGUMENTS_paren pos a rest Ha); eauto.
  - cbn [contains_char] in Hp. apply orb_false_iff in Hp as [Hx Hp].
    change (String x pre +:+ String "(" (a +:+ String ")" rest))
      with (String x (pre +:+ String "(" (a +:+ String ")" rest))).
    cbn [search_from].
    replace (String x (pre +:+ String "(" (a +:+ String ")" rest)))
      with ((String x pre +:+ String "(" a) +:+ String ")" rest)
      by (rewrite append_assoc; reflexivity).
    rewrite match_at_ARGUMENTS_before.
    + apply IH; auto.
      change (String x pre +:+ String "(" a)
        with (String x (pre +:+ String "(" a)) in Harrow.
      eapply has_arrow_tail; eauto.
    + rewrite !append_cons. cbn [starts_with_char]. exact Hx.
    + exact Harrow.
Qed.

(** X12.  For a declaration that is not a class, holds no slash (so no
    comment), and reads [pre ( a ) rest] with no ["("] in [pre], no [")"]
    in [a] and no arrow before the closing parenthesis, the dependency
    names are the runs of characters other than white space and commas of
    [a]: the text between the first ["("] and the first [")"] after it. *)
Theorem parenthesized_list_is_parsed :
  forall (pre a rest : string),
    let fnStr := pre +:+ String "(" (a +:+ String ")" rest) in
    test IS_CLASS_REGEX fnStr = false ->
    contains_char "/" fnStr = false ->
    contains_char "(" pre = false ->
    contains_char ")" a = false ->
    has_arrow (pre +:+ String "(" a) = false ->
    _getArgumentsFromString fnStr = Ok (match_all ARGUMENT_NAMES a).
Proof.
  intros pre a rest fnStr Hc Hs Hp Ha Harrow.
  unfold _getArgumentsFromString, declaration_head. rewrite Hc.
  rewrite (strip_without_slash _ Hs). unfold search.
  destruct (search_ARGUMENTS_paren a rest pre 0 Hp Ha Harrow) as [text E].
  fold fnStr in E. rewrite E. reflexivity.
Qed.

Lemma parenthesized_list_is_parsed_witness :
  _getArgumentsFromString "function sum(a, b) { return a + b; }"
  = Ok ["a"; "b"].
Proof.
  apply (parenthesized_list_is_parsed
           "function sum" "a, b" " { return a + b; }"); reflexivity.
Defined.

(** *** A bare arrow parameter *)

Lemma starts_with_arrow_inside x t rest :
  starts_with_arrow (String x t) = false ->
  starts_with_arrow (String x (t +:+ String "=" (String ">" rest))) = false.
Proof.
  destruct t as [|y t].
  - intros _. rewrite append_nil_l. cbn [starts_with_arrow].
    destruct (Ascii.eqb "=" x); reflexivity.
  - rewrite append_cons. cbn [starts_with_arrow]. auto.
Qed.

Lemma rep_lazy_to_arrow rest (k : cont) : forall a pos c r,
  contains_char ")" a = false ->
  has_arrow a = false ->
  (forall pos' u c', starts_with_arrow u = false -> k pos' u c' = None) ->
  k (pos + String.length a) (String "=" (String ">" rest)) c = Some r ->
  rep_lazy (non (only ")")) 0 pos (a +:+ String "=" (String ">" rest)) c k
  = Some r.
Proof.
  induction a as [|x a IH]; intros pos c r H A Hk Hend.
  - rewrite append_nil_l. cbn [rep_lazy].
    cbn [String.length] in Hend. rewrite Nat.add_0_r in Hend.
    rewrite Hend. reflexivity.
  - cbn [contains_char] in H. apply orb_false_iff in H as [Hx Ha].
    cbn [has_arrow] in A. apply orb_false_iff in A as [A1 A2].
    rewrite append_cons. cbn [rep_lazy].
    rewrite (Hk _ _ _ (starts_with_arrow_inside _ _ _ A1)).
    unfold non at 1, only at 1. rewrite Hx. cbn [negb Nat.pred].
    apply IH; auto. cbn [String.length] in Hend.
    replace (S pos + String.length a) with (pos + S (String.length a))
      by lia.
    exact Hend.
Qed.

Lemma arrow_tail_found pos a rest :
  contains_char ")" a = false ->
  has_arrow a = false ->
  exec (Cat (Grp 2 (Rep false 0 (non (only ")")))) (Lit "=>")) pos
       (a +:+ String "=" (String ">" rest)) []
       (fun pos' _ c' => Some (pos', c'))
  = Some (pos + String.length a + 2, [(2, a)]).
Proof.
  intros H A. cbn [exec].
  erewrite (rep_lazy_to_arrow rest _ a pos [] _ H A); [reflexivity| |].
  - intros pos' u c' Hu. rewrite exec_Lit.
    rewrite (strip_prefix_arrow_none _ Hu). reflexivity.
  - rewrite exec_Lit. cbn [strip_prefix]. rewrite !Ascii.eqb_refl.
    replace (pos + String.length a - pos) with (String.length a) by lia.
    rewrite substring_append_start. reflexivity.
Qed.

Lemma strip_prefix_through c rest : forall l u r,
  contains_char c l = false ->
  strip_prefix l (u +:+ String c rest) = Some r ->
  exists u', strip_prefix l u = Some u' /\ r = u' +:+ String c rest.
Proof.
  induction l as [|a l IH]; intros u r Hl H.
  - simpl in H. injection H as <-. exists u. split; reflexivity.
  - cbn [contains_char] in Hl. apply orb_false_iff in Hl as [Ha Hl].
    destruct u as [|b u].
    + rewrite append_nil_l in H. cbn [strip_prefix] in H.
      rewrite Ascii.eqb_sym in Ha. rewrite Ha in H. discriminate.
    + rewrite append_cons in H. cbn [strip_prefix] in H |- *.
      destruct (Ascii.eqb a b); [|discriminate]. eapply IH; eauto.
Qed.

Lemma strip_prefix_append l : forall u u' t,
  strip_prefix l u = Some u' -> strip_prefix l (u +:+ t) = Some (u' +:+ t).
Proof.
  induction l as [|a l IH]; intros u u' t H.
  - simpl in H. injection H as <-. reflexivity.
  - destruct u as [|b u]; [discriminate|].
    rewrite append_cons. cbn [strip_prefix] in H |- *.
    destruct (Ascii.eqb a b); [|discriminate]. apply IH. exact H.
Qed.

Lemma strip_prefix_keeps l : forall u u',
  strip_prefix l u = Some u' ->
  (contains_char ")" u = false -> contains_char ")" u' = false) /\
  (has_arrow u = false -> has_arrow u' = false).
Proof.
  induction l as [|a l IH]; intros u u' H.
  - simpl in H. injection H as <-. auto.
  - destruct u as [|b u]; [discriminate|]. cbn [strip_prefix] in H.
    destruct (Ascii.eqb a b); [|discriminate].
    destruct (IH _ _ H) as [I1 I2]. split.
    + cbn [contains_char]. intros C. apply orb_false_iff in C as [_ C]. auto.
    + intros C. apply I2. eapply has_arrow_tail; eauto.
Qed.

Lemma match_at_ARGUMENTS_arrow_text a rest :
  starts_with_char "(" a = false ->
  contains_char ")" a = false ->
  has_arrow a = false ->
  exists e,
    match_at ARGUMENTS 0 (a +:+ String "=" (String ">" rest))
    = Some (e, [(2, without_async a)]).
Proof.
  intros P H A. unfold match_at, ARGUMENTS. cbn [seq]. cbn [exec].
  replace (match a +:+ String "=" (String ">" rest) with
           | String x s' => if only "(" x then _ else None
           | EmptyString => None
           end) with (@None (nat * caps)).
  2:{ destruct a as [|x a]; [reflexivity|]. rewrite append_cons.
      unfold only. cbn [starts_with_char] in P. rewrite P. reflexivity. }
  rewrite exec_Lit. unfold without_async.
  destruct (strip_prefix "async " (a +:+ String "=" (String ">" rest)))
    as [r|] eqn:SP.
  - destruct (strip_prefix_through "=" _ "async " a r eq_refl SP)
      as (a' & Sa & ->).
    rewrite Sa. destruct (strip_prefix_keeps _ _ _ Sa) as [K1 K2].
    pose proof (arrow_tail_found (0 + String.length "async ") a' rest
                  (K1 H) (K2 A)) as E.
    cbn [exec] in E. rewrite E. eauto.
  - destruct (strip_prefix "async " a) as [a'|] eqn:Sa.
    + rewrite (strip_prefix_append _ _ _ _ Sa) in SP. discriminate.
    + pose proof (arrow_tail_found 0 a rest H A) as E.
      cbn [exec] in E. rewrite E. eauto.
Qed.

(** X13.  For a declaration that is not a class, holds no slash, and reads
    [a => rest] where [a] does not begin with ["("] and holds no [")"] and
    no arrow, the dependency names are the runs of characters other than
    white space and commas of [a], a leading ["async "] left out. *)
Theorem bare_arrow_parameter_is_parsed :
  forall (a rest : string),
    let fnStr := a +:+ String "=" (String ">" rest) in
    test IS_CLASS_REGEX fnStr = false ->
    contains_char "/" fnStr = false ->
    starts_with_char "(" a = false ->
    contains_char ")" a = false ->
    has_arrow a = false ->
    _getArgumentsFromString fnStr
    = Ok (match_all ARGUMENT_NAMES (without_async a)).
Proof.
  intros a rest fnStr Hc Hs Hp Ha Harrow.
  unfold _getArgumentsFromString, declaration_head. rewrite Hc.
  rewrite (strip_without_slash _ Hs). unfold search.
  destruct (match_at_ARGUMENTS_arrow_text a rest Hp Ha Harrow) as [e E].
  fold fnStr in E.
  destruct fnStr; cbn [search_from]; rewrite E; reflexivity.
Qed.

Lemma bare_arrow_parameter_is_parsed_witness :
  _getArgumentsFromString "async x => x * 2" = Ok ["x"].
Proof.
  apply (bare_arrow_parameter_is_parsed "async x " " x * 2"); reflexivity.
Defined.

(** ** The invocation adapter *)

Lemma rep_greedy_ws_drop (k : cont) :
  (forall pos a s c, ws a = true -> k pos (String a s) c = None) ->
  forall s pos c,
    rep_greedy ws 0 pos s c k =
    k (pos + (String.length s - String.length (drop_ws s))) (drop_ws s) c.
Proof.
  intros Hk. induction s as [|a s IH]; intros pos c.
  - cbn [rep_greedy drop_ws String.length]. rewrite Nat.sub_diag, Nat.add_0_r.
    reflexivity.
  - cbn [rep_greedy drop_ws Nat.pred]. destruct (ws a) eqn:W.
    + rewrite IH.
      assert (String.length (drop_ws s) <= String.length s) as L.
      { clear. induction s as [|b s IH]; cbn [drop_ws String.length]; [lia|].
        destruct (ws b); cbn [String.length]; lia. }
      cbn [String.length].
      replace (pos + (S (String.length s) - String.length (drop_ws s)))
        with (S pos + (String.length s - String.length (drop_ws s))) by lia.
      destruct (k _ (drop_ws s) c) eqn:K; [reflexivity|].
      apply Hk. exact W.
    + rewrite Nat.sub_diag, Nat.add_0_r. reflexivity.
Qed.

Lemma rep_greedy_total p (k : cont) :
  (forall pos s c, k pos s c <> None) ->
  forall s pos c, rep_greedy p 0 pos s c k <> None.
Proof.
  intros Hk. induction s as [|a s IH]; intros pos c;
    cbn [rep_greedy Nat.pred]; [apply Hk|].
  destruct (p a); [|apply Hk].
  destruct (rep_greedy p 0 (S pos) s c k) eqn:E; [discriminate|].
  apply Hk.
Qed.

Lemma search_from_Bos_none r : forall s pos,
  search_from (Cat Bos r) (S pos) s = None.
Proof.
  induction s as [|a s IH]; intros pos; cbn [search_from match_at exec];
    cbn [Nat.eqb]; [reflexivity|apply IH].
Qed.

Lemma ws_not_c a : ws a = true -> Ascii.eqb "c" a = false.
Proof.
  intros W. destruct (Ascii.eqb_spec "c"%char a) as [<-|]; [|reflexivity].
  vm_compute in W. discriminate.
Qed.

Lemma test_IS_CLASS_REGEX s : test IS_CLASS_REGEX s = is_class_text s.
Proof.
  unfold test, search, IS_CLASS_REGEX. cbn [seq].
  assert (match_at (Cat Bos (Cat (Rep true 0 ws)
                                 (Cat (Lit "class") (Rep true 1 ws)))) 0 s
          = None <-> is_class_text s = false) as M.
  { unfold match_at. cbn [exec Nat.eqb].
    rewrite rep_greedy_ws_drop.
    - rewrite exec_Lit. unfold is_class_text.
      destruct (strip_prefix "class" (drop_ws s)) as [rest|]; [|tauto].
      destruct rest as [|a rest]; cbn [rep_greedy]; [tauto|].
      destruct (ws a); [|tauto]. cbn [Nat.pred].
      split; [|discriminate]. intros E. exfalso.
      destruct (rep_greedy ws 0 _ rest []
                           (fun pos' _ c' => Some (pos', c'))) eqn:G;
        [discriminate|].
      revert G. apply rep_greedy_total. discriminate.
    - intros pos a u c W. rewrite exec_Lit.
      cbn [strip_prefix]. rewrite (ws_not_c _ W). reflexivity. }
  destruct s as [|a s]; cbn [search_from].
  - destruct (match_at _ 0 EmptyString) as [[e c]|].
    + destruct (is_class_text EmptyString); [reflexivity|].
      destruct M as [_ M]. discriminate (M eq_refl).
    + symmetry. apply M. reflexivity.
  - destruct (match_at _ 0 (String a s)) as [[e c]|].
    + destruct (is_class_text (String a s)); [reflexivity|].
      destruct M as [_ M]. discriminate (M eq_refl).
    + rewrite search_from_Bos_none. symmetry. apply M. reflexivity.
Qed.

Lemma _invokeFunction_func host_apply host_new f args :
  _invokeFunction host_apply host_new (VFunc f) args =
  (Ok (if is_class_text (ftext f) then host_new f args
       else host_apply f args), true).
Proof.
  unfold _invokeFunction. cbn [toString truthy].
  rewrite test_IS_CLASS_REGEX.
  destruct (is_class_text (ftext f)); reflexivity.
Qed.

(** X14.  The invocation adapter runs the host only for a function value:
    it constructs when the text of the function is white space, [class]
    and a white-space character, and calls otherwise.  [undefined] and
    [null] raise a TypeError, as does every other truthy value; a falsy
    value that is not a function ([false], [0], the empty string) is
    answered with [undefined] and nothing is run. *)
Theorem invocation_follows_the_text :
  forall (host_apply host_new : func -> list value -> value)
         (fn : value) (args : list value),
    _invokeFunction host_apply host_new fn args =
    match fn with
    | VFunc f =>
        (Ok (if is_class_text (ftext f) then host_new f args
             else host_apply f args), true)
    | VUndefined | VNull => (Throw TypeError, false)
    | _ => (if truthy fn then Throw TypeError else Ok VUndefined, false)
    end.
Proof.
  intros host_apply host_new fn args. unfold _invokeFunction.
  destruct fn as [| |b|n|s|f|o|]; cbn [toString truthy];
    try reflexivity.
  - destruct b; reflexivity.
  - destruct n as [z H]. cbn [number_value].
    destruct (test IS_CLASS_REGEX _) eqn:T.
    + destruct (negb (z =? 0)%Z) eqn:Z0; [reflexivity|].
      apply negb_false_iff, Z.eqb_eq in Z0. subst z.
      vm_compute in T. discriminate.
    + destruct (negb (z =? 0)%Z); reflexivity.
  - rewrite test_IS_CLASS_REGEX.
    destruct (is_class_text s) eqn:C.
    + destruct s; [discriminate C|reflexivity].
    + destruct (negb (String.eqb s EmptyString)); reflexivity.
  - apply _invokeFunction_func.
Qed.








(** ** The instance registry *)

(** X17.  Constructing under a non-empty string key other than
    ["__proto__"] records the container, and every later construction
    under that key, as long as the registry holds it, evaluates to the
    same container and allocates nothing, whatever was done to the
    containers in between. *)
Theorem keyed_construction_is_shared :
  forall (s : string) (w : world),
    s <> EmptyString ->
    s <> "__proto__" ->
    let (r, w1) := Injector (VStr s) w in
    instances w1 !! s = Some r /\
    (instances w !! s = None ->
     r = length (heap w) /\ heap w1 = heap w ++ [new_Injector]) /\
    (forall w2, instances w2 !! s = Some r ->
                Injector (VStr s) w2 = (r, w2)).
Proof.
  intros s w Hne Hp.
  apply String.eqb_neq in Hne.
  assert (forall r w2, instances w2 !! s = Some r ->
                       Injector (VStr s) w2 = (r, w2)) as Again.
  { intros r w2 E. unfold Injector. cbn [truthy known_instance].
    rewrite Hne, E. reflexivity. }
  destruct (Injector (VStr s) w) as [r w1] eqn:E0.
  unfold Injector in E0. cbn [truthy known_instance] in E0.
  rewrite Hne in E0. cbn [negb] in E0.
  destruct (instances w !! s) as [r0|] eqn:E.
  - injection E0 as <- <-.
    split; [exact E|]. split; [discriminate|]. apply Again.
  - cbn [instance_key toString] in E0.
    apply String.eqb_neq in Hp. rewrite Hp in E0.
    injection E0 as <- <-. cbn [instances heap].
    split; [apply lookup_insert_eq|].
    split; [auto|]. apply Again.
Qed.

Lemma keyed_construction_is_shared_witness :
  Injector (VStr "app")
           (snd (Injector (VStr "app") {| heap := []; instances := ∅ |}))
  = (0, snd (Injector (VStr "app") {| heap := []; instances := ∅ |})).
Proof.
  pose proof (keyed_construction_is_shared
                "app" {| heap := []; instances := ∅ |}
                ltac:(discriminate) ltac:(discriminate)) as W.
  destruct (Injector (VStr "app") {| heap := []; instances := ∅ |})
    as [r w1] eqn:E.
  destruct W as (Hr & F & Again).
  destruct (F eq_refl) as [-> _]. cbn [snd].
  apply Again. exact Hr.
Defined.

(** X18.  A construction that is not shared always yields a new container,
    the one [new Injector()] yields, and leaves the existing ones alone: a
    falsy instance name (none, the empty string, 0) changes nothing in the
    registry; a truthy name that is not a string is never found in it; and
    the key ["__proto__"] is never recorded, so each construction under it
    is a new container. *)
Theorem unshared_construction_is_fresh :
  forall (instanceName : value) (w : world),
    known_instance w instanceName = None \/ truthy instanceName = false ->
    let (r, w1) := Injector instanceName w in
    r = length (heap w) /\
    heap w1 = heap w ++ [new_Injector] /\
    (truthy instanceName = false -> instances w1 = instances w) /\
    (instanceName = VStr "__proto__" ->
     instances w1 = instances w /\
     (instances w !! "__proto__" = None ->
      known_instance w1 instanceName = None)) /\
    ((forall s, instanceName <> VStr s) ->
     known_instance w1 instanceName = None).
Proof.
  intros v w H. unfold Injector.
  destruct (truthy v) eqn:T.
  - destruct H as [H|H]; [|discriminate]. rewrite H.
    split; [reflexivity|]. split; [reflexivity|].
    split; [discriminate|]. split.
    + intros ->. cbn [instance_key toString]. rewrite String.eqb_refl.
      cbn [instances]. split; [reflexivity|]. cbn [known_instance]. auto.
    + intros Hs. destruct v; try reflexivity.
      exfalso. eapply Hs. reflexivity.
  - split; [reflexivity|]. split; [reflexivity|].
    split; [reflexivity|]. split.
    + intros ->. discriminate.
    + intros Hs. destruct v; try reflexivity.
      exfalso. eapply Hs. reflexivity.
Qed.

Lemma unshared_construction_is_fresh_witness :
  fst (Injector (VNum 5) (snd (Injector (VNum 5)
                                        {| heap := []; instances := ∅ |})))
  = 1.
Proof.
  pose proof (unshared_construction_is_fresh
                (VNum 5)
                (snd (Injector (VNum 5) {| heap := []; instances := ∅ |}))
                (or_introl eq_refl)) as W.
  destruct (Injector (VNum 5)
                     (snd (Injector (VNum 5)
                                    {| heap := []; instances := ∅ |})))
    as [r w1].
  destruct W as [-> _]. reflexivity.
Defined.

(** ** Comments in a declaration *)

Lemma rep_greedy_run p (k : cont) s c r : forall w pos,
  string_forall p w = true ->
  head_in p s = false ->
  k (pos + String.length w) s c = Some r ->
  rep_greedy p 0 pos (w +:+ s) c k = Some r.
Proof.
  induction w as [|a w IH]; intros pos W H K.
  - rewrite append_nil_l. cbn [String.length] in K.
    rewrite Nat.add_0_r in K.
    destruct s as [|b s]; cbn [rep_greedy]; [exact K|].
    cbn [head_in] in H. rewrite H. exact K.
  - rewrite append_cons. cbn [rep_greedy Nat.pred].
    cbn [string_forall] in W. apply andb_prop in W as [Wa W].
    rewrite Wa. rewrite (IH (S pos) W H); [reflexivity|].
    cbn [String.length] in K.
    replace (S pos + String.length w) with (pos + S (String.length w))
      by lia.
    exact K.
Qed.

Lemma rep_lazy_run p q (k : cont) s c r : forall x least pos,
  least <= String.length x ->
  string_forall p x = true ->
  string_forall q x = true ->
  (forall pos' a s' c', q a = true -> k pos' (String a s') c' = None) ->
  k (pos + String.length x) s c = Some r ->
  rep_lazy p least pos (x +:+ s) c k = Some r.
Proof.
  induction x as [|a x IH]; intros least pos L P Q Hk K.
  - cbn [String.length] in L, K. rewrite Nat.add_0_r in K.
    assert (least = 0) as -> by lia.
    rewrite append_nil_l. destruct s; cbn [rep_lazy]; rewrite K; reflexivity.
  - rewrite append_cons. cbn [rep_lazy].
    cbn [string_forall] in P, Q.
    apply andb_prop in P as [Pa P]. apply andb_prop in Q as [Qa Q].
    rewrite Pa.
    assert (rep_lazy p (Nat.pred least) (S pos) (x +:+ s) c k = Some r) as R.
    { apply IH; auto.
      - cbn [String.length] in L. lia.
      - cbn [String.length] in K.
        replace (S pos + String.length x) with (pos + S (String.length x))
          by lia.
        exact K. }
    rewrite R. destruct least; [|reflexivity].
    rewrite (Hk _ _ _ _ Qa). reflexivity.
Qed.

Lemma exec_LitI l (k : cont) c s : forall kw pos,
  same_ci l kw = true ->
  exec (LitI l) pos (kw +:+ s) c k = k (pos + String.length kw) s c.
Proof.
  induction l as [|a l IH]; intros kw pos H.
  - destruct kw; [|discriminate]. rewrite append_nil_l.
    cbn [LitI exec String.length]. rewrite Nat.add_0_r. reflexivity.
  - destruct kw as [|b kw]; [discriminate|].
    cbn [same_ci] in H. apply andb_prop in H as [Hb H].
    rewrite append_cons. cbn [LitI exec]. rewrite Hb.
    rewrite (IH kw (S pos) H). cbn [String.length].
    replace (S pos + String.length kw) with (pos + S (String.length kw))
      by lia.
    reflexivity.
Qed.

Lemma substring_run (w : string) (t : ascii) (tl : string) :
  String.substring 0 (S (String.length w)) (w +:+ String t tl)
  = w +:+ String t EmptyString.
Proof.
  induction w as [|a w IH].
  - rewrite !append_nil_l. cbn. destruct tl; reflexivity.
  - rewrite !append_cons. cbn [String.length].
    change (String.substring 0 (S (S (String.length w)))
                             (String a (w +:+ String t tl)))
      with (String a (String.substring 0 (S (String.length w))
                                       (w +:+ String t tl))).
    rewrite IH. reflexivity.
Qed.

Lemma param_char_spec a :
  param_char a = true ->
  ws a = false /\ dot a = true /\ delimiter a = false /\
  Ascii.eqb "/" a = false.
Proof.
  destruct a as [[] [] [] [] [] [] [] []]; vm_compute; intros H;
    try discriminate H; repeat split.
Qed.

Lemma string_forall_impl (p q : ascii -> bool) :
  (forall a, p a = true -> q a = true) ->
  forall s, string_forall p s = true -> string_forall q s = true.
Proof.
  intros H. induction s as [|a s IH]; cbn [string_forall]; [auto|].
  intros E. apply andb_prop in E as [Ea E].
  rewrite (H _ Ea), (IH E). reflexivity.
Qed.

Lemma same_ci_optional_head kw :
  same_ci "optional" kw = true -> head_in ws kw = false.
Proof.
  destruct kw as [|b kw]; [discriminate|].
  cbn [same_ci head_in]. intros H. apply andb_prop in H as [H _].
  revert H. destruct b as [[] [] [] [] [] [] [] []]; vm_compute;
    intros H; try discriminate H; reflexivity.
Qed.

Lemma head_in_append p s t :
  s <> EmptyString -> head_in p (s +:+ t) = head_in p s.
Proof. destruct s; [congruence|reflexivity]. Qed.

Lemma match_at_CONVERT_OPTIONAL_comment pos w1 kw w2 w3 x w4 t tl :
  string_forall ws w1 = true ->
  same_ci "optional" kw = true ->
  string_forall ws w2 = true ->
  string_forall ws w3 = true ->
  x <> EmptyString ->
  string_forall param_char x = true ->
  string_forall ws w4 = true ->
  delimiter t = true ->
  exists e,
    match_at CONVERT_OPTIONAL pos
             ("/*" +:+ w1 +:+ kw +:+ w2 +:+ "*/" +:+ w3 +:+ x +:+ w4 +:+
              String t tl)
    = Some (e, [(2, w4 +:+ String t EmptyString); (1, x)]) /\
    e - pos = String.length ("/*" +:+ w1 +:+ kw +:+ w2 +:+ "*/" +:+ w3 +:+
                             x +:+ w4 +:+ String t EmptyString).
Proof.
  intros W1 KW W2 W3 X0 X W4 T.
  assert (kw <> EmptyString) as K0 by (destruct kw; discriminate).
  assert (head_in ws x = false) as HX.
  { destruct x as [|a x]; [congruence|]. cbn [string_forall] in X.
    apply andb_prop in X as [Xa _]. apply param_char_spec in Xa. tauto. }
  assert (ws t = false) as WT.
  { revert T. destruct t as [[] [] [] [] [] [] [] []]; vm_compute;
      intros T; try discriminate T; reflexivity. }
  unfold match_at, CONVERT_OPTIONAL. cbn [seq exec].
  rewrite (exec_LitI "/*" _ _ _ "/*") by reflexivity.
  eexists. split.
  - apply rep_greedy_run; [exact W1| |].
    { rewrite head_in_append by exact K0.
      apply same_ci_optional_head. exact KW. }
    rewrite (exec_LitI "optional" _ _ _ kw) by exact KW.
    apply rep_greedy_run; [exact W2|reflexivity|].
    rewrite (exec_LitI "*/" _ _ _ "*/") by reflexivity.
    apply rep_greedy_run; [exact W3| |].
    { rewrite head_in_append by exact X0. exact HX. }
    apply (rep_lazy_run dot param_char).
    + destruct x; [congruence|cbn [String.length]; lia].
    + eapply string_forall_impl; [|exact X].
      intros a Ha. apply param_char_spec in Ha. tauto.
    + exact X.
    + intros pos' a s' c' Ha. apply param_char_spec in Ha.
      destruct Ha as (Wa & _ & Da & _).
      cbn [rep_greedy]. rewrite Wa. unfold delimiter in Da. rewrite Da.
      reflexivity.
    + apply rep_greedy_run; [exact W4|exact WT|].
      unfold delimiter in T. rewrite T.
      match goal with
      | |- context [String.substring 0 ?n (w4 +:+ _)] =>
          replace n with (S (String.length w4)) by lia
      end.
      match goal with
      | |- context [String.substring 0 ?n (x +:+ _)] =>
          replace n with (String.length x) by lia
      end.
      rewrite substring_run, substring_append_start. reflexivity.
  - rewrite !length_append. cbn [String.length]. lia.
Qed.

Lemma contains_char_append c s t :
  contains_char c (s +:+ t) = contains_char c s || contains_char c t.
Proof.
  induction s as [|a s IH]; [reflexivity|].
  rewrite append_cons. cbn [contains_char]. rewrite IH.
  apply orb_assoc.
Qed.

Lemma string_forall_contains p c s :
  string_forall p s = true -> p c = false -> contains_char c s = false.
Proof.
  intros S C. induction s as [|a s IH]; [reflexivity|].
  cbn [string_forall] in S. apply andb_prop in S as [Sa S].
  cbn [contains_char]. rewrite (IH S), orb_false_r.
  destruct (Ascii.eqb_spec c a) as [->|]; congruence.
Qed.

Lemma replace_from_prefix r f :
  (forall pos s, starts_with_char "/" s = false -> match_at r pos s = None) ->
  forall p pos s,
    contains_char "/" p = false ->
    replace_from r f pos 0 (p +:+ s)
    = p +:+ replace_from r f (pos + String.length p) 0 s.
Proof.
  intros Hr. induction p as [|a p IH]; intros pos s H.
  - rewrite !append_nil_l. cbn [String.length]. rewrite Nat.add_0_r.
    reflexivity.
  - cbn [contains_char] in H. apply orb_false_elim in H as [Ha H].
    rewrite !append_cons. cbn [replace_from].
    rewrite Hr by exact Ha. rewrite (IH (S pos) s H).
    cbn [String.length].
    replace (S pos + String.length p) with (pos + S (String.length p))
      by lia.
    reflexivity.
Qed.

Lemma replace_from_skip r f : forall u pos s,
  replace_from r f pos (String.length u) (u +:+ s)
  = replace_from r f (pos + String.length u) 0 s.
Proof.
  induction u as [|a u IH]; intros pos s.
  - rewrite append_nil_l. cbn [String.length]. rewrite Nat.add_0_r.
    reflexivity.
  - rewrite append_cons. cbn [String.length replace_from].
    rewrite IH.
    replace (S pos + String.length u) with (pos + S (String.length u))
      by lia.
    reflexivity.
Qed.

Lemma replace_from_match r f pos m s e c :
  m <> EmptyString ->
  match_at r pos (m +:+ s) = Some (e, c) ->
  e - pos = String.length m ->
  replace_from r f pos 0 (m +:+ s)
  = f {| m_text := m; m_caps := c |} +:+
    replace_from r f (pos + String.length m) 0 s.
Proof.
  intros M0 M L. destruct m as [|a m]; [congruence|].
  rewrite append_cons in *. cbn [replace_from]. rewrite M, L.
  rewrite <- append_cons, substring_append_start.
  cbn [String.length]. rewrite replace_from_skip.
  replace (S pos + String.length m) with (pos + S (String.length m)) by lia.
  reflexivity.
Qed.

Lemma strip_optional_comment pre w1 kw w2 w3 x w4 t tl :
  contains_char "/" pre = false ->
  string_forall ws w1 = true ->
  same_ci "optional" kw = true ->
  string_forall ws w2 = true ->
  string_forall ws w3 = true ->
  x <> EmptyString ->
  string_forall param_char x = true ->
  string_forall ws w4 = true ->
  delimiter t = true ->
  contains_char "/" tl = false ->
  strip (pre +:+ "/*" +:+ w1 +:+ kw +:+ w2 +:+ "*/" +:+ w3 +:+ x +:+ w4 +:+
         String t tl)
  = pre +:+ x +:+ "?" +:+ w4 +:+ String t tl.
Proof.
  intros P W1 KW W2 W3 X0 X W4 T TL.
  destruct (match_at_CONVERT_OPTIONAL_comment
              (0 + String.length pre) w1 kw w2 w3 x w4 t tl
              W1 KW W2 W3 X0 X W4 T) as (e & M & L).
  assert ("/*" +:+ w1 +:+ kw +:+ w2 +:+ "*/" +:+ w3 +:+ x +:+ w4 +:+
          String t tl
          = ("/*" +:+ w1 +:+ kw +:+ w2 +:+ "*/" +:+ w3 +:+ x +:+ w4 +:+
             String t EmptyString) +:+ tl) as A.
  { rewrite !append_assoc. reflexivity. }
  unfold strip, replace_all.
  rewrite (replace_from_prefix CONVERT_OPTIONAL)
    by (auto using match_at_CONVERT_OPTIONAL_none).
  rewrite A in M |- *.
  assert ("/*" +:+ w1 +:+ kw +:+ w2 +:+ "*/" +:+ w3 +:+ x +:+ w4 +:+
          String t EmptyString <> EmptyString) as M0 by discriminate.
  rewrite (replace_from_match _ _ _ _ _ _ _ M0 M L).
  rewrite (replace_from_unmatched CONVERT_OPTIONAL)
    by (auto using match_at_CONVERT_OPTIONAL_none).
  unfold optional_suffix, group_text. cbn [m_caps cap Nat.eqb].
  assert (pre +:+ (x +:+ "?" +:+ w4 +:+ String t EmptyString) +:+ tl
          = pre +:+ x +:+ "?" +:+ w4 +:+ String t tl) as B.
  { rewrite !append_assoc. reflexivity. }
  rewrite B.
  apply replace_from_unmatched; [auto using match_at_STRIP_COMMENTS_none|].
  assert (contains_char "/" x = false) as XS.
  { eapply string_forall_contains; [exact X|reflexivity]. }
  assert (contains_char "/" w4 = false) as WS.
  { eapply string_forall_contains; [exact W4|reflexivity]. }
  assert (Ascii.eqb "/" t = false) as TS.
  { revert T. destruct t as [[] [] [] [] [] [] [] []]; vm_compute;
      intros T; try discriminate T; reflexivity. }
  rewrite !contains_char_append. cbn [contains_char].
  rewrite P, XS, WS, TS, TL. reflexivity.
Qed.

Lemma drop_ws_split s :
  exists w, s = w +:+ drop_ws s /\ string_forall ws w = true.
Proof.
  induction s as [|a s (w & E & W)].
  - exists EmptyString. split; reflexivity.
  - cbn [drop_ws]. destruct (ws a) eqn:Wa.
    + exists (String a w). rewrite append_cons, <- E.
      cbn [string_forall]. rewrite Wa, W. split; reflexivity.
    + exists EmptyString. split; reflexivity.
Qed.

Lemma string_forall_append p s t :
  string_forall p (s +:+ t) = string_forall p s && string_forall p t.
Proof.
  induction s as [|a s IH]; [reflexivity|].
  rewrite append_cons. cbn [string_forall]. rewrite IH.
  apply andb_assoc.
Qed.

(** *** The first name of a list *)

Lemma rep_greedy_names_shift (s0 : string) (b : nat) : forall s least q c,
  rep_greedy name_char least (b + q) s c
             (fun pos' _ c' =>
                Some (pos', (1, String.substring 0 (pos' - b) s0) :: c'))
  = match rep_greedy name_char least q s c
                     (fun pos' _ c' =>
                        Some (pos', (1, String.substring 0 (pos' - 0) s0)
                                      :: c')) with
    | Some (e, c') => Some (b + e, c')
    | None => None
    end.
Proof.
  induction s as [|a s IH]; intros least q c.
  - cbn [rep_greedy]. destruct least; [|reflexivity].
    replace (b + q - b) with (q - 0) by lia. reflexivity.
  - cbn [rep_greedy].
    replace (S (b + q)) with (b + S q) by lia. rewrite IH.
    destruct (name_char a).
    + destruct (rep_greedy name_char (Nat.pred least) (S q) s c _)
        as [[e c']|]; [reflexivity|].
      destruct least; [|reflexivity].
      replace (b + q - b) with (q - 0) by lia. reflexivity.
    + destruct least; [|reflexivity].
      replace (b + q - b) with (q - 0) by lia. reflexivity.
Qed.

Lemma match_at_ARGUMENT_NAMES_shift pos s :
  match_at ARGUMENT_NAMES pos s
  = match match_at ARGUMENT_NAMES 0 s with
    | Some (e, c) => Some (pos + e, c)
    | None => None
    end.
Proof.
  unfold match_at, ARGUMENT_NAMES. cbn [exec].
  pose proof (rep_greedy_names_shift s pos s 1 0 []) as H.
  rewrite Nat.add_0_r in H. exact H.
Qed.

Lemma match_all_names_shift : forall s pos pos' skip,
  match_all_from ARGUMENT_NAMES pos skip s
  = match_all_from ARGUMENT_NAMES pos' skip s.
Proof.
  induction s as [|a s IH]; intros pos pos' skip.
  - destruct skip; cbn [match_all_from]; [|reflexivity].
    rewrite (match_at_ARGUMENT_NAMES_shift pos),
      (match_at_ARGUMENT_NAMES_shift pos').
    destruct (match_at ARGUMENT_NAMES 0 EmptyString) as [[e c]|];
      [|reflexivity].
    replace (pos + e - pos) with e by lia.
    replace (pos' + e - pos') with e by lia. reflexivity.
  - destruct skip; cbn [match_all_from]; [|apply IH].
    rewrite (match_at_ARGUMENT_NAMES_shift pos),
      (match_at_ARGUMENT_NAMES_shift pos').
    destruct (match_at ARGUMENT_NAMES 0 (String a s)) as [[e c]|];
      [|apply IH].
    replace (pos + e - pos) with e by lia.
    replace (pos' + e - pos') with e by lia.
    f_equal. apply IH.
Qed.

Lemma match_all_from_skip r : forall u pos s,
  match_all_from r pos (String.length u) (u +:+ s)
  = match_all_from r (pos + String.length u) 0 s.
Proof.
  induction u as [|a u IH]; intros pos s.
  - rewrite append_nil_l. cbn [String.length]. rewrite Nat.add_0_r.
    reflexivity.
  - rewrite append_cons. cbn [String.length match_all_from]. rewrite IH.
    replace (S pos + String.length u) with (pos + S (String.length u))
      by lia.
    reflexivity.
Qed.

Lemma match_at_ARGUMENT_NAMES_run pos n a :
  n <> EmptyString ->
  string_forall name_char n = true ->
  head_in name_char a = false ->
  match_at ARGUMENT_NAMES pos (n +:+ a)
  = Some (pos + String.length n, [(1, n)]).
Proof.
  intros N0 N A. destruct n as [|c n]; [congruence|].
  cbn [string_forall] in N. apply andb_prop in N as [Nc N].
  unfold match_at, ARGUMENT_NAMES. cbn [exec].
  change (fun a0 : ascii => negb (ws a0 || only "," a0)) with name_char.
  rewrite append_cons. cbn [rep_greedy Nat.pred]. rewrite Nc.
  erewrite rep_greedy_run; [reflexivity|exact N|exact A|].
  cbv beta. cbn [String.length].
  replace (S pos + String.length n - pos) with (S (String.length n)) by lia.
  replace (S pos + String.length n) with (pos + S (String.length n)) by lia.
  rewrite <- append_cons.
  change (S (String.length n)) with (String.length (String c n)).
  rewrite substring_append_start. reflexivity.
Qed.

Lemma match_all_first_name n a :
  n <> EmptyString ->
  string_forall name_char n = true ->
  head_in name_char a = false ->
  match_all ARGUMENT_NAMES (n +:+ a) = n :: match_all ARGUMENT_NAMES a.
Proof.
  intros N0 N A. unfold match_all.
  pose proof (match_at_ARGUMENT_NAMES_run 0 n a N0 N A) as M.
  destruct n as [|c n]; [congruence|].
  rewrite append_cons in *. cbn [match_all_from]. rewrite M.
  cbn [String.length Nat.add Nat.sub Nat.pred].
  rewrite <- append_cons.
  change (S (String.length n)) with (String.length (String c n)).
  rewrite substring_append_start. f_equal.
  rewrite match_all_from_skip. apply match_all_names_shift.
Qed.

Lemma optional_comment_converted :
  forall (pre w1 kw w2 w3 x a rest : string),
    let fnStr := pre +:+ "(" +:+ "/*" +:+ w1 +:+ kw +:+ w2 +:+ "*/" +:+ w3
                 +:+ x +:+ a +:+ ")" +:+ rest in
    test IS_CLASS_REGEX fnStr = false ->
    contains_char "/" pre = false ->
    contains_char "/" a = false ->
    contains_char "/" rest = false ->
    contains_char "(" pre = false ->
    string_forall ws w1 = true ->
    same_ci "optional" kw = true ->
    string_forall ws w2 = true ->
    string_forall ws w3 = true ->
    x <> EmptyString ->
    string_forall param_char x = true ->
    head_in delimiter (drop_ws (a +:+ ")")) = true ->
    contains_char ")" a = false ->
    has_arrow (pre +:+ "(" +:+ x +:+ "?" +:+ a) = false ->
    _getArgumentsFromString fnStr
    = Ok (match_all ARGUMENT_NAMES (x +:+ "?" +:+ a)).
Proof.
  intros pre w1 kw w2 w3 x a rest fnStr Hc P A R Hp W1 KW W2 W3 X0 X D Ha
         Harrow.
  destruct (drop_ws_split (a +:+ ")")) as (w4 & E & W4).
  destruct (drop_ws (a +:+ ")")) as [|t tl0] eqn:Dr; [discriminate D|].
  cbn [head_in] in D.
  assert (contains_char "/" tl0 = false) as T0.
  { assert (contains_char "/" (a +:+ ")") = false) as C.
    { rewrite contains_char_append, A. reflexivity. }
    rewrite E, contains_char_append in C.
    apply orb_false_elim in C as [_ C]. cbn [contains_char] in C.
    apply orb_false_elim in C as [_ C]. exact C. }
  assert (a +:+ ")" +:+ rest = w4 +:+ String t (tl0 +:+ rest)) as E'.
  { rewrite <- append_assoc, E, append_assoc. reflexivity. }
  assert (strip fnStr = pre +:+ String "(" ((x +:+ "?" +:+ a) +:+
                                            String ")" rest)) as S.
  { unfold fnStr. rewrite E'.
    rewrite <- (append_assoc pre "(").
    rewrite strip_optional_comment; auto.
    - rewrite <- E'. rewrite !append_assoc. reflexivity.
    - rewrite contains_char_append, P. reflexivity.
    - rewrite contains_char_append, T0, R. reflexivity. }
  unfold _getArgumentsFromString, declaration_head. rewrite Hc, S.
  unfold search.
  destruct (search_ARGUMENTS_paren (x +:+ "?" +:+ a) rest pre 0) as [text F].
  - exact Hp.
  - rewrite !contains_char_append, Ha. cbn [contains_char].
    rewrite (string_forall_contains param_char ")" x X) by reflexivity.
    reflexivity.
  - exact Harrow.
  - rewrite F. reflexivity.
Qed.

(** X19.  An optional-parameter comment on the first parameter of a
    parenthesised list.  The declaration is not a class and reads
    [pre ( comment x a ) rest]: [pre] holds no ["("], and no slash occurs
    outside the comment; the comment is [/*], white space, the word
    [optional] in any letter case, white space, [*/], and white space may
    follow it; the parameter [x] is made of name characters other than
    [)], [=] and [/]; [a] holds no [")"], is empty or starts with white
    space or a comma, and its first character after white space is a
    comma or an equals sign (or [a] is white space only); and there is no
    arrow before the closing parenthesis.  The parser then reports [x]
    with the optional marker [?] appended as the first dependency name,
    followed by the names of [a]. *)
Theorem optional_comment_marks_the_parameter :
  forall (pre w1 kw w2 w3 x a rest : string),
    let fnStr := pre +:+ "(" +:+ "/*" +:+ w1 +:+ kw +:+ w2 +:+ "*/" +:+ w3
                 +:+ x +:+ a +:+ ")" +:+ rest in
    test IS_CLASS_REGEX fnStr = false ->
    contains_char "/" pre = false ->
    contains_char "/" a = false ->
    contains_char "/" rest = false ->
    contains_char "(" pre = false ->
    string_forall ws w1 = true ->
    same_ci "optional" kw = true ->
    string_forall ws w2 = true ->
    string_forall ws w3 = true ->
    x <> EmptyString ->
    string_forall param_char x = true ->
    head_in name_char a = false ->
    head_in delimiter (drop_ws (a +:+ ")")) = true ->
    contains_char ")" a = false ->
    has_arrow (pre +:+ "(" +:+ x +:+ "?" +:+ a) = false ->
    _getArgumentsFromString fnStr
    = Ok ((x +:+ "?") :: match_all ARGUMENT_NAMES a).
Proof.
  intros pre w1 kw w2 w3 x a rest fnStr Hc P A R Hp W1 KW W2 W3 X0 X Hd D Ha
         Harrow.
  unfold fnStr.
  rewrite (optional_comment_converted pre w1 kw w2 w3 x a rest)
    by assumption.
  rewrite <- (append_assoc x "?" a).
  rewrite match_all_first_name; [reflexivity| | |exact Hd].
  - destruct x; discriminate.
  - rewrite string_forall_append. cbn [string_forall].
    rewrite (string_forall_impl param_char name_char); [reflexivity| |exact X].
    intros c Hc'. unfold param_char in Hc'.
    apply andb_prop in Hc' as [Hc' _]. exact Hc'.
Qed.

Lemma optional_comment_marks_the_parameter_witness :
  _getArgumentsFromString "function (/* Optional */ a, b) {}"
  = Ok ["a?"; "b"].
Proof.
  apply (optional_comment_marks_the_parameter
           "function " " " "Optional" " " " " "a" ", b" " {}");
    try reflexivity.
  discriminate.
Defined.

(** *** A match of the conversion needs a slash to close the comment *)


Lemma rep_greedy_slashless p (k : cont) :
  slashless k -> forall s least pos c,
    contains_char "/" s = false -> rep_greedy p least pos s c k = None.
Proof.
  intros Hk. induction s as [|a s IH]; intros least pos c H.
  - cbn [rep_greedy]. destruct least; [apply Hk; exact H|reflexivity].
  - cbn [rep_greedy]. pose proof H as H'.
    cbn [contains_char] in H'. apply orb_false_elim in H' as [_ H'].
    rewrite (IH _ _ _ H').
    destruct (p a); destruct least; auto.
Qed.

Lemma exec_LitI_slashless l (k : cont) :
  slashless k -> forall s pos c,
    contains_char "/" s = false -> exec (LitI l) pos s c k = None.
Proof.
  intros Hk. induction l as [|a l IH]; intros s pos c H.
  - cbn [LitI exec]. apply Hk. exact H.
  - cbn [LitI exec]. destruct s as [|b s]; [reflexivity|].
    destruct (only_ci a b); [|reflexivity].
    apply IH. cbn [contains_char] in H.
    apply orb_false_elim in H as [_ H]. exact H.
Qed.

Lemma exec_close_slashless (k : cont) s pos c :
  contains_char "/" s = false -> exec (LitI "*/") pos s c k = None.
Proof.
  intros H. cbn [LitI exec].
  destruct s as [|a s]; [reflexivity|].
  destruct (only_ci "*" a); [|reflexivity].
  destruct s as [|b s]; [reflexivity|].
  rewrite only_ci_slash.
  cbn [contains_char] in H. apply orb_false_elim in H as [_ H].
  apply orb_false_elim in H as [H _]. rewrite H. reflexivity.
Qed.

Lemma exec_LitI_cons a l pos b s c (k : cont) :
  exec (LitI (String a l)) pos (String b s) c k
  = if only_ci a b then exec (LitI l) (S pos) s c k else None.
Proof. reflexivity. Qed.

Lemma exec_LitI_nil pos s c (k : cont) :
  exec (LitI EmptyString) pos s c k = k pos s c.
Proof. reflexivity. Qed.

Lemma match_at_CONVERT_OPTIONAL_unclosed pos s :
  contains_char "/" s = false ->
  match_at CONVERT_OPTIONAL pos (String "/" s) = None.
Proof.
  intros H. unfold match_at, CONVERT_OPTIONAL. cbn [seq exec].
  rewrite exec_LitI_cons, only_ci_slash, Ascii.eqb_refl.
  destruct s as [|b s]; [reflexivity|].
  rewrite exec_LitI_cons. destruct (only_ci "*" b); [|reflexivity].
  rewrite exec_LitI_nil.
  cbn [contains_char] in H. apply orb_false_elim in H as [_ H].
  apply rep_greedy_slashless; [|exact H].
  intros pos1 t1 c1 H1. apply exec_LitI_slashless; [|exact H1].
  intros pos2 t2 c2 H2. apply rep_greedy_slashless; [|exact H2].
  intros pos3 t3 c3 H3. apply exec_close_slashless. exact H3.
Qed.

Lemma rep_lazy_slashless p (k : cont) :
  slashless k -> forall s least pos c,
    contains_char "/" s = false -> rep_lazy p least pos s c k = None.
Proof.
  intros Hk. induction s as [|a s IH]; intros least pos c H.
  - cbn [rep_lazy]. destruct least; [rewrite Hk by exact H|]; reflexivity.
  - cbn [rep_lazy]. pose proof H as H'.
    cbn [contains_char] in H'. apply orb_false_elim in H' as [_ H'].
    rewrite (IH _ _ _ H').
    destruct least; [rewrite Hk by exact H|]; destruct (p a); reflexivity.
Qed.

Lemma match_at_STRIP_COMMENTS_unclosed pos s :
  contains_char "/" s = false ->
  match_at STRIP_COMMENTS pos (String "/" s) = None.
Proof.
  intros H. unfold match_at, STRIP_COMMENTS. cbn [seq exec].
  rewrite !exec_Lit.
  destruct s as [|b s]; [reflexivity|].
  cbn [strip_prefix]. rewrite Ascii.eqb_refl.
  cbn [contains_char] in H. apply orb_false_elim in H as [Hb H].
  rewrite Hb.
  destruct (Ascii.eqb "*" b); [|reflexivity].
  apply rep_lazy_slashless; [|exact H].
  intros pos1 t1 c1 H1. rewrite exec_Lit.
  destruct t1 as [|x t1]; [reflexivity|]. cbn [strip_prefix].
  destruct (Ascii.eqb "*" x); [|reflexivity].
  destruct t1 as [|y t1]; [reflexivity|].
  cbn [contains_char] in H1. apply orb_false_elim in H1 as [_ H1].
  apply orb_false_elim in H1 as [H1 _]. rewrite H1. reflexivity.
Qed.

Lemma replace_from_step r f pos a s :
  match_at r pos (String a s) = None ->
  replace_from r f pos 0 (String a s)
  = String a (replace_from r f (S pos) 0 s).
Proof. intros H. cbn [replace_from]. rewrite H. reflexivity. Qed.

(** A slash followed by text without one starts no match. *)
Lemma replace_from_lone_slash r f :
  (forall pos s, starts_with_char "/" s = false -> match_at r pos s = None) ->
  (forall pos s, contains_char "/" s = false ->
                 match_at r pos (String "/" s) = None) ->
  forall s pos,
    contains_char "/" s = false ->
    replace_from r f pos 0 (String "/" s) = String "/" s.
Proof.
  intros H0 H1 s pos H. rewrite replace_from_step by (apply H1; exact H).
  rewrite (replace_from_unmatched r f H0) by exact H. reflexivity.
Qed.

Lemma match_at_CONVERT_OPTIONAL_line pos s :
  match_at CONVERT_OPTIONAL pos (String "/" (String "/" s)) = None.
Proof.
  unfold match_at, CONVERT_OPTIONAL. cbn [seq exec].
  rewrite exec_LitI_cons, only_ci_slash, Ascii.eqb_refl.
  rewrite exec_LitI_cons. reflexivity.
Qed.

(** The conversion leaves a line comment alone when no slash follows. *)
Lemma convert_line_comment f p c :
  contains_char "/" p = false ->
  contains_char "/" c = false ->
  replace_all CONVERT_OPTIONAL f (p +:+ "//" +:+ c) = p +:+ "//" +:+ c.
Proof.
  intros P C. unfold replace_all.
  rewrite (replace_from_prefix CONVERT_OPTIONAL)
    by (auto using match_at_CONVERT_OPTIONAL_none).
  change ("//" +:+ c) with (String "/" (String "/" c)).
  rewrite replace_from_step by apply match_at_CONVERT_OPTIONAL_line.
  rewrite replace_from_lone_slash;
    auto using match_at_CONVERT_OPTIONAL_none,
               match_at_CONVERT_OPTIONAL_unclosed.
Qed.

Lemma rep_greedy_all p (k : cont) c r : forall w pos,
  string_forall p w = true ->
  k (pos + String.length w) EmptyString c = Some r ->
  rep_greedy p 0 pos w c k = Some r.
Proof.
  induction w as [|a w IH]; intros pos W K.
  - cbn [String.length] in K. rewrite Nat.add_0_r in K. exact K.
  - cbn [string_forall] in W. apply andb_prop in W as [Wa W].
    cbn [rep_greedy Nat.pred]. rewrite Wa, (IH (S pos) W); [reflexivity|].
    cbn [String.length] in K.
    replace (S pos + String.length w) with (pos + S (String.length w))
      by lia.
    exact K.
Qed.

Lemma rep_greedy_stopped p (k : cont) nl q :
  p nl = false ->
  (forall pos a s c, k pos (String a s) c = None) ->
  forall w pos c, rep_greedy p 0 pos (w +:+ String nl q) c k = None.
Proof.
  intros N Hk. induction w as [|a w IH]; intros pos c.
  - rewrite append_nil_l. cbn [rep_greedy]. rewrite N. apply Hk.
  - rewrite append_cons. cbn [rep_greedy Nat.pred]. rewrite IH.
    rewrite Hk. destruct (p a); reflexivity.
Qed.

Lemma append_nil_r (s : string) : s +:+ EmptyString = s.
Proof. induction s as [|a s IH]; [reflexivity|]. rewrite append_cons, IH. reflexivity. Qed.

(** [//] to the end of the text, no line terminator in between. *)
Lemma match_at_STRIP_COMMENTS_trailing pos c :
  string_forall dot c = true ->
  exists caps,
    match_at STRIP_COMMENTS pos ("//" +:+ c)
    = Some (pos + String.length ("//" +:+ c), caps).
Proof.
  intros D. unfold match_at, STRIP_COMMENTS. cbn [seq exec].
  rewrite exec_Lit. change (strip_prefix "//" ("//" +:+ c)) with (Some c).
  eexists. erewrite rep_greedy_all; [reflexivity|exact D|].
  cbn [String.length String.append].
  replace (pos + 2 + String.length c) with (pos + S (S (String.length c)))
    by lia.
  reflexivity.
Qed.

(** [//] with a line terminator after it. *)
Lemma match_at_STRIP_COMMENTS_line pos c nl q :
  dot nl = false ->
  match_at STRIP_COMMENTS pos ("//" +:+ c +:+ String nl q) = None.
Proof.
  intros N. unfold match_at, STRIP_COMMENTS. cbn [seq exec].
  rewrite !exec_Lit.
  change (strip_prefix "//" ("//" +:+ c +:+ String nl q))
    with (Some (c +:+ String nl q)).
  cbv beta iota.
  rewrite (rep_greedy_stopped dot _ nl q N) by reflexivity.
  reflexivity.
Qed.

Lemma strip_trailing_line_comment p c :
  contains_char "/" p = false ->
  contains_char "/" c = false ->
  string_forall dot c = true ->
  strip (p +:+ "//" +:+ c) = p.
Proof.
  intros P C D. unfold strip. rewrite convert_line_comment by assumption.
  unfold replace_all.
  rewrite (replace_from_prefix STRIP_COMMENTS)
    by (auto using match_at_STRIP_COMMENTS_none).
  destruct (match_at_STRIP_COMMENTS_trailing (0 + String.length p) c D)
    as [caps M].
  pose proof (replace_from_match
                STRIP_COMMENTS (fun _ => EmptyString)
                (0 + String.length p) ("//" +:+ c) EmptyString
                (0 + String.length p + String.length ("//" +:+ c)) caps)
    as R.
  rewrite append_nil_r in R. rewrite R.
  - cbn [replace_from String.append]. apply append_nil_r.
  - discriminate.
  - exact M.
  - lia.
Qed.

Lemma dot_not_slash nl : dot nl = false -> Ascii.eqb "/" nl = false.
Proof.
  destruct nl as [[] [] [] [] [] [] [] []]; vm_compute; intros H;
    try discriminate H; reflexivity.
Qed.

Lemma strip_line_comment_kept p c nl q :
  contains_char "/" p = false ->
  contains_char "/" c = false ->
  contains_char "/" q = false ->
  dot nl = false ->
  strip (p +:+ "//" +:+ c +:+ String nl q) = p +:+ "//" +:+ c +:+ String nl q.
Proof.
  intros P C Q N.
  assert (contains_char "/" (c +:+ String nl q) = false) as CQ.
  { rewrite contains_char_append, C. cbn [contains_char].
    rewrite (dot_not_slash _ N), Q. reflexivity. }
  unfold strip. rewrite convert_line_comment by assumption.
  unfold replace_all.
  rewrite (replace_from_prefix STRIP_COMMENTS)
    by (auto using match_at_STRIP_COMMENTS_none).
  rewrite (replace_from_step STRIP_COMMENTS _ _ "/"
                             (String "/" (c +:+ String nl q)))
    by (apply (match_at_STRIP_COMMENTS_line _ c nl q N)).
  rewrite replace_from_lone_slash;
    auto using match_at_STRIP_COMMENTS_none,
               match_at_STRIP_COMMENTS_unclosed.
Qed.

Lemma drop_ws_append s : forall p,
  head_in ws s = false -> drop_ws (p +:+ s) = drop_ws p +:+ s.
Proof.
  intros p H. induction p as [|a p IH].
  - rewrite append_nil_l. destruct s as [|b s]; [reflexivity|].
    cbn [head_in] in H. cbn [drop_ws]. rewrite H. reflexivity.
  - rewrite append_cons. cbn [drop_ws]. destruct (ws a); [exact IH|].
    rewrite append_cons. reflexivity.
Qed.

Lemma class_word_before_slash s : forall l u,
  contains_char "/" l = false ->
  match strip_prefix l (u +:+ String "/" s) with
  | Some (String a _) => ws a
  | _ => false
  end
  = match strip_prefix l u with
    | Some (String a _) => ws a
    | _ => false
    end.
Proof.
  induction l as [|x l IH]; intros u H.
  - cbn [strip_prefix]. destruct u; reflexivity.
  - cbn [contains_char] in H. apply orb_false_elim in H as [Hx H].
    destruct u as [|b u].
    + rewrite append_nil_l. cbn [strip_prefix].
      rewrite Ascii.eqb_sym, Hx. reflexivity.
    + rewrite append_cons. cbn [strip_prefix].
      destruct (Ascii.eqb x b); [apply IH; exact H|reflexivity].
Qed.

Lemma is_class_text_slash p s :
  is_class_text (p +:+ String "/" s) = is_class_text p.
Proof.
  unfold is_class_text. rewrite drop_ws_append by reflexivity.
  apply class_word_before_slash. reflexivity.
Qed.

(** X20.  A line comment that runs to the end of the text, with no line
    terminator and no further slash in it, is dropped before the
    parameters are looked for: the declaration is parsed as if the
    comment were not there. *)
Theorem trailing_line_comment_is_dropped :
  forall (p c : string),
    test IS_CLASS_REGEX p = false ->
    contains_char "/" p = false ->
    contains_char "/" c = false ->
    string_forall dot c = true ->
    _getArgumentsFromString (p +:+ "//" +:+ c) = _getArgumentsFromString p.
Proof.
  intros p c Hc P C D. unfold _getArgumentsFromString, declaration_head.
  rewrite Hc. rewrite test_IS_CLASS_REGEX in Hc |- *.
  change (p +:+ "//" +:+ c) with (p +:+ String "/" (String "/" c)).
  rewrite is_class_text_slash, Hc.
  change (p +:+ String "/" (String "/" c)) with (p +:+ "//" +:+ c).
  rewrite strip_trailing_line_comment by assumption.
  rewrite strip_without_slash by assumption. reflexivity.
Qed.

Lemma trailing_line_comment_is_dropped_witness :
  _getArgumentsFromString "function (a, b) {} // adds (x, y)"
  = Ok ["a"; "b"].
Proof.
  change (_getArgumentsFromString
            ("function (a, b) {} " +:+ "//" +:+ " adds (x, y)")
          = Ok ["a"; "b"]).
  rewrite (trailing_line_comment_is_dropped
             "function (a, b) {} " " adds (x, y)"); reflexivity.
Defined.

(** X21.  A line comment followed by a line terminator is not removed
    (the pattern has no multi-line flag, so it only matches up to the end
    of the text): in a parenthesised list that holds such a comment, the
    two slashes and the words of the comment are reported as dependency
    names along with the parameters. *)
Theorem line_comment_before_a_line_break_is_parsed :
  forall (pre a1 c a2 rest : string) (nl : ascii),
    let list := a1 +:+ "//" +:+ c +:+ String nl a2 in
    let fnStr := pre +:+ String "(" (list +:+ String ")" rest) in
    test IS_CLASS_REGEX fnStr = false ->
    contains_char "/" pre = false ->
    contains_char "/" a1 = false ->
    contains_char "/" c = false ->
    contains_char "/" a2 = false ->
    contains_char "/" rest = false ->
    dot nl = false ->
    contains_char "(" pre = false ->
    contains_char ")" list = false ->
    has_arrow (pre +:+ String "(" list) = false ->
    _getArgumentsFromString fnStr = Ok (match_all ARGUMENT_NAMES list).
Proof.
  intros pre a1 c a2 rest nl list fnStr Hc P A1 C A2 R N Hp Hl Harrow.
  assert (fnStr = (pre +:+ String "(" a1) +:+ "//" +:+ c +:+
                  String nl (a2 +:+ String ")" rest)) as E.
  { unfold fnStr, list.
    repeat (rewrite append_assoc || rewrite append_cons
            || rewrite append_nil_l).
    reflexivity. }
  assert (strip fnStr = fnStr) as S.
  { rewrite E. apply strip_line_comment_kept; auto.
    - rewrite contains_char_append, P. cbn [contains_char]. rewrite A1.
      reflexivity.
    - rewrite contains_char_append, A2. cbn [contains_char]. rewrite R.
      reflexivity. }
  unfold _getArgumentsFromString, declaration_head. rewrite Hc, S.
  unfold search.
  destruct (search_ARGUMENTS_paren list rest pre 0 Hp Hl Harrow) as [text F].
  fold fnStr in F. rewrite F. reflexivity.
Qed.

Lemma line_comment_before_a_line_break_is_parsed_witness :
  _getArgumentsFromString
    ("function (a, // first" +:+ Demo.LF +:+ " b) {}")
  = Ok ["a"; "//"; "first"; "b"].
Proof.
  apply (line_comment_before_a_line_break_is_parsed
           "function " "a, " " first" " b" " {}" (ascii_of_nat 10));
    reflexivity.
Defined.

(** *** Block comments *)

Lemma ws_not_o a : ws a = true -> only_ci "o" a = false.
Proof.
  destruct a as [[] [] [] [] [] [] [] []]; vm_compute; intros H;
    try discriminate H; reflexivity.
Qed.

Lemma match_at_CONVERT_OPTIONAL_other pos c q :
  head_in (only_ci "o") (drop_ws c) = false ->
  match_at CONVERT_OPTIONAL pos ("/*" +:+ c +:+ "*/" +:+ q) = None.
Proof.
  intros H. unfold match_at, CONVERT_OPTIONAL. cbn [seq exec].
  rewrite (exec_LitI "/*" _ _ _ "/*") by reflexivity.
  rewrite rep_greedy_ws_drop.
  - cbv beta. rewrite drop_ws_append by reflexivity.
    destruct (drop_ws c) as [|b u].
    + reflexivity.
    + cbn [head_in] in H. rewrite !append_cons, exec_LitI_cons, H.
      reflexivity.
  - intros pos' a s c' W. cbv beta.
    rewrite exec_LitI_cons, (ws_not_o _ W). reflexivity.
Qed.

Lemma rep_lazy_to_close q (K : cont) caps r : forall c pos,
  contains_char "/" c = false ->
  K (pos + String.length c + 2) q caps = Some r ->
  rep_lazy any 0 pos (c +:+ "*/" +:+ q) caps
           (fun pos' s' c' => exec (Lit "*/") pos' s' c' K)
  = Some r.
Proof.
  induction c as [|a c IH]; intros pos C HK.
  - rewrite append_nil_l. cbn [String.length] in HK.
    rewrite Nat.add_0_r in HK.
    change ("*/" +:+ q) with (String "*" (String "/" q)).
    cbn [rep_lazy]. rewrite exec_Lit. cbn [strip_prefix].
    rewrite !Ascii.eqb_refl. cbn [String.length]. rewrite HK. reflexivity.
  - cbn [contains_char] in C. apply orb_false_elim in C as [Ca C].
    rewrite append_cons. cbn [rep_lazy Nat.pred any].
    rewrite (IH (S pos) C).
    + rewrite exec_Lit. cbn [strip_prefix].
      destruct (Ascii.eqb "*" a); [|reflexivity].
      destruct c as [|b c].
      * rewrite append_nil_l. reflexivity.
      * rewrite append_cons. cbn [contains_char] in C.
        apply orb_false_elim in C as [Cb _]. rewrite Cb. reflexivity.
    + cbn [String.length] in HK.
      replace (S pos + String.length c + 2)
        with (pos + S (String.length c) + 2) by lia.
      exact HK.
Qed.

Lemma match_at_STRIP_COMMENTS_block pos c q :
  contains_char "/" c = false ->
  exists caps,
    match_at STRIP_COMMENTS pos (("/*" +:+ c +:+ "*/") +:+ q)
    = Some (pos + String.length ("/*" +:+ c +:+ "*/"), caps).
Proof.
  intros C. unfold match_at, STRIP_COMMENTS. cbn [seq exec].
  assert (("/*" +:+ c +:+ "*/") +:+ q
          = String "/" (String "*" (c +:+ "*/" +:+ q))) as E.
  { repeat (rewrite append_assoc || rewrite append_cons
            || rewrite append_nil_l).
    reflexivity. }
  rewrite E, !exec_Lit. cbn [strip_prefix].
  rewrite !Ascii.eqb_refl.
  change (Ascii.eqb "/" "*") with false. cbv beta iota.
  eexists. erewrite rep_lazy_to_close; [reflexivity|exact C|].
  rewrite <- E, !length_append. cbn [String.length].
  replace (pos + 2 + String.length c + 2)
    with (pos + (2 + (String.length c + 2))) by lia.
  reflexivity.
Qed.

Lemma strip_block_comment p c q :
  contains_char "/" p = false ->
  contains_char "/" c = false ->
  contains_char "/" q = false ->
  head_in (only_ci "o") (drop_ws c) = false ->
  strip (p +:+ "/*" +:+ c +:+ "*/" +:+ q) = p +:+ q.
Proof.
  intros P C Q O.
  assert (replace_all CONVERT_OPTIONAL optional_suffix
                      (p +:+ "/*" +:+ c +:+ "*/" +:+ q)
          = p +:+ ("/*" +:+ c +:+ "*/") +:+ q) as E.
  { unfold replace_all.
    rewrite (replace_from_prefix CONVERT_OPTIONAL)
      by (auto using match_at_CONVERT_OPTIONAL_none).
    assert ("/*" +:+ c +:+ "*/" +:+ q
            = String "/" (String "*" (c +:+ "*") +:+ String "/" q)) as F.
    { repeat (rewrite append_assoc || rewrite append_cons
              || rewrite append_nil_l).
      reflexivity. }
    pose proof (match_at_CONVERT_OPTIONAL_other
                  (0 + String.length p) c q O) as M.
    rewrite F in M. rewrite F at 1.
    rewrite (replace_from_step _ _ _ _ _ M).
    rewrite (replace_from_prefix CONVERT_OPTIONAL)
      by (auto using match_at_CONVERT_OPTIONAL_none;
          cbn [contains_char]; rewrite contains_char_append, C;
          reflexivity).
    rewrite replace_from_lone_slash;
      auto using match_at_CONVERT_OPTIONAL_none,
                 match_at_CONVERT_OPTIONAL_unclosed.
    repeat (rewrite append_assoc || rewrite append_cons
            || rewrite append_nil_l).
    reflexivity. }
  unfold strip. rewrite E. unfold replace_all.
  rewrite (replace_from_prefix STRIP_COMMENTS)
    by (auto using match_at_STRIP_COMMENTS_none).
  destruct (match_at_STRIP_COMMENTS_block (0 + String.length p) c q C)
    as [caps M].
  assert ("/*" +:+ c +:+ "*/" <> EmptyString) as M0 by discriminate.
  rewrite (replace_from_match STRIP_COMMENTS _ _ _ _ _ caps M0 M) by lia.
  rewrite (replace_from_unmatched STRIP_COMMENTS)
    by (auto using match_at_STRIP_COMMENTS_none).
  reflexivity.
Qed.

(** X22.  A block comment with no slash inside, whose first character
    after white space is not the letter [o], is removed before the
    parameters are looked for: the declaration is parsed as the text
    around the comment, provided neither text starts a class. *)
Theorem block_comment_is_invisible :
  forall (p c q : string),
    test IS_CLASS_REGEX (p +:+ "/*" +:+ c +:+ "*/" +:+ q) = false ->
    test IS_CLASS_REGEX (p +:+ q) = false ->
    contains_char "/" p = false ->
    contains_char "/" c = false ->
    contains_char "/" q = false ->
    head_in (only_ci "o") (drop_ws c) = false ->
    _getArgumentsFromString (p +:+ "/*" +:+ c +:+ "*/" +:+ q)
    = _getArgumentsFromString (p +:+ q).
Proof.
  intros p c q H1 H2 P C Q O.
  unfold _getArgumentsFromString, declaration_head. rewrite H1, H2.
  rewrite strip_block_comment by assumption.
  rewrite strip_without_slash; [reflexivity|].
  rewrite contains_char_append, P, Q. reflexivity.
Qed.

Lemma block_comment_is_invisible_witness :
  _getArgumentsFromString "function (a /* the first */, b) {}"
  = Ok ["a"; "b"].
Proof.
  change (_getArgumentsFromString
            ("function (a " +:+ "/*" +:+ " the first " +:+ "*/" +:+ ", b) {}")
          = Ok ["a"; "b"]).
  rewrite (block_comment_is_invisible
             "function (a " " the first " ", b) {}"); reflexivity.
Defined.

(** *** Classes *)

Lemma match_at_CONSTRUCTOR_REGEX_word pos s :
  strip_prefix "constructor" s = None ->
  match_at CONSTRUCTOR_REGEX pos s = None.
Proof.
  intros H. unfold match_at, CONSTRUCTOR_REGEX. cbn [seq exec].
  rewrite exec_Lit, H. reflexivity.
Qed.

Lemma search_CONSTRUCTOR_REGEX_none : forall s pos,
  has_word "constructor" s = false ->
  search_from CONSTRUCTOR_REGEX pos s = None.
Proof.
  induction s as [|a s IH]; intros pos H.
  - reflexivity.
  - cbn [has_word] in H.
    destruct (strip_prefix "constructor" (String a s)) eqn:E;
      [discriminate|].
    cbn [search_from].
    rewrite (match_at_CONSTRUCTOR_REGEX_word _ _ E). apply IH. exact H.
Qed.

(** X23.  A class whose text does not hold the word [constructor] has no
    dependencies: the parser answers with the empty list, whatever else
    the class declares (methods with parameters, a parent class). *)
Theorem class_without_constructor_needs_nothing :
  forall (fnStr : string),
    test IS_CLASS_REGEX fnStr = true ->
    has_word "constructor" fnStr = false ->
    _getArgumentsFromString fnStr = Ok [].
Proof.
  intros fnStr C W. unfold _getArgumentsFromString, declaration_head.
  rewrite C. unfold search.
  rewrite (search_CONSTRUCTOR_REGEX_none _ _ W). reflexivity.
Qed.

Lemma class_without_constructor_needs_nothing_witness :
  _getArgumentsFromString "class B extends A { run(x) { return x; } }"
  = Ok [].
Proof.
  apply class_without_constructor_needs_nothing; reflexivity.
Defined.

Lemma strip_prefix_long : forall l s t,
  String.length l <= String.length s ->
  strip_prefix l s = None -> strip_prefix l (s +:+ t) = None.
Proof.
  induction l as [|x l IH]; intros s t L H.
  - discriminate.
  - destruct s as [|b s]; [cbn [String.length] in L; lia|].
    rewrite append_cons. cbn [strip_prefix] in H |- *.
    destruct (Ascii.eqb x b); [|reflexivity].
    apply IH; [cbn [String.length] in L; lia|exact H].
Qed.

Lemma search_CONSTRUCTOR_REGEX_first tail : forall pre pos,
  has_word "constructor" (pre +:+ "constructo") = false ->
  search_from CONSTRUCTOR_REGEX pos (pre +:+ "constructor" +:+ tail)
  = search_from CONSTRUCTOR_REGEX (pos + String.length pre)
                ("constructor" +:+ tail).
Proof.
  induction pre as [|a pre IH]; intros pos H.
  - rewrite append_nil_l. cbn [String.length]. rewrite Nat.add_0_r.
    reflexivity.
  - rewrite append_cons in H. cbn [has_word] in H.
    destruct (strip_prefix "constructor" (String a (pre +:+ "constructo")))
      eqn:E; [discriminate|].
    rewrite append_cons. cbn [search_from].
    rewrite match_at_CONSTRUCTOR_REGEX_word.
    + rewrite (IH (S pos) H). cbn [String.length].
      replace (S pos + String.length pre) with (pos + S (String.length pre))
        by lia.
      reflexivity.
    + assert (String a (pre +:+ "constructor" +:+ tail)
              = String a (pre +:+ "constructo") +:+ String "r" tail) as F.
      { repeat (rewrite append_assoc || rewrite append_cons
                || rewrite append_nil_l).
        reflexivity. }
      rewrite F. apply strip_prefix_long; [|exact E].
      cbn [String.length]. rewrite length_append. cbn [String.length]. lia.
Qed.

Lemma match_at_CONSTRUCTOR_REGEX_list pos w a rest :
  string_forall ws w = true ->
  contains_char ")" a = false ->
  match_at CONSTRUCTOR_REGEX pos
           (("constructor" +:+ w +:+ String "(" (a +:+ String ")" EmptyString))
            +:+ rest)
  = Some (pos + String.length ("constructor" +:+ w +:+
                               String "(" (a +:+ String ")" EmptyString)),
          []).
Proof.
  intros W A. unfold match_at, CONSTRUCTOR_REGEX. cbn [seq exec].
  assert (("constructor" +:+ w +:+ String "(" (a +:+ String ")" EmptyString))
          +:+ rest
          = "constructor" +:+ w +:+ String "(" (a +:+ String ")" rest)) as E.
  { repeat (rewrite append_assoc || rewrite append_cons
            || rewrite append_nil_l).
    reflexivity. }
  rewrite E, exec_Lit.
  change (strip_prefix "constructor"
            ("constructor" +:+ w +:+ String "(" (a +:+ String ")" rest)))
    with (Some (w +:+ String "(" (a +:+ String ")" rest))).
  cbv beta iota.
  erewrite rep_greedy_run; [reflexivity|exact W|reflexivity|].
  cbv beta iota. unfold only at 1. rewrite Ascii.eqb_refl.
  erewrite rep_lazy_to_paren; [reflexivity|exact A| |].
  - intros pos' x s' c' Hx. cbv beta. unfold only. rewrite Hx. reflexivity.
  - cbv beta. unfold only. rewrite Ascii.eqb_refl.
    rewrite !length_append. cbn [String.length].
    rewrite !length_append. cbn [String.length].
    repeat f_equal. lia.
Qed.

Lemma has_arrow_after s : forall u,
  contains_char "=" u = false -> has_arrow (u +:+ s) = has_arrow s.
Proof.
  induction u as [|x u IH]; intros H; [reflexivity|].
  cbn [contains_char] in H. apply orb_false_elim in H as [Hx H].
  rewrite append_cons. cbn [has_arrow]. rewrite (IH H).
  unfold starts_with_arrow. rewrite Hx.
  destruct (u +:+ s); reflexivity.
Qed.

Lemma search_from_match r pos s e c :
  match_at r pos s = Some (e, c) ->
  search_from r pos s
  = Some {| m_text := String.substring 0 (e - pos) s; m_caps := c |}.
Proof. intros M. destruct s; cbn [search_from]; rewrite M; reflexivity. Qed.

(** X24.  For a class, only the first [constructor], white space, [(],
    and the text up to the next [)] are read: when that text [a] holds no
    slash and no arrow, the dependency names are the runs of characters
    other than white space and commas of [a]; what comes before the word
    and after the closing parenthesis plays no part. *)
Theorem class_constructor_list_is_parsed :
  forall (pre w a rest : string),
    let fnStr := pre +:+ "constructor" +:+ w +:+
                 String "(" (a +:+ String ")" rest) in
    test IS_CLASS_REGEX fnStr = true ->
    has_word "constructor" (pre +:+ "constructo") = false ->
    string_forall ws w = true ->
    contains_char ")" a = false ->
    contains_char "/" a = false ->
    has_arrow a = false ->
    _getArgumentsFromString fnStr = Ok (match_all ARGUMENT_NAMES a).
Proof.
  intros pre w a rest fnStr C First W A S Harrow.
  set (m := "constructor" +:+ w +:+ String "(" (a +:+ String ")" EmptyString)).
  assert ("constructor" +:+ w +:+ String "(" (a +:+ String ")" rest)
          = m +:+ rest) as E.
  { unfold m.
    repeat (rewrite append_assoc || rewrite append_cons
            || rewrite append_nil_l).
    reflexivity. }
  assert (search CONSTRUCTOR_REGEX fnStr
          = Some {| m_text := m; m_caps := [] |}) as F.
  { unfold search, fnStr.
    rewrite (search_CONSTRUCTOR_REGEX_first _ pre 0 First), E.
    pose proof (match_at_CONSTRUCTOR_REGEX_list
                  (0 + String.length pre) w a rest W A) as M.
    fold m in M.
    rewrite (search_from_match _ _ _ _ _ M).
    replace (0 + String.length pre + String.length m
             - (0 + String.length pre)) with (String.length m) by lia.
    rewrite substring_append_start. reflexivity. }
  assert (contains_char "/" w = false) as WS.
  { eapply string_forall_contains; [exact W|reflexivity]. }
  assert (contains_char "(" w = false) as WP.
  { eapply string_forall_contains; [exact W|reflexivity]. }
  assert (contains_char "=" w = false) as WE.
  { eapply string_forall_contains; [exact W|reflexivity]. }
  assert (m = ("constructor" +:+ w) +:+
              String "(" (a +:+ String ")" EmptyString)) as Em.
  { unfold m. rewrite append_assoc. reflexivity. }
  unfold _getArgumentsFromString, declaration_head. rewrite C, F.
  cbn [m_text].
  rewrite strip_without_slash.
  - unfold search. rewrite Em.
    destruct (search_ARGUMENTS_paren a EmptyString ("constructor" +:+ w) 0)
      as [text G].
    + rewrite contains_char_append, WP. reflexivity.
    + exact A.
    + rewrite append_assoc.
      rewrite (has_arrow_after _ "constructor") by reflexivity.
      rewrite (has_arrow_after _ w WE).
      cbn [has_arrow starts_with_arrow]. rewrite Harrow.
      destruct a; reflexivity.
    + rewrite G. reflexivity.
  - rewrite Em, !contains_char_append, WS. cbn [contains_char].
    rewrite contains_char_append, S. reflexivity.
Qed.

Lemma class_constructor_list_is_parsed_witness :
  _getArgumentsFromString
    "class Car { constructor (engine, wheels) { this.e = engine; } }"
  = Ok ["engine"; "wheels"].
Proof.
  apply (class_constructor_list_is_parsed
           "class Car { " " " "engine, wheels" " { this.e = engine; } }");
    reflexivity.
Defined.
